(** * The vault subsystem of secure-media-gallery

    A shallow embedding of the server-side vault code:
    - [CryptoService]  (server/services/cryptoService.ts): AES-256-GCM framing,
      string wrapping, passphrase hashing and comparison;
    - the token table and [getVaultPassphrase] (server/routes.ts);
    - [MediaService.processFile], [getMediaContent], [getThumbnail]
      (server/services/mediaService.ts);
    - the routes /api/media/:id, /api/media/:id/thumbnail, /api/media/upload,
      /api/vault/authenticate and /api/vault/setup (server/routes.ts).

    Conventions.  A JavaScript exception is the [Throw] case of [result], and
    carries the message of the [Error], because the routes pick the HTTP status
    by looking for substrings of that message.  Values drawn from the
    environment ([crypto.randomBytes], [crypto.randomUUID], [Date.now], the
    row id chosen by the database) are explicit arguments.  Node's [crypto]
    and [Buffer] codecs and the [sharp] image library are not code of the
    repository: they are the fields of the interfaces [NodeCrypto] and
    [Sharp].  The activity log and [console.error] are not modelled. *)

From Stdlib Require Import ZArith NArith Lia Bool Ascii String.
From Stdlib.Strings Require Import Byte.
From stdpp Require Import gmap strings list fin_maps.

Local Open Scope string_scope.
Local Open Scope list_scope.
Local Open Scope Z_scope.

Definition bytes := list byte.

(** ** Results of calls that may throw *)

Inductive result (A : Type) : Type :=
| Ok (value : A)
| Throw (message : string).
Arguments Ok {A} value.
Arguments Throw {A} message.

Definition bind {A B} (r : result A) (k : A -> result B) : result B :=
  match r with
  | Ok a => k a
  | Throw m => Throw m
  end.

Notation "'let*' x ':=' r 'in' k" := (bind r (fun x => k))
  (at level 10, x name, r at level 100, k at level 200).

(** [try { body } catch (error) { throw new Error(message) }] *)
Definition catchRethrow {A} (body : result A) (message : string) : result A :=
  match body with
  | Ok a => Ok a
  | Throw _ => Throw message
  end.

(** ** JavaScript strings *)

Module Js.

(** [!s] is false exactly for a non-empty string: [undefined], [null] and
    the empty string are falsy. *)
Definition truthy (s : option string) : bool :=
  match s with
  | Some (String _ _) => true
  | _ => false
  end.

(** [hay.includes(needle)] *)
Fixpoint includes (hay needle : string) : bool :=
  String.prefix needle hay ||
  match hay with
  | EmptyString => false
  | String _ rest => includes rest needle
  end.

(** [s.startsWith(p)], returning what follows the prefix. *)
Fixpoint stripPrefix (p s : string) : option string :=
  match p, s with
  | EmptyString, _ => Some s
  | String a p', String b s' =>
      if Ascii.eqb a b then stripPrefix p' s' else None
  | String _ _, EmptyString => None
  end.

(** [s.split(':')] *)
Fixpoint splitColon (s : string) : list string :=
  match s with
  | EmptyString => [EmptyString]
  | String c rest =>
      if Ascii.eqb c ":"%char then EmptyString :: splitColon rest
      else match splitColon rest with
           | [] => [String c EmptyString]
           | hd :: tl => String c hd :: tl
           end
  end.

(** [s.charCodeAt(i)] of a code unit. *)
Definition charCode (c : ascii) : Z := Z.of_N (N_of_ascii c).

End Js.

(** ** Node's Buffer: hexadecimal codec and [subarray] *)

Module Buffer.

Definition hexDigit (n : N) : ascii :=
  if (n <? 10)%N then ascii_of_N (48 + n) else ascii_of_N (87 + n).

Definition hexValue (c : ascii) : option N :=
  let n := N_of_ascii c in
  if ((48 <=? n) && (n <=? 57))%N then Some (n - 48)%N
  else if ((97 <=? n) && (n <=? 102))%N then Some (n - 87)%N
  else if ((65 <=? n) && (n <=? 70))%N then Some (n - 55)%N
  else None.

(** [buf.toString('hex')] *)
Fixpoint toHex (b : bytes) : string :=
  match b with
  | [] => EmptyString
  | x :: rest =>
      let n := Byte.to_N x in
      String (hexDigit (n / 16)) (String (hexDigit (n mod 16)) (toHex rest))
  end.

(** [Buffer.from(s, 'hex')]: decoding stops at the first pair that is not
    two hexadecimal digits. *)
Fixpoint fromHex (s : string) : bytes :=
  match s with
  | String hi (String lo rest) =>
      match hexValue hi, hexValue lo with
      | Some h, Some l =>
          match Byte.of_N (16 * h + l) with
          | Some x => x :: fromHex rest
          | None => []
          end
      | _, _ => []
      end
  | _ => []
  end.

(** [buf.subarray(start, end)] *)
Definition subarray (b : bytes) (start stop : nat) : bytes :=
  take (stop - start) (drop start b).

End Buffer.

(** ** JavaScript strings in a request body

    The strings of the model have 8-bit characters.  Where the code takes a
    passphrase they stand for the bytes that Node's [crypto] hashes, the
    UTF-8 encoding of the JavaScript string.  The setup route also reads
    [passphrase.length], which counts UTF-16 code units, so the body of that
    request is given by its code units. *)

Module Utf16.

(** A code unit, high byte first. *)
Definition unit : Type := (byte * byte)%type.

Definition code (u : unit) : N := (256 * Byte.to_N u.1 + Byte.to_N u.2)%N.

Definition isHigh (c : N) : bool := ((55296 <=? c) && (c <=? 56319))%N.
Definition isLow (c : N) : bool := ((56320 <=? c) && (c <=? 57343))%N.

(** The UTF-8 bytes of a code point. *)
Definition encode (p : N) : list ascii :=
  if (p <? 128)%N then [ascii_of_N p]
  else if (p <? 2048)%N
  then [ascii_of_N (192 + p / 64); ascii_of_N (128 + p mod 64)]
  else if (p <? 65536)%N
  then [ascii_of_N (224 + p / 4096); ascii_of_N (128 + (p / 64) mod 64);
        ascii_of_N (128 + p mod 64)]
  else [ascii_of_N (240 + p / 262144); ascii_of_N (128 + (p / 4096) mod 64);
        ascii_of_N (128 + (p / 64) mod 64); ascii_of_N (128 + p mod 64)].

(** [Buffer.from(s, 'utf8')]: a surrogate pair is one code point, and a
    surrogate without its partner is written as U+FFFD. *)
Fixpoint utf8 (s : list unit) : list ascii :=
  match s with
  | [] => []
  | u :: rest =>
      let c := code u in
      if isHigh c
      then
        match rest with
        | v :: rest' =>
            if isLow (code v)
            then encode (65536 + (c - 55296) * 1024 + (code v - 56320))
                 ++ utf8 rest'
            else encode 65533 ++ utf8 rest
        | [] => encode 65533
        end
      else if isLow c then encode 65533 ++ utf8 rest
      else encode c ++ utf8 rest
  end.

(** The string that [crypto] hashes for a JavaScript string. *)
Definition hashed (s : list unit) : string := string_of_list_ascii (utf8 s).

(** The JavaScript string whose code units are the characters of [s]. *)
Definition ofLatin1 (s : string) : list unit :=
  map (fun c => (x00, byte_of_ascii c)) (list_ascii_of_string s).

End Utf16.

(** The value of [req.body.passphrase].  A JSON string is given by its code
    units.  Of any other value (absent, [null], a boolean, a number, an
    array, an object) the setup route observes whether it is truthy and
    whether [value.length < 8] holds, and then [crypto.pbkdf2Sync] refuses
    it with a [TypeError]; such a value is given by these two
    observations. *)
Module Request.

Inductive submitted : Type :=
| Text (units : list Utf16.unit)
| NotText (isTruthy hasLengthBelow8 : bool).

(** [!!passphrase] *)
Definition truthy (passphrase : submitted) : bool :=
  match passphrase with
  | Text [] => false
  | Text (_ :: _) => true
  | NotText isTruthy _ => isTruthy
  end.

(** [passphrase.length < 8] *)
Definition lengthBelow8 (passphrase : submitted) : bool :=
  match passphrase with
  | Text units => (length units <? 8)%nat
  | NotText _ hasLengthBelow8 => hasLengthBelow8
  end.

End Request.

(** ** The interface to Node's [crypto] module and Buffer text codecs *)

Class NodeCrypto : Type := {
  (** [crypto.pbkdf2Sync(password, salt, iterations, keylen, 'sha256')] *)
  pbkdf2Sync : string -> bytes -> N -> nat -> bytes;
  (** [createCipheriv('aes-256-gcm', key, iv)], [update], [final] and
      [getAuthTag]: the encrypted bytes and the tag. *)
  gcmEncrypt : bytes -> bytes -> bytes -> bytes * bytes;
  (** [createDecipheriv('aes-256-gcm', key, iv)], [setAuthTag(tag)], [update]
      and [final]; [None] when [final] throws. *)
  gcmDecrypt : bytes -> bytes -> bytes -> bytes -> option bytes;
  (** [Buffer.from(text, 'utf8')] and [buf.toString('utf8')] *)
  utf8Encode : string -> bytes;
  utf8Decode : bytes -> string;
  (** [buf.toString('base64')] and [Buffer.from(text, 'base64')] *)
  base64Encode : bytes -> string;
  base64Decode : string -> bytes;
  (** [crypto.createHash('sha256').update(buffer).digest('hex')] *)
  sha256Hex : bytes -> string
}.


Class NodeCryptoLaws (rt : NodeCrypto) : Prop := {
  pbkdf2_length : forall password salt iterations keylen,
    length (pbkdf2Sync password salt iterations keylen) = keylen;
  gcm_tag_length : forall key iv plain,
    length (gcmEncrypt key iv plain).2 = 16%nat;
  gcm_roundtrip : forall key iv plain,
    length key = 32%nat ->
    gcmDecrypt key iv (gcmEncrypt key iv plain).2 (gcmEncrypt key iv plain).1
    = Some plain;
  utf8_roundtrip : forall s, utf8Decode (utf8Encode s) = s;
  base64_roundtrip : forall b, base64Decode (base64Encode b) = b
}.

(** ** server/services/cryptoService.ts *)

Module CryptoService.
Section WithRuntime.
Context {rt : NodeCrypto}.

Definition keyLength : nat := 32.
Definition ivLength : nat := 16.
Definition tagLength : nat := 16.

Definition deriveKey (passphrase : string) (salt : bytes) : bytes :=
  pbkdf2Sync passphrase salt 15000 keyLength.

(** [salt] is the result of [generateSalt()] and [iv] the result of
    [crypto.randomBytes(this.ivLength)]. *)
Definition encryptBuffer (salt iv : bytes) (buffer : bytes)
    (passphrase : string) : bytes :=
  let key := deriveKey passphrase salt in
  let cipher := gcmEncrypt key iv buffer in
  let encrypted := cipher.1 in
  let tag := cipher.2 in
  salt ++ iv ++ tag ++ encrypted.

Definition decryptBuffer (encryptedBuffer : bytes) (passphrase : string)
    : result bytes :=
  if (length encryptedBuffer <? keyLength + ivLength + tagLength)%nat
  then Throw "Invalid encrypted buffer length"
  else
    let salt := Buffer.subarray encryptedBuffer 0 32 in
    let iv := Buffer.subarray encryptedBuffer 32 (32 + ivLength) in
    let tag := Buffer.subarray encryptedBuffer (32 + ivLength)
                 (32 + ivLength + tagLength) in
    let encrypted := drop (32 + ivLength + tagLength) encryptedBuffer in
    let key := deriveKey passphrase salt in
    match gcmDecrypt key iv tag encrypted with
    | Some decrypted => Ok decrypted
    | None => Throw "Decryption failed: Invalid passphrase or corrupted data"
    end.

Definition encryptString (salt iv : bytes) (text passphrase : string)
    : string :=
  let buffer := utf8Encode text in
  let encrypted := encryptBuffer salt iv buffer passphrase in
  base64Encode encrypted.

Definition decryptString (encryptedText passphrase : string)
    : result string :=
  let encrypted := base64Decode encryptedText in
  let* decrypted := decryptBuffer encrypted passphrase in
  Ok (utf8Decode decrypted).

(** [salt] is the result of [crypto.randomBytes(16)]. *)
Definition hashPassword (salt : bytes) (password : string) : string :=
  let hash := pbkdf2Sync password salt 15000 64 in
  Buffer.toHex salt +:+ ":" +:+ Buffer.toHex hash.

(** [a === b] where [b] may be [undefined]. *)
Definition strictEquals (a : string) (b : option string) : bool :=
  match b with
  | Some b' => String.eqb a b'
  | None => false
  end.

Definition verifyPassword (password hashedPassword : string) : bool :=
  let parts := Js.splitColon hashedPassword in
  let saltHex := default EmptyString (parts !! 0%nat) in
  let hashHex := parts !! 1%nat in
  let salt := Buffer.fromHex saltHex in
  let hash := pbkdf2Sync password salt 15000 64 in
  strictEquals (Buffer.toHex hash) hashHex.

(** The loop [for (i = 0; i < a.length; i++) result |= a.charCodeAt(i) ^
    b.charCodeAt(i)], run over two strings of the same length. *)
Fixpoint compareLoop (a b : string) (acc : Z) : Z :=
  match a, b with
  | String x a', String y b' =>
      compareLoop a' b' (Z.lor acc (Z.lxor (Js.charCode x) (Js.charCode y)))
  | _, _ => acc
  end.

Definition constantTimeCompare (a b : string) : bool :=
  if negb (String.length a =? String.length b)%nat then false
  else compareLoop a b 0 =? 0.

End WithRuntime.
End CryptoService.

(** ** Records of the in-memory token table and of the database *)

Module TokenData.
Record t : Type := mk {
  userId : string;
  passphrase : string;
  expiresAt : Z
}.
End TokenData.

(** A row of [users]; the profile columns that the vault code never reads are
    kept as one field. *)
Module User.
Record t : Type := mk {
  profile : option string;
  role : option string;
  vaultPassphrase : option string;
  createdAt : Z;
  updatedAt : Z
}.
End User.

(** A row of [media_files]; width, height, duration, tags and the timestamps
    are left out, the vault code neither reads nor branches on them. *)
Module MediaFile.
Record t : Type := mk {
  filename : string;
  originalName : string;
  mimeType : string;
  fileSize : Z;
  sha256Hash : string;
  binaryData : bytes;
  thumbnailData : option bytes;
  isEncrypted : bool;
  encryptionKey : option string;
  categoryId : option string;
  uploadedBy : string;
  isDeleted : bool
}.
End MediaFile.

(** The process-wide state the routes work on: [vaultTokenStore] of routes.ts
    and the two tables reached through [storage]. *)
Record server : Type := mkServer {
  vaultTokenStore : gmap string TokenData.t;
  users : gmap string User.t;
  mediaFiles : gmap string MediaFile.t
}.

Definition setTokenStore (store : gmap string TokenData.t) (s : server)
    : server :=
  mkServer store (users s) (mediaFiles s).

Definition setUsers (u : gmap string User.t) (s : server) : server :=
  mkServer (vaultTokenStore s) u (mediaFiles s).

Definition setMediaFiles (m : gmap string MediaFile.t) (s : server) : server :=
  mkServer (vaultTokenStore s) (users s) m.

(** ** server/storage.ts *)

Definition doubleQuote : string := String (ascii_of_nat 34) EmptyString.

(** The message of the database for a row that a unique index refuses. *)
Definition uniqueViolation (constraint : string) : string :=
  "duplicate key value violates unique constraint " +:+ doubleQuote
  +:+ constraint +:+ doubleQuote.

Module Storage.

Definition getUser (id : string) (s : server) : option User.t :=
  users s !! id.

(** [insert ... values(userData) onConflictDoUpdate({ target: users.id, set:
    {...userData, updatedAt: new Date()} })] for [userData = { id,
    vaultPassphrase }].  [now] is the clock reading that the statement
    stores: [new Date()] of the process on a conflict, the column default
    [now()] of the database on an insert. *)
Definition upsertUser (now : Z) (id : string) (vaultPassphrase : string)
    (s : server) : server :=
  let row :=
    match users s !! id with
    | Some existing =>
        User.mk (User.profile existing) (User.role existing)
          (Some vaultPassphrase) (User.createdAt existing) now
    | None => User.mk None (Some "user") (Some vaultPassphrase) now now
    end in
  setUsers (<[id := row]> (users s)) s.

Definition getMediaFile (id : string) (s : server) : option MediaFile.t :=
  mediaFiles s !! id.

Definition sameHashAndOwner (hash userId : string) (f : MediaFile.t) : bool :=
  String.eqb (MediaFile.sha256Hash f) hash
  && String.eqb (MediaFile.uploadedBy f) userId.

Definition getMediaFileByHash (hash userId : string) (s : server)
    : option (string * MediaFile.t) :=
  List.find
    (fun row => sameHashAndOwner hash userId row.2
                && negb (MediaFile.isDeleted row.2))
    (map_to_list (mediaFiles s)).

(** [insert(mediaFiles).values(file).returning()]; [id] is the key the
    database generates.  The insert fails on the primary key and on the
    constraint [unique_media_files_sha256_uploaded_by].  The limits of the
    column types ([varchar(500)] for the names, [varchar(100)] for the MIME
    type, [integer], [uuid] for the category), which refuse a row before
    the indexes are consulted, are not modelled: a row that is refused here
    is refused by the database, but not always with this message, and a
    row that is stored here is stored by the database only if it fits. *)
Definition createMediaFile (id : string) (file : MediaFile.t) (s : server)
    : result (string * MediaFile.t) * server :=
  if bool_decide (is_Some (mediaFiles s !! id))
     || existsb
          (fun row => sameHashAndOwner (MediaFile.sha256Hash file)
                        (MediaFile.uploadedBy file) row.2)
          (map_to_list (mediaFiles s))
  then (Throw (uniqueViolation
                 (if bool_decide (is_Some (mediaFiles s !! id))
                  then "media_files_pkey"
                  else "unique_media_files_sha256_uploaded_by")), s)
  else (Ok (id, file), setMediaFiles (<[id := file]> (mediaFiles s)) s).

End Storage.

(** ** The [sharp] and ffmpeg thumbnailers *)

Class Sharp : Type := {
  (** [sharp(buffer).metadata()] then, when asked, [resize(size, size,
      ...).jpeg({ quality: 85 }).toBuffer()]; it throws on bytes that are not
      an image. *)
  imageThumbnail : bytes -> bool -> Z -> result (option bytes);
  (** [checkFFmpegAvailability] and [processVideo], whose failures are caught
      in [processFile]. *)
  videoThumbnail : bytes -> bool -> Z -> option bytes;
  (** [sharp({ create: { width: 300, height: 300, channels: 3, background:
      { r: 50, g: 50, b: 50 } } }).jpeg().toBuffer()] *)
  placeholderJpeg : bytes
}.

(** ** server/services/mediaService.ts *)

Module MediaService.

Record MediaProcessingOptions : Type := mkOptions {
  generateThumbnail : bool;
  thumbnailSize : Z;
  encryptContent : bool;
  encryptionKey : option string;
  vaultPassphrase : option string;
  categoryId : option string
}.

Record MediaUploadResult : Type := mkUploadResult {
  id : string;
  sha256Hash : string;
  isDuplicate : bool;
  thumbnailGenerated : bool
}.

(** What one call of [processFile] draws from the environment: the salt and
    IV of each of its three [encryptBuffer] calls, the name built by
    [generateUniqueFilename] and the id of the inserted row. *)
Record draws : Type := mkDraws {
  contentSalt : bytes;
  contentIv : bytes;
  keySalt : bytes;
  keyIv : bytes;
  thumbnailSalt : bytes;
  thumbnailIv : bytes;
  uniqueFilename : string;
  rowId : string
}.

Record content : Type := mkContent {
  buffer : bytes;
  contentMimeType : string;
  contentFilename : string
}.

Section WithRuntime.
Context {rt : NodeCrypto} {img : Sharp}.

Definition processMedia (buffer : bytes) (mimeType : string)
    (generateThumbnail : bool) (thumbnailSize : Z) : result (option bytes) :=
  if String.prefix "image/" mimeType
  then imageThumbnail buffer generateThumbnail thumbnailSize
  else if String.prefix "video/" mimeType
  then Ok (videoThumbnail buffer generateThumbnail thumbnailSize)
  else Ok None.

Definition isUniqueViolation (message : string) : bool :=
  Js.includes message "unique_violation"
  || Js.includes message "duplicate key"
  || Js.includes message "UNIQUE constraint".

Definition processFile (d : draws) (buffer : bytes)
    (originalName mimeType uploadedBy : string)
    (options : MediaProcessingOptions) (s : server)
    : result MediaUploadResult * server :=
  let sha256Hash := sha256Hex buffer in
  match Storage.getMediaFileByHash sha256Hash uploadedBy s with
  | Some existingFile => (Ok (mkUploadResult existingFile.1 sha256Hash true false), s)
  | None =>
  match processMedia buffer mimeType (generateThumbnail options)
          (thumbnailSize options) with
  | Throw m => (Throw m, s)
  | Ok thumbnailData =>
  let encrypted : result (bytes * option string * option bytes) :=
    if encryptContent options && Js.truthy (encryptionKey options)
       && Js.truthy (vaultPassphrase options)
    then
      let encryptionKey := default EmptyString (encryptionKey options) in
      let vaultPassphrase := default EmptyString (vaultPassphrase options) in
      match Storage.getUser uploadedBy s with
      | Some user =>
          if Js.truthy (User.vaultPassphrase user)
          then
            Ok (CryptoService.encryptBuffer (contentSalt d) (contentIv d)
                  buffer encryptionKey,
                Some (CryptoService.encryptString (keySalt d) (keyIv d)
                        encryptionKey vaultPassphrase),
                option_map
                  (fun t => CryptoService.encryptBuffer (thumbnailSalt d)
                              (thumbnailIv d) t encryptionKey)
                  thumbnailData)
          else Throw "User vault must be set up before encrypting content"
      | None => Throw "User vault must be set up before encrypting content"
      end
    else if encryptContent options && negb (Js.truthy (vaultPassphrase options))
    then Throw "Vault passphrase is required for encrypted content"
    else Ok (buffer, None, thumbnailData) in
  match encrypted with
  | Throw m => (Throw m, s)
  | Ok (processedBuffer, encryptedKey, thumbnailData) =>
  let fileData :=
    MediaFile.mk (uniqueFilename d) originalName mimeType
      (Z.of_nat (length buffer)) sha256Hash processedBuffer thumbnailData
      (encryptContent options) encryptedKey (categoryId options) uploadedBy
      false in
  match Storage.createMediaFile (rowId d) fileData s with
  | (Ok mediaFile, s') =>
      (Ok (mkUploadResult mediaFile.1 sha256Hash false
             (bool_decide (is_Some thumbnailData))), s')
  | (Throw m, s') =>
      if isUniqueViolation m
      then match Storage.getMediaFileByHash sha256Hash uploadedBy s' with
           | Some existingFile =>
               (Ok (mkUploadResult existingFile.1 sha256Hash true false), s')
           | None => (Throw m, s')
           end
      else (Throw m, s')
  end
  end
  end
  end.

(** The body of the [try] block shared by [getMediaContent] and
    [getThumbnail]. *)
Definition unwrapAndDecrypt (mediaFile : MediaFile.t) (buffer : bytes)
    (vaultPassphrase : string) : result bytes :=
  if negb (Js.truthy (MediaFile.encryptionKey mediaFile))
  then Throw "Encrypted content missing encryption key"
  else
    let* unwrappedKey :=
      CryptoService.decryptString
        (default EmptyString (MediaFile.encryptionKey mediaFile))
        vaultPassphrase in
    CryptoService.decryptBuffer buffer unwrappedKey.

Definition getMediaContent (id requestingUserId : string) (decrypt : bool)
    (vaultPassphrase : option string) (s : server) : result (option content) :=
  match Storage.getMediaFile id s with
  | None => Ok None
  | Some mediaFile =>
      if negb (String.eqb (MediaFile.uploadedBy mediaFile) requestingUserId)
      then Throw "Access denied: You do not own this media file"
      else
        let buffer := MediaFile.binaryData mediaFile in
        let* buffer :=
          if MediaFile.isEncrypted mediaFile && decrypt
             && Js.truthy vaultPassphrase
          then catchRethrow
                 (unwrapAndDecrypt mediaFile buffer
                    (default EmptyString vaultPassphrase))
                 "Invalid vault passphrase or corrupted encryption data"
          else if MediaFile.isEncrypted mediaFile && negb decrypt
          then Throw "Content is encrypted and requires decryption"
          else Ok buffer in
        Ok (Some (mkContent buffer (MediaFile.mimeType mediaFile)
                    (MediaFile.originalName mediaFile)))
  end.

Definition getThumbnail (id requestingUserId : string) (decrypt : bool)
    (vaultPassphrase : option string) (s : server) : result (option bytes) :=
  match Storage.getMediaFile id s with
  | None => Ok None
  | Some mediaFile =>
      match MediaFile.thumbnailData mediaFile with
      | None => Ok None
      | Some thumbnailData =>
          if negb (String.eqb (MediaFile.uploadedBy mediaFile) requestingUserId)
          then Throw "Access denied: You do not own this media file"
          else
            let buffer := thumbnailData in
            if MediaFile.isEncrypted mediaFile && decrypt
               && Js.truthy vaultPassphrase
            then
              let* buffer :=
                catchRethrow
                  (unwrapAndDecrypt mediaFile buffer
                     (default EmptyString vaultPassphrase))
                  "Invalid vault passphrase for thumbnail decryption" in
              Ok (Some buffer)
            else if MediaFile.isEncrypted mediaFile && negb decrypt
            then Ok (Some placeholderJpeg)
            else Ok (Some buffer)
      end
  end.

End WithRuntime.
End MediaService.

(** ** HTTP responses *)

Inductive uploadOutcome : Type :=
| Processed (result : MediaService.MediaUploadResult)
| Failed (originalName error : string).

Inductive body : Type :=
| Message (message : string)
| MediaContent (contentType filename : string) (buffer : bytes)
| ThumbnailImage (buffer : bytes)
| AccessGranted (accessToken : string) (expiresAt : Z)
| Success
| UploadResults (results : list uploadOutcome).

Record response : Type := mkResponse {
  status : Z;
  payload : body
}.

(** [res.status(code).json({ message })] *)
Definition json (code : Z) (message : string) : response :=
  mkResponse code (Message message).

(** ** server/routes.ts *)

Module Routes.

(** The body of the [setInterval] callback, which walks a snapshot of the
    entries and deletes the expired ones. *)
Definition sweep (now : Z) (store : gmap string TokenData.t)
    : gmap string TokenData.t :=
  foldr
    (fun entry store =>
       if now >? TokenData.expiresAt entry.2 then delete entry.1 store
       else store)
    store (map_to_list store).

Inductive uuidClass : Type := HexDigit | Dash | VersionDigit | VariantDigit.

Definition uuidPattern : list uuidClass :=
  replicate 8 HexDigit ++ [Dash] ++ replicate 4 HexDigit ++ [Dash]
  ++ [VersionDigit] ++ replicate 3 HexDigit ++ [Dash]
  ++ [VariantDigit] ++ replicate 3 HexDigit ++ [Dash]
  ++ replicate 12 HexDigit.

Definition inClass (c : ascii) (k : uuidClass) : bool :=
  let n := N_of_ascii c in
  match k with
  | HexDigit => bool_decide (is_Some (Buffer.hexValue c))
  | Dash => Ascii.eqb c "-"%char
  | VersionDigit => ((49 <=? n) && (n <=? 53))%N
  | VariantDigit =>
      ((n =? 56) || (n =? 57) || (n =? 97) || (n =? 98) || (n =? 65)
       || (n =? 66))%N
  end.

Fixpoint matchClasses (s : string) (p : list uuidClass) : bool :=
  match s, p with
  | EmptyString, [] => true
  | String c s', k :: p' => inClass c k && matchClasses s' p'
  | _, _ => false
  end.

(** The test of [/^[0-9a-f]{8}-[0-9a-f]{4}-[1-5][0-9a-f]{3}-[89ab][0-9a-f]{3}-[0-9a-f]{12}$/i] *)
Definition isValidUUID (str : string) : bool := matchClasses str uuidPattern.

Fixpoint hasLineTerminator (s : string) : bool :=
  match s with
  | EmptyString => false
  | String c s' =>
      (N_of_ascii c =? 10)%N || (N_of_ascii c =? 13)%N || hasLineTerminator s'
  end.

(** [authHeader.match(/^Bearer vault:(.+)$/)]: the group is what follows
    the prefix, when it is not empty and holds no line terminator. *)
Definition extractVaultToken (authHeader : option string) : option string :=
  if negb (Js.truthy authHeader) then None
  else
    match Js.stripPrefix "Bearer vault:" (default EmptyString authHeader) with
    | Some (String c rest) =>
        if hasLineTerminator (String c rest) then None
        else Some (String c rest)
    | _ => None
    end.

Definition getVaultPassphrase (now : Z) (token requestingUserId : string)
    (store : gmap string TokenData.t)
    : result (option string) * gmap string TokenData.t :=
  match store !! token with
  | None => (Ok None, store)
  | Some tokenData =>
      if now >? TokenData.expiresAt tokenData
      then (Ok None, delete token store)
      else if negb (String.eqb (TokenData.userId tokenData) requestingUserId)
      then (Throw "Vault token does not belong to the requesting user", store)
      else (Ok (Some (TokenData.passphrase tokenData)), store)
  end.

(** The first steps of the three routes that take a vault token: the header
    is parsed, the token resolved, and a missing or falsy passphrase answered
    with 401.  [inl] is an early [return res.status(401)...]. *)
Definition resolveVaultToken (now : Z) (userId : string)
    (authorization : option string) (missing : string) (s : server)
    : result (response + string) * server :=
  match extractVaultToken authorization with
  | None => (Ok (inl (json 401 missing)), s)
  | Some vaultToken =>
      match getVaultPassphrase now vaultToken userId (vaultTokenStore s) with
      | (Throw m, store) => (Throw m, setTokenStore store s)
      | (Ok vaultPassphrase, store) =>
          if negb (Js.truthy vaultPassphrase)
          then (Ok (inl (json 401 "Invalid or expired vault token")),
                setTokenStore store s)
          else (Ok (inr (default EmptyString vaultPassphrase)),
                setTokenStore store s)
      end
  end.

Section WithRuntime.
Context {rt : NodeCrypto} {img : Sharp}.

(** The [catch] block of GET /api/media/:id *)
Definition mediaError (message : string) : response :=
  if Js.includes message "Access denied" then json 403 message
  else if Js.includes message "Vault token does not belong"
  then json 403 message
  else if Js.includes message "decryption" then json 403 message
  else if Js.includes message "invalid input syntax for type uuid"
  then json 404 "Media file not found"
  else json 500 "Failed to serve media file".

(** The [catch] block of GET /api/media/:id/thumbnail *)
Definition thumbnailError (message : string) : response :=
  if Js.includes message "Access denied" then json 403 message
  else if Js.includes message "Vault token does not belong"
  then json 403 message
  else if Js.includes message "decryption" then json 403 message
  else if Js.includes message "invalid input syntax for type uuid"
  then json 404 "Thumbnail not found"
  else json 500 "Failed to serve thumbnail".

(** GET /api/media/:id; [decryptQuery] is [req.query.decrypt]. *)
Definition getMedia (now : Z) (userId id : string)
    (decryptQuery authorization : option string) (s : server)
    : response * server :=
  let decrypt := default "false" decryptQuery in
  if negb (isValidUUID id) then (json 404 "Media file not found", s)
  else
    let resolved :=
      if String.eqb decrypt "true"
      then
        match resolveVaultToken now userId authorization
                "Vault authorization token required for encrypted content" s
        with
        | (Ok (inr vaultPassphrase), s') => (Ok (inr (Some vaultPassphrase)), s')
        | (Ok (inl early), s') => (Ok (inl early), s')
        | (Throw m, s') => (Throw m, s')
        end
      else (Ok (inr None), s) in
    match resolved with
    | (Throw m, s') => (mediaError m, s')
    | (Ok (inl early), s') => (early, s')
    | (Ok (inr vaultPassphrase), s') =>
        match MediaService.getMediaContent id userId
                (String.eqb decrypt "true") vaultPassphrase s' with
        | Throw m => (mediaError m, s')
        | Ok None => (json 404 "Media file not found", s')
        | Ok (Some content) =>
            (mkResponse 200
               (MediaContent (MediaService.contentMimeType content)
                  (MediaService.contentFilename content)
                  (MediaService.buffer content)), s')
        end
    end.

(** GET /api/media/:id/thumbnail *)
Definition getMediaThumbnail (now : Z) (userId id : string)
    (decryptQuery authorization : option string) (s : server)
    : response * server :=
  let decrypt := default "false" decryptQuery in
  if negb (isValidUUID id) then (json 404 "Thumbnail not found", s)
  else
    let resolved :=
      if String.eqb decrypt "true"
      then
        match resolveVaultToken now userId authorization
                "Vault authorization token required for encrypted content" s
        with
        | (Ok (inr vaultPassphrase), s') => (Ok (inr (Some vaultPassphrase)), s')
        | (Ok (inl early), s') => (Ok (inl early), s')
        | (Throw m, s') => (Throw m, s')
        end
      else (Ok (inr None), s) in
    match resolved with
    | (Throw m, s') => (thumbnailError m, s')
    | (Ok (inl early), s') => (early, s')
    | (Ok (inr vaultPassphrase), s') =>
        match MediaService.getThumbnail id userId
                (String.eqb decrypt "true") vaultPassphrase s' with
        | Throw m => (thumbnailError m, s')
        | Ok None => (json 404 "Thumbnail not found", s')
        | Ok (Some thumbnail) => (mkResponse 200 (ThumbnailImage thumbnail), s')
        end
    end.

Record uploadedFile : Type := mkUploadedFile {
  originalname : string;
  mimetype : string;
  fileBuffer : bytes
}.

(** The loop [for (const file of files)] of POST /api/media/upload, each
    file with the values its [processFile] call draws. *)
Fixpoint processFiles (userId : string) (encryptContent : bool)
    (encryptionKey vaultPassphrase categoryId : option string)
    (files : list (uploadedFile * MediaService.draws)) (s : server)
    : list uploadOutcome * server :=
  match files with
  | [] => ([], s)
  | (file, d) :: rest =>
      let options :=
        MediaService.mkOptions true 300 encryptContent encryptionKey
          vaultPassphrase categoryId in
      let step :=
        MediaService.processFile d (fileBuffer file) (originalname file)
          (mimetype file) userId options s in
      let outcome :=
        match step.1 with
        | Ok result => Processed result
        | Throw m => Failed (originalname file) m
        end in
      let later :=
        processFiles userId encryptContent encryptionKey vaultPassphrase
          categoryId rest step.2 in
      (outcome :: later.1, later.2)
  end.

(** The [fileFilter] of the multer upload: a file that is neither an image
    nor a video is skipped, and is not among [req.files]. *)
Definition fileFilter (file : uploadedFile) : bool :=
  String.prefix "image/" (mimetype file)
  || String.prefix "video/" (mimetype file).

(** POST /api/media/upload for individual files ([preserveDirectoryStructure]
    other than ['true']), after the body passed [uploadRequestSchema].
    [files] are the files of the request, each within the size limit, and
    [sessionKey] is the result of [crypto.randomBytes(32)], drawn once for
    the request. *)
Definition uploadMedia (now : Z) (userId : string)
    (authorization : option string) (encryptContent : bool)
    (categoryId : option string) (sessionKey : bytes)
    (files : list (uploadedFile * MediaService.draws)) (s : server)
    : response * server :=
  let files := List.filter (fun entry => fileFilter entry.1) files in
  match files with
  | [] => (json 400 "No files provided", s)
  | _ :: _ =>
      let resolved :=
        if encryptContent
        then
          match resolveVaultToken now userId authorization
                  "Vault authorization token required for encrypted uploads" s
          with
          | (Ok (inr vaultPassphrase), s') =>
              (Ok (inr (Some vaultPassphrase, Some (Buffer.toHex sessionKey))),
               s')
          | (Ok (inl early), s') => (Ok (inl early), s')
          | (Throw m, s') => (Throw m, s')
          end
        else (Ok (inr (None, None)), s) in
      match resolved with
      | (Throw _, s') => (json 500 "Failed to upload media files", s')
      | (Ok (inl early), s') => (early, s')
      | (Ok (inr (vaultPassphrase, encryptionKey)), s') =>
          let done :=
            processFiles userId encryptContent
              (if Js.truthy encryptionKey then encryptionKey else None)
              (if Js.truthy vaultPassphrase then vaultPassphrase else None)
              (if Js.truthy categoryId then categoryId else None) files s' in
          (mkResponse 200 (UploadResults done.1), done.2)
      end
  end.

(** POST /api/vault/authenticate; [accessToken] is the result of
    [cryptoService.generateUUID()]. *)
Definition vaultAuthenticate (now : Z) (accessToken userId : string)
    (passphrase : option string) (s : server) : response * server :=
  if negb (Js.truthy passphrase)
  then (json 400 "Passphrase is required", s)
  else
    let passphrase := default EmptyString passphrase in
    let user := Storage.getUser userId s in
    if negb (Js.truthy (user ≫= User.vaultPassphrase))
    then (json 404 "No vault configured for this user", s)
    else
      let isValid :=
        CryptoService.verifyPassword passphrase
          (default EmptyString (user ≫= User.vaultPassphrase)) in
      if negb isValid then (json 401 "Invalid vault passphrase", s)
      else
        let expiresAt := now + 30 * 60 * 1000 in
        (mkResponse 200 (AccessGranted accessToken expiresAt),
         setTokenStore
           (<[accessToken := TokenData.mk userId passphrase expiresAt]>
              (vaultTokenStore s)) s).

(** POST /api/vault/setup; [salt] is what [hashPassword] draws and [now]
    the clock reading of the upsert.  A [TypeError] of [hashPassword] is
    caught by the route. *)
Definition vaultSetup (now : Z) (salt : bytes) (userId : string)
    (passphrase : Request.submitted) (s : server) : response * server :=
  if negb (Request.truthy passphrase) || Request.lengthBelow8 passphrase
  then (json 400 "Passphrase must be at least 8 characters long", s)
  else
    match passphrase with
    | Request.Text units =>
        let hashedPassphrase :=
          CryptoService.hashPassword salt (Utf16.hashed units) in
        (mkResponse 200 Success,
         Storage.upsertUser now userId hashedPassphrase s)
    | Request.NotText _ _ => (json 500 "Failed to setup vault", s)
    end.

End WithRuntime.
End Routes.

(** ** How many code units a comparison reads

    [a === b] on two strings compares the lengths and then the code units
    from the left, and returns at the first pair that differs;
    [constantTimeCompare] runs its loop to the end.  The functions below
    count the code units each of them reads from [a]. *)

Module Timing.

Fixpoint scanReads (a b : string) : nat :=
  match a, b with
  | String x a', String y b' =>
      if Ascii.eqb x y then S (scanReads a' b') else 1%nat
  | _, _ => 0%nat
  end.

Definition strictEqualsReads (a : string) (b : option string) : nat :=
  match b with
  | Some b' =>
      if negb (String.length a =? String.length b')%nat then 0%nat
      else scanReads a b'
  | None => 0%nat
  end.

(** The number of iterations of the loop of [constantTimeCompare]. *)
Fixpoint compareLoopReads (a b : string) : nat :=
  match a, b with
  | String _ a', String _ b' => S (compareLoopReads a' b')
  | _, _ => 0%nat
  end.

Definition constantTimeCompareReads (a b : string) : nat :=
  if negb (String.length a =? String.length b)%nat then 0%nat
  else compareLoopReads a b.

(** The reads of the comparison that [verifyPassword] ends with. *)
Definition verifyPasswordReads {rt : NodeCrypto}
    (password hashedPassword : string) : nat :=
  let parts := Js.splitColon hashedPassword in
  let saltHex := default EmptyString (parts !! 0%nat) in
  let hashHex := parts !! 1%nat in
  let salt := Buffer.fromHex saltHex in
  let hash := pbkdf2Sync password salt 15000 64 in
  strictEqualsReads (Buffer.toHex hash) hashHex.

End Timing.

(** ** An executable runtime

    A small instance of [NodeCrypto] and [Sharp] on which the model runs:
    a keyed XOR stream with a 16-byte keyed tag stands for AES-256-GCM, a
    salted stretch of the password for PBKDF2, and hexadecimal text for
    base64.  It obeys [NodeCryptoLaws]; it is not a cipher. *)

Module ToyRuntime.

#[global] Instance byte_eq_dec : EqDecision byte := Byte.byte_eq_dec.

Definition xorAscii (a b : ascii) : ascii :=
  match a, b with
  | Ascii a0 a1 a2 a3 a4 a5 a6 a7, Ascii b0 b1 b2 b3 b4 b5 b6 b7 =>
      Ascii (xorb a0 b0) (xorb a1 b1) (xorb a2 b2) (xorb a3 b3)
        (xorb a4 b4) (xorb a5 b5) (xorb a6 b6) (xorb a7 b7)
  end.

Definition xorByte (a b : byte) : byte :=
  byte_of_ascii (xorAscii (ascii_of_byte a) (ascii_of_byte b)).

(** XOR of [data] with the bytes of [key], repeated, from position [i]. *)
Fixpoint xorStream (key : bytes) (i : nat) (data : bytes) : bytes :=
  match data with
  | [] => []
  | x :: rest =>
      xorByte x (nth (i mod length key) key x00)
      :: xorStream key (S i) rest
  end.

Definition stretch (password : string) (salt : bytes) (keylen : nat) : bytes :=
  take keylen
    (xorStream (salt ++ [x5c]) 0
       (list_byte_of_string password ++ replicate keylen x36)).

Definition tagOf (key iv encrypted : bytes) : bytes :=
  take 16 (xorStream key 7 (iv ++ encrypted ++ replicate 16 x00)).

Definition seal (key iv plain : bytes) : bytes * bytes :=
  let encrypted := xorStream key 0 plain in
  (encrypted, tagOf key iv encrypted).

Definition unseal (key iv tag encrypted : bytes) : option bytes :=
  if bool_decide (tag = tagOf key iv encrypted)
  then Some (xorStream key 0 encrypted)
  else None.

Definition crypto : NodeCrypto := {|
  pbkdf2Sync password salt _ keylen := stretch password salt keylen;
  gcmEncrypt := seal;
  gcmDecrypt := unseal;
  utf8Encode := list_byte_of_string;
  utf8Decode := string_of_list_byte;
  base64Encode := Buffer.toHex;
  base64Decode := Buffer.fromHex;
  sha256Hex b := Buffer.toHex (take 32 (xorStream [xa5] 0 (b ++ replicate 32 x00)))
|}.

Definition sharp : Sharp := {|
  imageThumbnail b generate size :=
    if generate then Ok (Some (take 4 b)) else Ok None;
  videoThumbnail b generate size := None;
  placeholderJpeg := [xff; xd8; xff; xd9]
|}.

End ToyRuntime.

(** ** Predicates used in the statements *)

#[global] Instance tokenData_eq_dec : EqDecision TokenData.t.
Proof. solve_decision. Defined.

Section Predicates.
Context {rt : NodeCrypto}.


End Predicates.

(** ** A concrete run, on the executable runtime

    The scenario of the spec: Alice sets up a vault with the passphrase
    [Tr0ub4dor&3], unlocks it, and uploads a 10-byte file with encryption. *)

Module Scenario.

#[local] Existing Instance ToyRuntime.crypto.
#[local] Existing Instance ToyRuntime.sharp.

Definition alice : string := "alice".
Definition bob : string := "bob".
Definition passphrase : string := "Tr0ub4dor&3".
Definition token : string := "0b9d6a52-7c1f-4e0a-9a57-5d0c3f6e2a11".
Definition mediaId : string := "123e4567-e89b-42d3-a456-426614174000".
Definition authorization : option string :=
  Some ("Bearer vault:" +:+ token).

Definition noVault : server :=
  mkServer ∅
    {[ alice := User.mk (Some "alice@example.org") (Some "user") None 100 100 ]}
    ∅.

Definition configured : server :=
  (Routes.vaultSetup 500 (replicate 16 x11) alice
     (Request.Text (Utf16.ofLatin1 passphrase)) noVault).2.

Definition storedHash : string :=
  default EmptyString (Storage.getUser alice configured ≫= User.vaultPassphrase).

(** Unlocked at time 1000: the token expires at 1801000. *)
Definition unlocked : server :=
  (Routes.vaultAuthenticate 1000 token alice (Some passphrase) configured).2.

(** Four times U+1F600, a character of two code units: a passphrase of four
    characters and eight code units. *)
Definition fourFaces : list Utf16.unit :=
  [(xd8, x3d); (xde, x00); (xd8, x3d); (xde, x00);
   (xd8, x3d); (xde, x00); (xd8, x3d); (xde, x00)].

Definition tenBytes : bytes :=
  [x00; x01; x02; x03; x04; x05; x06; x07; x08; x09].

Definition upload : Routes.uploadedFile :=
  Routes.mkUploadedFile "notes.bin" "application/octet-stream" tenBytes.

Definition uploadDraws : MediaService.draws :=
  MediaService.mkDraws (replicate 32 x21) (replicate 16 x22)
    (replicate 32 x23) (replicate 16 x24)
    (replicate 32 x25) (replicate 16 x26)
    "1700000000000_00112233aabbccdd.bin" mediaId.

Definition sessionKey : bytes := replicate 32 x5a.

(** The file is stored through the service, with the options of an
    encrypted upload under her token. *)
Definition stored : server :=
  (MediaService.processFile uploadDraws (Routes.fileBuffer upload)
     (Routes.originalname upload) (Routes.mimetype upload) alice
     (MediaService.mkOptions true 300 true (Some (Buffer.toHex sessionKey))
        (Some passphrase) None)
     unlocked).2.

(** Then she uploads a picture with encryption and a text file without. *)

Definition photoId : string := "223e4567-e89b-42d3-a456-426614174001".
Definition plainId : string := "323e4567-e89b-42d3-a456-426614174002".

Definition photo : Routes.uploadedFile :=
  Routes.mkUploadedFile "photo.png" "image/png"
    [x89; x50; x4e; x47; x0d; x0a; x1a; x0a].

Definition plain : Routes.uploadedFile :=
  Routes.mkUploadedFile "readme.txt" "text/plain" [x68; x65; x6c; x6c; x6f].

Definition photoDraws : MediaService.draws :=
  MediaService.mkDraws (replicate 32 x31) (replicate 16 x32)
    (replicate 32 x33) (replicate 16 x34)
    (replicate 32 x35) (replicate 16 x36)
    "1700000000001_8899aabbccddeeff.png" photoId.

Definition plainDraws : MediaService.draws :=
  MediaService.mkDraws [] [] [] [] [] []
    "1700000000002_0123456789abcdef.txt" plainId.


(** A second picture, and one request that uploads both with encryption. *)





Definition rowOf (id : string) (s : server) : MediaFile.t :=
  default (MediaFile.mk "" "" "" 0 "" [] None false None None "" false)
    (mediaFiles s !! id).

(** The verifier of her passphrase, and stored strings of the same shape
    whose character at position [i] is not a hexadecimal digit. *)

Definition saltHex : string := Buffer.toHex (replicate 16 x11).

Definition verifierHex : string :=
  Buffer.toHex (pbkdf2Sync passphrase (replicate 16 x11) 15000 64).

Definition wrongVerifierAt (i : nat) : string :=
  saltHex +:+ ":" +:+ String.substring 0 i verifierHex
  +:+ String "g" (String.substring (S i) (127 - i) verifierHex).

End Scenario.

(** Alice runs the setup again with another passphrase, unlocks with it at
    time 5000, and the first upload is still wrapped under the first one. *)

Module Rekeyed.

#[local] Existing Instance ToyRuntime.crypto.
#[local] Existing Instance ToyRuntime.sharp.

Definition passphrase : string := "correct horse battery staple".
Definition token : string := "7d4e1f90-2b3c-4a5d-8e6f-0a1b2c3d4e5f".
Definition authorization : option string :=
  Some ("Bearer vault:" +:+ token).

Definition configured : server :=
  (Routes.vaultSetup 4000 (replicate 16 x33) Scenario.alice
     (Request.Text (Utf16.ofLatin1 passphrase)) Scenario.stored).2.

Definition unlocked : server :=
  (Routes.vaultAuthenticate 5000 token Scenario.alice (Some passphrase)
     configured).2.

End Rekeyed.


(** * The rest of the server code

    The functions below are the neighbours of the vault code in the same
    files: the other methods of [CryptoService], the helpers of routes.ts,
    the remaining [MediaService] and [DatabaseStorage] methods that the
    media routes use, and the category tree of storage.ts. *)

(** ** cryptoService.ts: [generateSecurePassword] *)

Module SecurePassword.

Definition charset : string :=
  "ABCDEFGHIJKLMNOPQRSTUVWXYZabcdefghijklmnopqrstuvwxyz0123456789!@#$%^&*".

(** [password += s[i]]: the character at [i], or the text of [undefined]
    when [i] is outside the string. *)
Definition charAt (s : string) (i : nat) : string :=
  match String.get i s with
  | Some c => String c EmptyString
  | None => "undefined"
  end.

(** The loop [for (let i = 0; i < length; i++)]; [randomInt i] is the result
    of [crypto.randomInt(0, charset.length)] in iteration [i]. *)
Fixpoint loop (randomInt : nat -> nat) (i remaining : nat) (password : string)
    : string :=
  match remaining with
  | O => password
  | S rest =>
      loop randomInt (S i) rest (password +:+ charAt charset (randomInt i))
  end.

Definition generateSecurePassword (length : nat) (randomInt : nat -> nat)
    : string :=
  loop randomInt 0 length EmptyString.

End SecurePassword.

(** ** Predicates on strings used in the statements *)

Fixpoint hasColon (s : string) : bool :=
  match s with
  | EmptyString => false
  | String c rest => Ascii.eqb c ":"%char || hasColon rest
  end.


(** Every character of [s] occurs in [allowed]. *)
Definition charsIn (allowed s : string) : Prop :=
  forall c, In c (list_ascii_of_string s) -> In c (list_ascii_of_string allowed).

(** ** Node's [path] module (POSIX), on the code units of a path *)

Module Path.

Definition isSlash (c : ascii) : bool := Ascii.eqb c "/"%char.
Definition isDot (c : ascii) : bool := Ascii.eqb c "."%char.

Fixpoint takeWhile (p : ascii -> bool) (l : list ascii) : list ascii :=
  match l with
  | [] => []
  | c :: rest => if p c then c :: takeWhile p rest else []
  end.

Fixpoint dropWhile (p : ascii -> bool) (l : list ascii) : list ascii :=
  match l with
  | [] => []
  | c :: rest => if p c then dropWhile p rest else l
  end.

(** [path.basename(p)]: trailing slashes are ignored, and the result is
    what follows the last slash that remains. *)
Definition basename (p : list ascii) : list ascii :=
  rev (takeWhile (fun c => negb (isSlash c)) (dropWhile isSlash (rev p))).

(** [path.extname(p)]: the last segment from its last dot; empty when the
    segment has no dot, when its last dot is its first character, and for
    the segment [..]. *)
Definition extname (p : list ascii) : list ascii :=
  let segment := basename p in
  let afterDot := takeWhile (fun c => negb (isDot c)) (rev segment) in
  if (length afterDot =? length segment)%nat then []
  else
    let startDot := (length segment - length afterDot - 1)%nat in
    if (startDot =? 0)%nat then []
    else if bool_decide (segment = ["."%char; "."%char]) then []
    else drop startDot segment.

(** [path.basename(p, ext)]: the suffix [ext] is cut from the last segment,
    unless nothing would be left of it. *)
Definition basenameExt (p ext : list ascii) : list ascii :=
  if bool_decide (ext = []) || (length p <? length ext)%nat then basename p
  else if bool_decide (ext = p) then []
  else
    let segment := basename p in
    let cut := (length segment - length ext)%nat in
    if bool_decide (drop cut segment = ext) && negb (cut =? 0)%nat
    then take cut segment
    else segment.

End Path.

(** ** routes.ts: [sanitizeFilename] *)

Module Filenames.

(** The character class of the first [replace]: backslash, slash, colon,
    star, question mark, double quote, angle brackets and bar. *)
Definition dangerous (c : ascii) : bool :=
  let n := N_of_ascii c in
  ((n =? 92) || (n =? 47) || (n =? 58) || (n =? 42) || (n =? 63) || (n =? 34)
   || (n =? 60) || (n =? 62) || (n =? 124))%N.

(** The first [replace]: every character of the class becomes [_]. *)
Definition replaceDangerous (filename : list ascii) : list ascii :=
  map (fun c => if dangerous c then "_"%char else c) filename.

(** [filename.replace(/^\.+/, '')] *)
Definition stripLeadingDots (filename : list ascii) : list ascii :=
  Path.dropWhile Path.isDot filename.

(** The branch [if (filename.length > 100)]. *)
Definition truncate (filename : list ascii) : list ascii :=
  if (100 <? length filename)%nat
  then
    let ext := Path.extname filename in
    let name := Path.basenameExt filename ext in
    take (100 - length ext) name ++ ext
  else filename.

(** Everything before the truncation. *)
Definition clean (originalname : list ascii) : list ascii :=
  let filename := Path.basename originalname in
  let filename := replaceDangerous filename in
  let filename := stripLeadingDots filename in
  match filename with
  | [] => list_ascii_of_string "unnamed_file"
  | _ :: _ => filename
  end.

Definition sanitizeFilename (originalname : string) : string :=
  string_of_list_ascii (truncate (clean (list_ascii_of_string originalname))).

End Filenames.

(** ** Deleting and checking media: storage.ts, mediaService.ts, routes.ts *)

Module MediaAdmin.

Definition markDeleted (f : MediaFile.t) : MediaFile.t :=
  MediaFile.mk (MediaFile.filename f) (MediaFile.originalName f)
    (MediaFile.mimeType f) (MediaFile.fileSize f) (MediaFile.sha256Hash f)
    (MediaFile.binaryData f) (MediaFile.thumbnailData f)
    (MediaFile.isEncrypted f) (MediaFile.encryptionKey f)
    (MediaFile.categoryId f) (MediaFile.uploadedBy f) true.

(** [storage.deleteMediaFile]: [update ... set({ isDeleted: true })
    .where(id).returning()], and whether a row came back. *)
Definition deleteMediaFile (id : string) (s : server) : bool * server :=
  match mediaFiles s !! id with
  | Some f => (true, setMediaFiles (<[id := markDeleted f]> (mediaFiles s)) s)
  | None => (false, s)
  end.

(** The answer of DELETE /api/media/:id: an error response or
    [{ success: deleted }]. *)
Inductive deleteOutcome : Type :=
| Refused (answer : response)
| Deleted (success : bool).

(** DELETE /api/media/:id *)
Definition deleteMedia (userId id : string) (s : server)
    : deleteOutcome * server :=
  if negb (Routes.isValidUUID id)
  then (Refused (json 404 "Media file not found"), s)
  else
    match Storage.getMediaFile id s with
    | None => (Refused (json 404 "Media file not found"), s)
    | Some mediaFile =>
        let user := Storage.getUser userId s in
        if negb (String.eqb (MediaFile.uploadedBy mediaFile) userId)
           && negb (bool_decide (user ≫= User.role = Some "admin"))
        then (Refused (json 403 "Unauthorized to delete this file"), s)
        else
          let deleted := deleteMediaFile id s in
          (Deleted deleted.1, deleted.2)
    end.

(** [mediaService.validateHashIntegrity] *)
Definition validateHashIntegrity {rt : NodeCrypto} (fileId : string)
    (s : server) : bool :=
  match Storage.getMediaFile fileId s with
  | None => false
  | Some mediaFile =>
      let currentHash := sha256Hex (MediaFile.binaryData mediaFile) in
      String.eqb currentHash (MediaFile.sha256Hash mediaFile)
  end.

End MediaAdmin.

(** The row that [processFile] inserts for a file that is not a duplicate,
    given the thumbnail that the media processing produced: encrypted under
    the content key when encryption, key and passphrase are all given, and
    as it came otherwise. *)
Definition storedRow {rt : NodeCrypto} (d : MediaService.draws)
    (buffer : bytes) (originalName mimeType uploadedBy : string)
    (options : MediaService.MediaProcessingOptions)
    (thumbnailData : option bytes) : MediaFile.t :=
  let wrap :=
    MediaService.encryptContent options
    && Js.truthy (MediaService.encryptionKey options)
    && Js.truthy (MediaService.vaultPassphrase options) in
  let key := default EmptyString (MediaService.encryptionKey options) in
  let passphrase := default EmptyString (MediaService.vaultPassphrase options) in
  MediaFile.mk (MediaService.uniqueFilename d) originalName mimeType
    (Z.of_nat (length buffer)) (sha256Hex buffer)
    (if wrap
     then CryptoService.encryptBuffer (MediaService.contentSalt d)
            (MediaService.contentIv d) buffer key
     else buffer)
    (if wrap
     then option_map
            (fun t => CryptoService.encryptBuffer (MediaService.thumbnailSalt d)
                        (MediaService.thumbnailIv d) t key)
            thumbnailData
     else thumbnailData)
    (MediaService.encryptContent options)
    (if wrap
     then Some (CryptoService.encryptString (MediaService.keySalt d)
                  (MediaService.keyIv d) key passphrase)
     else None)
    (MediaService.categoryId options) uploadedBy false.

(** ** More concrete runs, on the executable runtime *)

Module Uploads.

#[local] Existing Instance ToyRuntime.crypto.
#[local] Existing Instance ToyRuntime.sharp.

Definition resultOf (r : result MediaService.MediaUploadResult)
    : MediaService.MediaUploadResult :=
  match r with
  | Ok x => x
  | Throw _ => MediaService.mkUploadResult "" "" false false
  end.

Definition encrypted : MediaService.MediaProcessingOptions :=
  MediaService.mkOptions true 300 true
    (Some (Buffer.toHex Scenario.sessionKey)) (Some Scenario.passphrase) None.

Definition asItCame : MediaService.MediaProcessingOptions :=
  MediaService.mkOptions true 300 false None None None.


(** The 10-byte file of the scenario, stored encrypted. *)
Definition notes : result MediaService.MediaUploadResult * server :=
  MediaService.processFile Scenario.uploadDraws Scenario.tenBytes "notes.bin"
    "application/octet-stream" Scenario.alice encrypted Scenario.unlocked.

(** A picture, stored encrypted after it. *)
Definition picture : result MediaService.MediaUploadResult * server :=
  MediaService.processFile Scenario.photoDraws
    (Routes.fileBuffer Scenario.photo) "photo.png" "image/png" Scenario.alice
    encrypted notes.2.

(** The same 10 bytes once more, under another name. *)
Definition again : result MediaService.MediaUploadResult * server :=
  MediaService.processFile Scenario.photoDraws Scenario.tenBytes "copy.bin"
    "application/octet-stream" Scenario.alice asItCame notes.2.

(** A text file stored as it came, and one for which encryption was asked
    without a content key. *)
Definition readme : result MediaService.MediaUploadResult * server :=
  MediaService.processFile Scenario.plainDraws
    (Routes.fileBuffer Scenario.plain) "readme.txt" "text/plain"
    Scenario.alice asItCame notes.2.


(** Alice changes her passphrase after the picture was stored, and unlocks
    with the new one at time 5000. *)
Definition rekeyed : server :=
  (Routes.vaultAuthenticate 5000 Rekeyed.token Scenario.alice
     (Some Rekeyed.passphrase)
     (Routes.vaultSetup 4000 (replicate 16 x33) Scenario.alice
        (Request.Text (Utf16.ofLatin1 Rekeyed.passphrase)) picture.2).2).2.

End Uploads.

(** ** storage.ts: the category tree *)

From Stdlib Require Import DecimalString.

(** [`${n}`] for a count. *)
Definition decimal (n : nat) : string :=
  NilZero.string_of_uint (Nat.to_uint n).

(** *** The column types of the database

    The ids of [categories] are columns of type [uuid]: PostgreSQL reads
    the text of a parameter into 16 bytes, compares these, and returns them
    in one spelling.  The code compares the same ids as JavaScript strings
    as well, so both views are kept: ids are strings, the text that the
    driver sends, and every query goes through [Uuid.canon]. *)

(** A text parameter, as the UTF-8 text that the driver sends: a zero byte
    is refused when the parameter is read, and a [varchar(n)] column counts
    characters when the row is written. *)
Module Varchar.

Definition hasZero (value : string) : bool :=
  existsb (fun c => (N_of_ascii c =? 0)%N) (list_ascii_of_string value).

Definition zeroError : string :=
  "invalid byte sequence for encoding " +:+ doubleQuote +:+ "UTF8"
  +:+ doubleQuote +:+ ": 0x00".

(** A byte that continues a character. *)
Definition continues (c : ascii) : bool :=
  (128 <=? N_of_ascii c)%N && (N_of_ascii c <? 192)%N.

(** The first [limit] characters of a text, and what follows them. *)
Fixpoint clip (limit : nat) (text : list ascii) : list ascii * list ascii :=
  match text with
  | [] => ([], [])
  | c :: rest =>
      if continues c
      then let (kept, excess) := clip limit rest in (c :: kept, excess)
      else
        match limit with
        | O => ([], text)
        | S limit' =>
            let (kept, excess) := clip limit' rest in (c :: kept, excess)
        end
  end.

Definition lengthError (limit : nat) : string :=
  "value too long for type character varying(" +:+ decimal limit +:+ ")".

(** What a [varchar(limit)] column stores of a value: characters beyond
    the limit are dropped when all of them are spaces, and the value is
    refused otherwise. *)
Definition fit (limit : nat) (value : string) : result string :=
  let (kept, excess) := clip limit (list_ascii_of_string value) in
  if forallb (Ascii.eqb " "%char) excess
  then Ok (string_of_list_ascii kept)
  else Throw (lengthError limit).

End Varchar.

Module Uuid.

(** [string_to_uuid]: 16 bytes of two hexadecimal digits each, in either
    case, with a hyphen allowed after every second byte but the last. *)
Fixpoint read (n i : nat) (src : list ascii) : option (bytes * list ascii) :=
  match n with
  | O => Some ([], src)
  | S n' =>
      match src with
      | hi :: lo :: rest =>
          match Buffer.hexValue hi, Buffer.hexValue lo with
          | Some h, Some l =>
              match Byte.of_N (16 * h + l) with
              | Some x =>
                  let rest :=
                    match rest with
                    | c :: rest' =>
                        if Ascii.eqb c "-"%char && Nat.odd i && (i <? 15)%nat
                        then rest' else rest
                    | [] => rest
                    end in
                  match read n' (S i) rest with
                  | Some (data, rest) => Some (x :: data, rest)
                  | None => None
                  end
              | None => None
              end
          | _, _ => None
          end
      | _ => None
      end
  end.

(** [uuid_in]: braces are allowed around the whole, and nothing may
    follow. *)
Definition parse (source : string) : option bytes :=
  let src := list_ascii_of_string source in
  let braces :=
    match src with
    | c :: _ => Ascii.eqb c "{"%char
    | [] => false
    end in
  match read 16 0 (if braces then drop 1 src else src) with
  | Some (data, rest) =>
      if bool_decide (rest = if braces then ["}"%char] else [])
      then Some data else None
  | None => None
  end.

(** [uuid_out]: lower case, in groups of 8, 4, 4, 4 and 12 digits. *)
Fixpoint write (i : nat) (data : bytes) : list ascii :=
  match data with
  | [] => []
  | x :: rest =>
      let n := Byte.to_N x in
      Buffer.hexDigit (n / 16) :: Buffer.hexDigit (n mod 16)
      :: (if (i =? 3)%nat || (i =? 5)%nat || (i =? 7)%nat || (i =? 9)%nat
          then "-"%char :: write (S i) rest
          else write (S i) rest)
  end.

Definition text (data : bytes) : string := string_of_list_ascii (write 0 data).

(** The spelling in which the database returns the value that it reads
    from [source]; [None] when it refuses [source]. *)
Definition canon (source : string) : option string := text <$> parse source.

Definition syntaxError (source : string) : string :=
  "invalid input syntax for type uuid: " +:+ doubleQuote +:+ source
  +:+ doubleQuote.

(** The error for a parameter that is not read: a zero byte is refused
    when the text arrives, anything else by [uuid_in]. *)
Definition refusal (source : string) : string :=
  if Varchar.hasZero source then Varchar.zeroError else syntaxError source.

End Uuid.

(** A row of [categories], under its id: the columns that the storage
    methods read, compare or constrain.  The other columns (description,
    icon, isVault, sortOrder, location, tags, the timestamps, ...) are left
    out with the limits of their types; no method below looks at them.  A
    stored [parentId] is in the spelling of [Uuid.text]. *)
Module Category.
Record t : Type := mk {
  name : string;
  slug : string;
  parentId : option string
}.
End Category.

(** [Partial<Category>]: an absent field leaves its column alone; [parentId]
    can also be present and [null]. *)
Module CategoryUpdate.
Record t : Type := mk {
  id : option string;
  name : option string;
  slug : option string;
  parentId : option (option string)
}.
End CategoryUpdate.

Module Categories.

(** The table, by the id of each row in the spelling of [Uuid.text]. *)
Definition table : Type := gmap string Category.t.

(** A value as a condition: the id when it is truthy. *)
Definition truthyId (x : option string) : option string :=
  if Js.truthy x then x else None.

(** [db.select().from(categories).where(eq(categories.id, id))]: the first
    row, if any. *)
Definition selectById (categories : table) (id : string)
    : result (option Category.t) :=
  match Uuid.canon id with
  | Some key => Ok (categories !! key)
  | None => Throw (Uuid.refusal id)
  end.

Definition cycleMessage : string :=
  "Circular reference detected: this parent assignment would create a cycle".

Definition descendantMessage : string :=
  "Circular reference detected: the proposed parent is a descendant of this category".

(** The loop [while (currentId)] of [checkForCycles], from the state
    [visited], [currentId]; [None] when [fuel] iterations have not ended
    it.  [visited.has] and [===] compare JavaScript strings. *)
Fixpoint walk (fuel : nat) (categories : table) (categoryId : string)
    (visited : gset string) (currentId : option string)
    : option (result unit) :=
  match truthyId currentId with
  | None => Some (Ok tt)
  | Some current =>
      match fuel with
      | O => None
      | S fuel' =>
          if bool_decide (current ∈ visited)
          then Some (Throw cycleMessage)
          else if String.eqb current categoryId
          then Some (Throw descendantMessage)
          else
            match selectById categories current with
            | Throw message => Some (Throw message)
            | Ok parent =>
                walk fuel' categories categoryId ({[current]} ∪ visited)
                  (parent ≫= Category.parentId)
            end
      end
  end.

(** [checkForCycles(categoryId, newParentId)], run for two iterations more
    than the table has rows; [None] would mean that the loop is still
    running then. *)
Definition checkForCycles (categories : table)
    (categoryId newParentId : string) : option (result unit) :=
  walk (S (S (size categories))) categories categoryId ∅ (Some newParentId).

(** [validateCategoryData(categoryData, categoryId)]; of [categoryData] it
    reads [parentId] only. *)
Definition validateCategoryData (categories : table)
    (parentId categoryId : option string) : option (result unit) :=
  match truthyId parentId with
  | None => Some (Ok tt)
  | Some parent =>
      if bool_decide (categoryId = Some parent)
      then Some (Throw "A category cannot be its own parent")
      else
        match selectById categories parent with
        | Throw message => Some (Throw message)
        | Ok None =>
            Some (Throw ("Parent category with id " +:+ doubleQuote +:+ parent
                         +:+ doubleQuote +:+ " does not exist"))
        | Ok (Some _) =>
            match truthyId categoryId with
            | Some category => checkForCycles categories category parent
            | None => Some (Ok tt)
            end
        end
  end.

(** The constraint [unique] on the column [slug]. *)
Definition slugTaken (categories : table) (slug : string) : bool :=
  existsb (fun row => String.eqb (Category.slug row.2) slug)
    (map_to_list categories).

(** A [uuid] parameter that may be [null]: the spelling that is stored. *)
Definition bindUuid (value : option string) : result (option string) :=
  match value with
  | None => Ok None
  | Some source =>
      match Uuid.canon source with
      | Some stored => Ok (Some stored)
      | None => Throw (Uuid.refusal source)
      end
  end.

(** A text parameter that may be absent. *)
Definition bindText (value : option string) : result unit :=
  match value with
  | Some text => if Varchar.hasZero text then Throw Varchar.zeroError else Ok tt
  | None => Ok tt
  end.

(** [db.insert(categories).values(category).returning()]: the parameters
    are read in the order of the columns, then the row is written, then
    the primary key and the unique index are checked.  [newId] is the id
    that [gen_random_uuid()] draws. *)
Definition insertCategory (newId : string) (category : Category.t)
    (categories : table) : result (string * Category.t) * table :=
  let written :=
    let* _ := bindText (Some (Category.name category)) in
    let* _ := bindText (Some (Category.slug category)) in
    let* parent := bindUuid (Category.parentId category) in
    let* name := Varchar.fit 255 (Category.name category) in
    let* slug := Varchar.fit 255 (Category.slug category) in
    Ok (Category.mk name slug parent)
  in
  match written with
  | Throw message => (Throw message, categories)
  | Ok row =>
      if bool_decide (is_Some (categories !! newId))
         || slugTaken categories (Category.slug row)
      then (Throw (uniqueViolation
                     (if bool_decide (is_Some (categories !! newId))
                      then "categories_pkey" else "categories_slug_unique")),
            categories)
      else (Ok (newId, row), <[newId := row]> categories)
  end.

(** [createCategory(category)] *)
Definition createCategory (newId : string) (category : Category.t)
    (categories : table) : option (result (string * Category.t) * table) :=
  match validateCategoryData categories (Category.parentId category) None with
  | None => None
  | Some (Throw message) => Some (Throw message, categories)
  | Some (Ok _) => Some (insertCategory newId category categories)
  end.

Definition fitSet (limit : nat) (value : option string)
    : result (option string) :=
  match value with
  | Some text => let* stored := Varchar.fit limit text in Ok (Some stored)
  | None => Ok None
  end.

(** [db.update(categories).set({ ...updates, updatedAt }).where(eq(
    categories.id, id)).returning()]: the parameters of [set] are read in
    the order of the columns, then the one of [where], and the new texts
    are fitted to their columns; a row that matches is written with the
    new values, and the primary key and the unique index are checked for
    the columns that were set. *)
Definition updateRow (id : string) (updates : CategoryUpdate.t)
    (categories : table) : result (option (string * Category.t)) * table :=
  let bound :=
    let* newId := bindUuid (CategoryUpdate.id updates) in
    let* _ := bindText (CategoryUpdate.name updates) in
    let* _ := bindText (CategoryUpdate.slug updates) in
    let* parent :=
      match CategoryUpdate.parentId updates with
      | Some value => let* stored := bindUuid value in Ok (Some stored)
      | None => Ok None
      end in
    let* key :=
      match Uuid.canon id with
      | Some key => Ok key
      | None => Throw (Uuid.refusal id)
      end in
    let* name := fitSet 255 (CategoryUpdate.name updates) in
    let* slug := fitSet 255 (CategoryUpdate.slug updates) in
    Ok (newId, name, slug, parent, key) in
  match bound with
  | Throw message => (Throw message, categories)
  | Ok (newId, name, slug, parent, key) =>
      match categories !! key with
      | None => (Ok None, categories)
      | Some row =>
          let newRow :=
            Category.mk (default (Category.name row) name)
              (default (Category.slug row) slug)
              (default (Category.parentId row) parent) in
          let newKey := default key newId in
          let others := delete key categories in
          if bool_decide (is_Some (others !! newKey))
             || match slug with
                | Some slug => slugTaken others slug
                | None => false
                end
          then (Throw (uniqueViolation
                         (if bool_decide (is_Some (others !! newKey))
                          then "categories_pkey"
                          else "categories_slug_unique")),
                categories)
          else (Ok (Some (newKey, newRow)), <[newKey := newRow]> others)
      end
  end.

(** [updateCategory(id, updates)]: the row that came back from the update,
    or [undefined] when there is no row with this id. *)
Definition updateCategory (id : string) (updates : CategoryUpdate.t)
    (categories : table)
    : option (result (option (string * Category.t)) * table) :=
  match validateCategoryData categories
          (mjoin (CategoryUpdate.parentId updates)) (Some id) with
  | None => None
  | Some (Throw message) => Some (Throw message, categories)
  | Some (Ok _) => Some (updateRow id updates categories)
  end.

(** The two selects of [deleteCategory], for the value [key] of its id.
    The rows of media files hold [categoryId] as it was given, so it is
    read here as the database reads it. *)
Definition childrenOf (key : string) (categories : table)
    : list (string * Category.t) :=
  List.filter (fun row => bool_decide (Category.parentId row.2 = Some key))
    (map_to_list categories).

Definition liveMediaIn (key : string) (media : gmap string MediaFile.t)
    : list (string * MediaFile.t) :=
  List.filter
    (fun row =>
       bool_decide (MediaFile.categoryId row.2 ≫= Uuid.canon = Some key)
       && negb (MediaFile.isDeleted row.2))
    (map_to_list media).

(** [deleteCategory(id)] *)
Definition deleteCategory (id : string) (media : gmap string MediaFile.t)
    (categories : table) : result bool * table :=
  match Uuid.canon id with
  | None => (Throw (Uuid.refusal id), categories)
  | Some key =>
      let children := childrenOf key categories in
      if (0 <? length children)%nat
      then (Throw ("Cannot delete category: it has "
                   +:+ decimal (length children)
                   +:+ " child categories. Please move or delete child categories first."),
            categories)
      else
        let mediaCount := length (liveMediaIn key media) in
        if (0 <? mediaCount)%nat
        then (Throw ("Cannot delete category: it contains "
                     +:+ decimal mediaCount
                     +:+ " media files. Please move or delete the files first."),
              categories)
        else (Ok (bool_decide (is_Some (categories !! key))),
              delete key categories)
  end.

(** *** The shape of the table *)

(** The parent that the row of [key] names, as [checkForCycles] and
    [getCategoryTree] read it. *)
Definition parentOf (categories : table) (key : string) : option string :=
  truthyId (categories !! key ≫= Category.parentId).

Definition link (categories : table) (child parent : string) : Prop :=
  parentOf categories child = Some parent.

(** Following the parent links from [id] comes to an end. *)
Inductive grounded (categories : table) (id : string) : Prop :=
| grounded_root :
    parentOf categories id = None -> grounded categories id
| grounded_child parent :
    parentOf categories id = Some parent ->
    grounded categories parent -> grounded categories id.

(** No chain of parent links runs forever: the table holds no cycle. *)
Definition acyclic (categories : table) : Prop :=
  forall id, grounded categories id.

(** Every parent that a row names is a row. *)
Definition closed (categories : table) : Prop :=
  map_Forall
    (fun _ row =>
       match truthyId (Category.parentId row) with
       | Some parent => is_Some (categories !! parent)
       | None => True
       end)
    categories.

(** The ids in the table are in the spelling in which the database
    returns them. *)
Definition canonical (id : string) : Prop := Uuid.canon id = Some id.

Definition canonicalIds (categories : table) : Prop :=
  map_Forall
    (fun key row =>
       canonical key
       /\ forall parent, Category.parentId row = Some parent -> canonical parent)
    categories.

(** The rows whose parent is not in [visited]: what the loop of
    [checkForCycles] can still go through. *)
Definition pending (visited : gset string) (categories : table) : table :=
  filter
    (fun entry : string * Category.t =>
       Is_true
         match Category.parentId entry.2 with
         | Some parent => negb (bool_decide (parent ∈ visited))
         | None => false
         end)
    categories.

(** Checks of the three by computation. *)
Fixpoint groundedWithin (fuel : nat) (categories : table) (id : string)
    : bool :=
  match parentOf categories id, fuel with
  | None, _ => true
  | Some parent, S fuel' => groundedWithin fuel' categories parent
  | Some _, O => false
  end.

Definition acyclicWithin (categories : table) : bool :=
  forallb (fun row => groundedWithin (size categories) categories row.1)
    (map_to_list categories).

Definition closedCheck (categories : table) : bool :=
  forallb
    (fun row : string * Category.t =>
       match truthyId (Category.parentId row.2) with
       | Some parent => bool_decide (is_Some (categories !! parent))
       | None => true
       end)
    (map_to_list categories).

Definition canonicalCheck (categories : table) : bool :=
  forallb
    (fun row : string * Category.t =>
       bool_decide (Uuid.canon row.1 = Some row.1)
       && match Category.parentId row.2 with
          | Some parent => bool_decide (Uuid.canon parent = Some parent)
          | None => true
          end)
    (map_to_list categories).

End Categories.

(** Three shelves, one inside the other, and a picture on the innermost. *)
Module Shelves.

Definition travel : string := "6f1c2a9e-0b5d-4c3a-8e21-1a2b3c4d5e01".
Definition germany : string := "6f1c2a9e-0b5d-4c3a-8e21-1a2b3c4d5e02".
Definition berlin : string := "6f1c2a9e-0b5d-4c3a-8e21-1a2b3c4d5e03".
Definition family : string := "6f1c2a9e-0b5d-4c3a-8e21-1a2b3c4d5e04".

(** Other spellings of the id of Berlin. *)
Definition berlinUpper : string := "6F1C2A9E-0B5D-4C3A-8E21-1A2B3C4D5E03".
Definition berlinBraces : string := "{6f1c2a9e0b5d4c3a8e211a2b3c4d5e03}".

Definition shelves : Categories.table :=
  {[ travel := Category.mk "Travel" "travel" None;
     germany := Category.mk "Germany" "travel-germany" (Some travel);
     berlin := Category.mk "Berlin" "travel-germany-berlin" (Some germany) ]}.

(** A table that already holds a cycle, as no sequence of the operations
    below on ids in one spelling would have left it. *)
Definition knotted : Categories.table :=
  <[ travel := Category.mk "Travel" "travel" (Some berlin) ]> shelves.

Definition berlinMoved : Category.t :=
  Category.mk "Berlin" "travel-germany-berlin" (Some travel).

Definition berlinKnotted : Category.t :=
  Category.mk "Berlin" "travel-germany-berlin" (Some berlin).

Definition familyRow : Category.t :=
  Category.mk "Family" "travel-family" (Some travel).

Definition moveTo (parent : option string) : CategoryUpdate.t :=
  CategoryUpdate.mk None None None (Some parent).

Definition media (s : server) : gmap string MediaFile.t :=
  <[ Scenario.mediaId :=
       MediaFile.mk "f.png" "f.png" "image/png" 10
         "00" [] None false None (Some berlin) Scenario.alice false ]>
    (mediaFiles s).

End Shelves.
(** * Properties *)

(** Closes a goal about concrete data by running the definitions. *)
Ltac evaluate :=
  vm_compute; first [reflexivity | discriminate | lia | congruence].

(** ** The string helpers on small inputs *)

Example includes_decryption :
  Js.includes "Invalid vault passphrase for thumbnail decryption" "decryption"
    = true
  /\ Js.includes "Invalid vault passphrase or corrupted encryption data"
       "decryption" = false
  /\ Js.includes "Content is encrypted and requires decryption" "decryption"
       = true.
Proof. repeat split; reflexivity. Qed.

Example splitColon_cases :
  Js.splitColon "ab:cd" = ["ab"; "cd"]
  /\ Js.splitColon "abcd" = ["abcd"]
  /\ Js.splitColon ":" = [""; ""]
  /\ Js.splitColon "a:b:c" = ["a"; "b"; "c"].
Proof. repeat split; reflexivity. Qed.

Example hex_cases :
  Buffer.toHex [x00; x0f; xa5; xff] = "000fa5ff"
  /\ Buffer.fromHex "000FA5ff" = [x00; x0f; xa5; xff]
  /\ Buffer.fromHex "0a1" = [x0a]
  /\ Buffer.fromHex "0ag1ff" = [x0a].
Proof. repeat split; reflexivity. Qed.

(** U+00E9, U+20AC, U+1F600 as a surrogate pair, and surrogates without a
    partner. *)
Example utf8_cases :
  Utf16.hashed (Utf16.ofLatin1 "Tr0ub4dor&3") = "Tr0ub4dor&3"
  /\ map N_of_ascii (Utf16.utf8 [(x00, xe9)]) = [195; 169]%N
  /\ map N_of_ascii (Utf16.utf8 [(x20, xac)]) = [226; 130; 172]%N
  /\ map N_of_ascii (Utf16.utf8 [(xd8, x3d); (xde, x00)])
     = [240; 159; 152; 128]%N
  /\ map N_of_ascii (Utf16.utf8 [(xd8, x3d); (x00, x61)])
     = [239; 191; 189; 97]%N
  /\ map N_of_ascii (Utf16.utf8 [(xde, x00); (xd8, x3d)])
     = [239; 191; 189; 239; 191; 189]%N
  /\ length Scenario.fourFaces = 8%nat
  /\ String.length (Utf16.hashed Scenario.fourFaces) = 16%nat.
Proof. repeat split; vm_compute; reflexivity. Qed.

Example isValidUUID_cases :
  Routes.isValidUUID "123e4567-e89b-42d3-a456-426614174000" = true
  /\ Routes.isValidUUID "123E4567-E89B-42D3-A456-426614174000" = true
  /\ Routes.isValidUUID "123e4567-e89b-62d3-a456-426614174000" = false
  /\ Routes.isValidUUID "123e4567-e89b-42d3-c456-426614174000" = false
  /\ Routes.isValidUUID "123e4567-e89b-42d3-a456-42661417400" = false.
Proof. repeat split; reflexivity. Qed.

Example extractVaultToken_cases :
  Routes.extractVaultToken (Some "Bearer vault:abc") = Some "abc"
  /\ Routes.extractVaultToken (Some "Bearer vault:") = None
  /\ Routes.extractVaultToken (Some "Bearer abc") = None
  /\ Routes.extractVaultToken (Some "bearer vault:abc") = None
  /\ Routes.extractVaultToken None = None.
Proof. repeat split; reflexivity. Qed.

(** ** The hexadecimal codec *)

Lemma hex_byte (x : byte) :
  Buffer.hexValue (Buffer.hexDigit (Byte.to_N x / 16))
    = Some (Byte.to_N x / 16)%N
  /\ Buffer.hexValue (Buffer.hexDigit (Byte.to_N x mod 16))
    = Some (Byte.to_N x mod 16)%N
  /\ Byte.of_N (16 * (Byte.to_N x / 16) + Byte.to_N x mod 16) = Some x.
Proof. destruct x; vm_compute; auto. Qed.

Lemma fromHex_toHex (b : bytes) : Buffer.fromHex (Buffer.toHex b) = b.
Proof.
  induction b as [|x b IH]; [reflexivity|].
  destruct (hex_byte x) as (Hhi & Hlo & Hx).
  cbn [Buffer.toHex Buffer.fromHex].
  rewrite Hhi, Hlo, Hx, IH. reflexivity.
Qed.

Lemma toHex_length (b : bytes) :
  String.length (Buffer.toHex b) = (2 * length b)%nat.
Proof. induction b as [|x b IH]; cbn [Buffer.toHex String.length length]; lia. Qed.


(** ** The executable runtime obeys the laws *)

Lemma xorAscii_involutive (a b : ascii) :
  ToyRuntime.xorAscii (ToyRuntime.xorAscii a b) b = a.
Proof.
  destruct a, b; cbn.
  repeat match goal with
         | |- context [xorb (xorb ?x ?y) ?y] =>
             replace (xorb (xorb x y) y) with x by (destruct x, y; reflexivity)
         end.
  reflexivity.
Qed.

Lemma xorByte_involutive (a b : byte) :
  ToyRuntime.xorByte (ToyRuntime.xorByte a b) b = a.
Proof.
  unfold ToyRuntime.xorByte.
  rewrite ascii_of_byte_of_ascii, xorAscii_involutive.
  apply byte_of_ascii_of_byte.
Qed.

Lemma xorStream_involutive (key : bytes) (data : bytes) (i : nat) :
  ToyRuntime.xorStream key i (ToyRuntime.xorStream key i data) = data.
Proof.
  revert i. induction data as [|x data IH]; intros i; cbn; [reflexivity|].
  rewrite xorByte_involutive, IH. reflexivity.
Qed.

Lemma xorStream_length (key : bytes) (data : bytes) (i : nat) :
  length (ToyRuntime.xorStream key i data) = length data.
Proof.
  revert i. induction data as [|x data IH]; intros i; cbn; [reflexivity|].
  rewrite IH. reflexivity.
Qed.

Lemma toy_crypto_laws : NodeCryptoLaws ToyRuntime.crypto.
Proof.
  split; cbn.
  - intros password salt _ keylen. unfold ToyRuntime.stretch.
    rewrite length_take, xorStream_length, length_app, length_replicate. lia.
  - intros key iv plain. unfold ToyRuntime.tagOf.
    rewrite length_take, xorStream_length, !length_app, length_replicate. lia.
  - intros key iv plain _. unfold ToyRuntime.unseal.
    rewrite bool_decide_eq_true_2 by reflexivity.
    rewrite xorStream_involutive. reflexivity.
  - apply string_of_list_byte_of_string.
  - apply fromHex_toHex.
Qed.

(** ** The AEAD frame *)

Section Frame.
Context {rt : NodeCrypto} {laws : NodeCryptoLaws rt}.

Lemma encryptBuffer_length (salt iv plain : bytes) (k : string) :
  length (CryptoService.encryptBuffer salt iv plain k)
  = (length salt + length iv + 16
     + length (gcmEncrypt (CryptoService.deriveKey k salt) iv plain).1)%nat.
Proof.
  unfold CryptoService.encryptBuffer. rewrite !length_app, gcm_tag_length. lia.
Qed.

Lemma frame_slices (salt iv tag encrypted : bytes) :
  length salt = 32%nat -> length iv = 16%nat -> length tag = 16%nat ->
  let frame := salt ++ iv ++ tag ++ encrypted in
  Buffer.subarray frame 0 32 = salt
  /\ Buffer.subarray frame 32 (32 + 16) = iv
  /\ Buffer.subarray frame (32 + 16) (32 + 16 + 16) = tag
  /\ drop (32 + 16 + 16) frame = encrypted.
Proof.
  intros Hs Hi Ht frame. unfold Buffer.subarray. subst frame.
  split; [|split; [|split]].
  - rewrite drop_0. apply take_app_length'. lia.
  - rewrite drop_app_length' by lia. apply take_app_length'. lia.
  - rewrite <- drop_drop, drop_app_length' by lia.
    rewrite drop_app_length' by lia. apply take_app_length'. lia.
  - rewrite <- !drop_drop, drop_app_length' by lia.
    rewrite drop_app_length' by lia. apply drop_app_length'. lia.
Qed.

Lemma decryptBuffer_frame (salt iv tag encrypted : bytes) (k : string) :
  length salt = 32%nat -> length iv = 16%nat -> length tag = 16%nat ->
  CryptoService.decryptBuffer (salt ++ iv ++ tag ++ encrypted) k
  = match gcmDecrypt (CryptoService.deriveKey k salt) iv tag encrypted with
    | Some decrypted => Ok decrypted
    | None => Throw "Decryption failed: Invalid passphrase or corrupted data"
    end.
Proof.
  intros Hs Hi Ht. unfold CryptoService.decryptBuffer.
  assert (Hlen : (length (salt ++ iv ++ tag ++ encrypted) <?
                  CryptoService.keyLength + CryptoService.ivLength
                  + CryptoService.tagLength)%nat = false).
  { apply Nat.ltb_ge. rewrite !length_app.
    unfold CryptoService.keyLength, CryptoService.ivLength,
      CryptoService.tagLength. lia. }
  rewrite Hlen. unfold CryptoService.ivLength, CryptoService.tagLength.
  destruct (frame_slices salt iv tag encrypted Hs Hi Ht)
    as (Hsalt & Hiv & Htag & Henc).
  rewrite Hsalt, Hiv, Htag, Henc. reflexivity.
Qed.

Lemma encryptBuffer_roundtrip (p : bytes) (k : string) (salt iv : bytes) :
  length salt = 32%nat -> length iv = 16%nat ->
  CryptoService.decryptBuffer (CryptoService.encryptBuffer salt iv p k) k
  = Ok p.
Proof.
  intros Hs Hi. unfold CryptoService.encryptBuffer. cbv zeta.
  rewrite decryptBuffer_frame by (auto using gcm_tag_length).
  rewrite gcm_roundtrip; [reflexivity|].
  unfold CryptoService.deriveKey. apply pbkdf2_length.
Qed.

End Frame.

(** C1.  Round trip of the AEAD frame: for every plaintext [p], passphrase
    [k], and every 32-byte salt and 16-byte IV that [encryptBuffer] draws,
    [decryptBuffer (encryptBuffer p k) k] returns exactly [p]; the frame is
    salt(32), IV(16), tag(16), ciphertext, and the four slices that
    [decryptBuffer] takes at its fixed offsets are these four parts. *)
Theorem decryptBuffer_encryptBuffer {rt : NodeCrypto} {laws : NodeCryptoLaws rt}
    (p : bytes) (k : string) (salt iv : bytes) :
  length salt = 32%nat -> length iv = 16%nat ->
  let frame := CryptoService.encryptBuffer salt iv p k in
  let sealed := gcmEncrypt (CryptoService.deriveKey k salt) iv p in
  CryptoService.decryptBuffer frame k = Ok p
  /\ frame = salt ++ iv ++ sealed.2 ++ sealed.1
  /\ length sealed.2 = 16%nat
  /\ Buffer.subarray frame 0 32 = salt
  /\ Buffer.subarray frame 32 (32 + CryptoService.ivLength) = iv
  /\ Buffer.subarray frame (32 + CryptoService.ivLength)
       (32 + CryptoService.ivLength + CryptoService.tagLength) = sealed.2
  /\ drop (32 + CryptoService.ivLength + CryptoService.tagLength) frame
     = sealed.1.
Proof.
  intros Hs Hi frame sealed.
  assert (Ht : length sealed.2 = 16%nat) by apply gcm_tag_length.
  assert (Hframe : frame = salt ++ iv ++ sealed.2 ++ sealed.1) by reflexivity.
  split; [|split; [exact Hframe|split; [exact Ht|]]].
  - apply encryptBuffer_roundtrip; assumption.
  - rewrite Hframe. exact (frame_slices salt iv sealed.2 sealed.1 Hs Hi Ht).
Qed.

Lemma decryptBuffer_encryptBuffer_witness :
  length (replicate 32 x21) = 32%nat /\ length (replicate 16 x22) = 16%nat
  /\ CryptoService.decryptBuffer (rt := ToyRuntime.crypto)
       (CryptoService.encryptBuffer (rt := ToyRuntime.crypto)
          (replicate 32 x21) (replicate 16 x22) Scenario.tenBytes
          Scenario.passphrase)
       Scenario.passphrase
     = Ok Scenario.tenBytes.
Proof.
  split; [reflexivity|]. split; [reflexivity|].
  refine (proj1 (decryptBuffer_encryptBuffer (rt := ToyRuntime.crypto)
                   (laws := toy_crypto_laws) Scenario.tenBytes
                   Scenario.passphrase (replicate 32 x21) (replicate 16 x22)
                   _ _)); reflexivity.
Defined.

(** ** The token table *)

Lemma sweep_fold_lookup (now : Z) (base : gmap string TokenData.t)
    (entries : list (string * TokenData.t)) (token : string) :
  (forall k v, (k, v) ∈ entries -> base !! k = Some v) ->
  foldr
    (fun entry store =>
       if now >? TokenData.expiresAt entry.2 then delete entry.1 store
       else store)
    base entries !! token
  = match base !! token with
    | Some data =>
        if bool_decide ((token, data) ∈ entries)
           && (now >? TokenData.expiresAt data)
        then None else Some data
    | None => None
    end.
Proof.
  induction entries as [|[k v] entries IH]; intros Hin; cbn [foldr].
  - destruct (base !! token); [|reflexivity].
    rewrite bool_decide_eq_false_2 by apply not_elem_of_nil. reflexivity.
  - assert (Hkv : base !! k = Some v) by (apply Hin; left).
    assert (IH' := IH (fun k' v' H => Hin k' v' (list_elem_of_further _ _ _ H))).
    cbn [fst snd].
    destruct (now >? TokenData.expiresAt v) eqn:Hexp.
    + destruct (decide (k = token)) as [->|Hne].
      * rewrite lookup_delete_eq, Hkv, Hexp.
        rewrite bool_decide_eq_true_2 by left. reflexivity.
      * rewrite lookup_delete_ne by exact Hne. rewrite IH'.
        destruct (base !! token) as [data|]; [|reflexivity].
        rewrite (bool_decide_ext ((token, data) ∈ (k, v) :: entries)
                   ((token, data) ∈ entries)); [reflexivity|].
        rewrite elem_of_cons. split; [|tauto].
        intros [Heq|H]; [congruence | exact H].
    + rewrite IH'. destruct (base !! token) as [data|] eqn:Htok; [|reflexivity].
      destruct (now >? TokenData.expiresAt data) eqn:Hd;
        rewrite ?andb_false_r; [|reflexivity].
      rewrite !andb_true_r.
      rewrite (bool_decide_ext ((token, data) ∈ (k, v) :: entries)
                 ((token, data) ∈ entries)); [reflexivity|].
      rewrite elem_of_cons. split; [|tauto].
      intros [Heq|H]; [|exact H].
      injection Heq as -> ->. congruence.
Qed.

Lemma sweep_lookup (now : Z) (store : gmap string TokenData.t)
    (token : string) :
  Routes.sweep now store !! token
  = match store !! token with
    | Some data =>
        if now >? TokenData.expiresAt data then None else Some data
    | None => None
    end.
Proof.
  unfold Routes.sweep. rewrite sweep_fold_lookup.
  - destruct (store !! token) as [data|] eqn:Htok; [|reflexivity].
    rewrite bool_decide_eq_true_2 by (apply elem_of_map_to_list; exact Htok).
    reflexivity.
  - intros k v H. apply elem_of_map_to_list. exact H.
Qed.

Lemma gtb_live (now e : Z) : now <= e -> (now >? e) = false.
Proof. intros H. rewrite Z.gtb_ltb. apply Z.ltb_ge. lia. Qed.

Lemma gtb_expired (now e : Z) : now > e -> (now >? e) = true.
Proof. intros H. rewrite Z.gtb_ltb. apply Z.ltb_lt. lia. Qed.

Lemma getVaultPassphrase_absent (now : Z) (token caller : string)
    (store : gmap string TokenData.t) :
  store !! token = None ->
  Routes.getVaultPassphrase now token caller store = (Ok None, store).
Proof. intros H. unfold Routes.getVaultPassphrase. rewrite H. reflexivity. Qed.

Lemma getVaultPassphrase_expired (now : Z) (token caller : string)
    (record : TokenData.t) (store : gmap string TokenData.t) :
  store !! token = Some record ->
  now > TokenData.expiresAt record ->
  Routes.getVaultPassphrase now token caller store
  = (Ok None, delete token store).
Proof.
  intros H Hexp. unfold Routes.getVaultPassphrase. rewrite H.
  rewrite gtb_expired by exact Hexp.
  reflexivity.
Qed.

Lemma getVaultPassphrase_foreign (now : Z) (token caller : string)
    (record : TokenData.t) (store : gmap string TokenData.t) :
  store !! token = Some record ->
  now <= TokenData.expiresAt record ->
  TokenData.userId record <> caller ->
  Routes.getVaultPassphrase now token caller store
  = (Throw "Vault token does not belong to the requesting user", store).
Proof.
  intros H Hlive Hne. unfold Routes.getVaultPassphrase. rewrite H.
  rewrite gtb_live by exact Hlive.
  replace (String.eqb (TokenData.userId record) caller) with false
    by (symmetry; apply String.eqb_neq; exact Hne).
  reflexivity.
Qed.

Lemma getVaultPassphrase_owner (now : Z) (token caller : string)
    (record : TokenData.t) (store : gmap string TokenData.t) :
  store !! token = Some record ->
  now <= TokenData.expiresAt record ->
  TokenData.userId record = caller ->
  Routes.getVaultPassphrase now token caller store
  = (Ok (Some (TokenData.passphrase record)), store).
Proof.
  intros H Hlive Heq. unfold Routes.getVaultPassphrase. rewrite H.
  rewrite gtb_live by exact Hlive.
  replace (String.eqb (TokenData.userId record) caller) with true
    by (symmetry; apply String.eqb_eq; exact Heq).
  reflexivity.
Qed.

Lemma getVaultPassphrase_swept (now swept : Z) (token caller : string)
    (record : TokenData.t) (store : gmap string TokenData.t) :
  store !! token = Some record ->
  now > TokenData.expiresAt record ->
  (Routes.getVaultPassphrase now token caller (Routes.sweep swept store)).1
    = Ok None
  /\ (Routes.getVaultPassphrase now token caller (Routes.sweep swept store)).2
       !! token = None.
Proof.
  intros H Hexp.
  assert (Hs := sweep_lookup swept store token). rewrite H in Hs.
  destruct (swept >? TokenData.expiresAt record).
  - rewrite getVaultPassphrase_absent by exact Hs. split; [reflexivity|exact Hs].
  - rewrite (getVaultPassphrase_expired _ _ _ record) by assumption.
    split; [reflexivity | apply lookup_delete_eq].
Qed.

(** ** GET /api/media/:id with [decrypt=true] *)

Section MediaRoute.
Context {rt : NodeCrypto}.

Lemma getMedia_resolved (now : Z) (caller id token : string)
    (authorization : option string) (s : server) :
  Routes.isValidUUID id = true ->
  Routes.extractVaultToken authorization = Some token ->
  Routes.getMedia now caller id (Some "true") authorization s
  = match Routes.getVaultPassphrase now token caller (vaultTokenStore s) with
    | (Throw m, store) => (Routes.mediaError m, setTokenStore store s)
    | (Ok vaultPassphrase, store) =>
        if Js.truthy vaultPassphrase
        then
          match MediaService.getMediaContent id caller true vaultPassphrase
                  (setTokenStore store s) with
          | Throw m => (Routes.mediaError m, setTokenStore store s)
          | Ok None => (json 404 "Media file not found", setTokenStore store s)
          | Ok (Some content) =>
              (mkResponse 200
                 (MediaContent (MediaService.contentMimeType content)
                    (MediaService.contentFilename content)
                    (MediaService.buffer content)), setTokenStore store s)
          end
        else (json 401 "Invalid or expired vault token", setTokenStore store s)
    end.
Proof.
  intros Hid Htok. unfold Routes.getMedia, Routes.resolveVaultToken.
  rewrite Hid, Htok. cbn [negb default String.eqb Ascii.eqb Bool.eqb].
  destruct (Routes.getVaultPassphrase now token caller (vaultTokenStore s))
    as [[[[|c p]|]|m] store]; reflexivity.
Qed.

Lemma getMedia_rejected (now : Z) (caller id token : string)
    (authorization : option string) (s : server) :
  Routes.isValidUUID id = true ->
  Routes.extractVaultToken authorization = Some token ->
  (Routes.getVaultPassphrase now token caller (vaultTokenStore s)).1
    = Ok None ->
  (Routes.getMedia now caller id (Some "true") authorization s).1
  = json 401 "Invalid or expired vault token".
Proof.
  intros Hid Htok Hres. rewrite (getMedia_resolved _ _ _ token) by assumption.
  destruct (Routes.getVaultPassphrase now token caller (vaultTokenStore s))
    as [r store]. cbn in Hres. subst r. reflexivity.
Qed.

End MediaRoute.

(** C3.  Token ownership isolation: a token that is in the table and has
    not expired, presented by a caller other than the user it was issued to,
    makes [getVaultPassphrase] throw the ownership error, which GET
    /api/media/:id answers with 403, whereas an absent or expired token is
    answered with 401; the stored passphrase is not returned. *)
Theorem token_ownership_isolation {rt : NodeCrypto}
    (now : Z) (token caller : string) (record : TokenData.t) (s : server) :
  vaultTokenStore s !! token = Some record ->
  now <= TokenData.expiresAt record ->
  TokenData.userId record <> caller ->
  Routes.getVaultPassphrase now token caller (vaultTokenStore s)
    = (Throw "Vault token does not belong to the requesting user",
       vaultTokenStore s)
  /\ (Routes.getVaultPassphrase now token caller (vaultTokenStore s)).1
       <> Ok (Some (TokenData.passphrase record))
  /\ (forall id authorization,
        Routes.isValidUUID id = true ->
        Routes.extractVaultToken authorization = Some token ->
        (Routes.getMedia now caller id (Some "true") authorization s).1
        = json 403 "Vault token does not belong to the requesting user")
  /\ (forall id authorization other s0,
        Routes.isValidUUID id = true ->
        Routes.extractVaultToken authorization = Some other ->
        (vaultTokenStore s0 !! other = None
         \/ exists old, vaultTokenStore s0 !! other = Some old
                        /\ now > TokenData.expiresAt old) ->
        (Routes.getMedia now caller id (Some "true") authorization s0).1
        = json 401 "Invalid or expired vault token").
Proof.
  intros Hrec Hlive Hne.
  assert (Hthrow := getVaultPassphrase_foreign now token caller record
                      (vaultTokenStore s) Hrec Hlive Hne).
  split; [exact Hthrow|]. split; [rewrite Hthrow; discriminate|]. split.
  - intros id authorization Hid Htok.
    rewrite (getMedia_resolved _ _ _ token) by assumption.
    rewrite Hthrow. reflexivity.
  - intros id authorization other s0 Hid Htok Hgone.
    apply (getMedia_rejected _ _ _ other); [assumption..|].
    destruct Hgone as [Hnone|(old & Hold & Hexp)].
    + rewrite getVaultPassphrase_absent by exact Hnone. reflexivity.
    + rewrite (getVaultPassphrase_expired _ _ _ old) by assumption.
      reflexivity.
Qed.

Lemma token_ownership_isolation_witness :
  Routes.getVaultPassphrase 2000 Scenario.token Scenario.bob
    (vaultTokenStore Scenario.unlocked)
  = (Throw "Vault token does not belong to the requesting user",
     vaultTokenStore Scenario.unlocked).
Proof.
  refine (proj1 (token_ownership_isolation (rt := ToyRuntime.crypto)
                   2000 Scenario.token Scenario.bob
                   (TokenData.mk Scenario.alice Scenario.passphrase 1801000)
                   Scenario.unlocked _ _ _)); evaluate.
Defined.


(** The upload route has no branch for the ownership error: the outer
    [catch] answers it with 500. *)
Lemma uploadMedia_foreign_token {rt : NodeCrypto} {img : Sharp}
    (now : Z) (token caller : string) (authorization categoryId : option string)
    (sessionKey : bytes) (file : Routes.uploadedFile * MediaService.draws)
    (files : list (Routes.uploadedFile * MediaService.draws))
    (record : TokenData.t) (s : server) :
  Routes.extractVaultToken authorization = Some token ->
  vaultTokenStore s !! token = Some record ->
  now <= TokenData.expiresAt record ->
  TokenData.userId record <> caller ->
  Routes.fileFilter file.1 = true ->
  (Routes.uploadMedia now caller authorization true categoryId sessionKey
     (file :: files) s).1
  = json 500 "Failed to upload media files".
Proof.
  intros Htok Hrec Hlive Hne Hfile.
  unfold Routes.uploadMedia. cbn [List.filter]. rewrite Hfile. cbv zeta.
  unfold Routes.resolveVaultToken. rewrite Htok.
  rewrite (getVaultPassphrase_foreign _ _ _ record) by assumption.
  reflexivity.
Qed.

(** C7.  Lazy expiry: resolving a token whose [expiresAt] is in the past
    evicts it and returns [null], and returns the same [null] on a table the
    periodic sweep has already gone over, whenever that sweep ran; once
    expired, the token resolves to [null] at every later time, for every
    caller, before and after the sweep and after the eviction. *)
Theorem lazy_expiry_enforcement (now swept : Z) (token caller : string)
    (record : TokenData.t) (store : gmap string TokenData.t) :
  store !! token = Some record ->
  now > TokenData.expiresAt record ->
  Routes.getVaultPassphrase now token caller store
    = (Ok None, delete token store)
  /\ (Routes.getVaultPassphrase now token caller (Routes.sweep swept store)).1
     = (Routes.getVaultPassphrase now token caller store).1
  /\ (Routes.getVaultPassphrase now token caller (Routes.sweep swept store)).2
       !! token = None
  /\ (forall later anyone,
        later >= now ->
        (Routes.getVaultPassphrase later token anyone store).1 = Ok None
        /\ (Routes.getVaultPassphrase later token anyone
              (Routes.sweep swept store)).1 = Ok None)
  /\ (forall later anyone,
        (Routes.getVaultPassphrase later token anyone
           (Routes.getVaultPassphrase now token caller store).2).1 = Ok None).
Proof.
  intros Hrec Hexp.
  assert (Hnow := getVaultPassphrase_expired now token caller record store
                    Hrec Hexp).
  destruct (getVaultPassphrase_swept now swept token caller record store
              Hrec Hexp) as [Hs1 Hs2].
  split; [exact Hnow|]. split; [rewrite Hs1, Hnow; reflexivity|].
  split; [exact Hs2|]. split.
  - intros later anyone Hlater. split.
    + rewrite (getVaultPassphrase_expired _ _ _ record) by (assumption || lia).
      reflexivity.
    + apply (getVaultPassphrase_swept later swept token anyone record store);
        [assumption | lia].
  - intros later anyone. rewrite Hnow. cbn [snd].
    rewrite getVaultPassphrase_absent by apply lookup_delete_eq. reflexivity.
Qed.

Lemma lazy_expiry_enforcement_witness :
  Routes.getVaultPassphrase 1801001 Scenario.token Scenario.alice
    (vaultTokenStore Scenario.unlocked)
  = (Ok None, delete Scenario.token (vaultTokenStore Scenario.unlocked)).
Proof.
  refine (proj1 (lazy_expiry_enforcement 1801001 1500000 Scenario.token
                   Scenario.alice
                   (TokenData.mk Scenario.alice Scenario.passphrase 1801000)
                   (vaultTokenStore Scenario.unlocked) _ _)); evaluate.
Defined.


(** C10.  Expiry is checked before ownership: a record that is in the table
    but has expired is evicted and resolved to [null], answered with 401 by
    GET /api/media/:id, also when its [userId] is not the caller's; the
    ownership error and its 403 do not occur. *)
Theorem expiry_checked_before_ownership {rt : NodeCrypto}
    (now : Z) (token caller : string) (record : TokenData.t) (s : server) :
  vaultTokenStore s !! token = Some record ->
  now > TokenData.expiresAt record ->
  TokenData.userId record <> caller ->
  Routes.getVaultPassphrase now token caller (vaultTokenStore s)
    = (Ok None, delete token (vaultTokenStore s))
  /\ (forall id authorization,
        Routes.isValidUUID id = true ->
        Routes.extractVaultToken authorization = Some token ->
        Routes.getMedia now caller id (Some "true") authorization s
        = (json 401 "Invalid or expired vault token",
           setTokenStore (delete token (vaultTokenStore s)) s)).
Proof.
  intros Hrec Hexp _.
  assert (Hnow := getVaultPassphrase_expired now token caller record
                    (vaultTokenStore s) Hrec Hexp).
  split; [exact Hnow|].
  intros id authorization Hid Htok.
  rewrite (getMedia_resolved _ _ _ token) by assumption.
  rewrite Hnow. reflexivity.
Qed.

Lemma expiry_checked_before_ownership_witness :
  Routes.getVaultPassphrase 1801001 Scenario.token Scenario.bob
    (vaultTokenStore Scenario.unlocked)
  = (Ok None, delete Scenario.token (vaultTokenStore Scenario.unlocked)).
Proof.
  refine (proj1 (expiry_checked_before_ownership (rt := ToyRuntime.crypto)
                   1801001 Scenario.token
                   Scenario.bob
                   (TokenData.mk Scenario.alice Scenario.passphrase 1801000)
                   Scenario.unlocked _ _ _)); evaluate.
Defined.


(** ** Failures of the decrypt chain *)

Section DecryptFailure.
Context {rt : NodeCrypto} {img : Sharp}.

Lemma getMediaContent_decrypt_failure (id caller vaultPassphrase m : string)
    (mediaFile : MediaFile.t) (s : server) :
  mediaFiles s !! id = Some mediaFile ->
  MediaFile.uploadedBy mediaFile = caller ->
  MediaFile.isEncrypted mediaFile = true ->
  Js.truthy (Some vaultPassphrase) = true ->
  MediaService.unwrapAndDecrypt mediaFile (MediaFile.binaryData mediaFile)
    vaultPassphrase = Throw m ->
  MediaService.getMediaContent id caller true (Some vaultPassphrase) s
  = Throw "Invalid vault passphrase or corrupted encryption data".
Proof.
  intros Hfile Hown Henc Hpass Hfail.
  unfold MediaService.getMediaContent, Storage.getMediaFile.
  rewrite Hfile, Henc, Hpass.
  replace (String.eqb (MediaFile.uploadedBy mediaFile) caller) with true
    by (symmetry; apply String.eqb_eq; exact Hown).
  cbn [negb andb from_option Datatypes.id]. rewrite Hfail. reflexivity.
Qed.

Lemma getThumbnail_decrypt_failure (id caller vaultPassphrase m : string)
    (mediaFile : MediaFile.t) (thumbnail : bytes) (s : server) :
  mediaFiles s !! id = Some mediaFile ->
  MediaFile.thumbnailData mediaFile = Some thumbnail ->
  MediaFile.uploadedBy mediaFile = caller ->
  MediaFile.isEncrypted mediaFile = true ->
  Js.truthy (Some vaultPassphrase) = true ->
  MediaService.unwrapAndDecrypt mediaFile thumbnail vaultPassphrase
    = Throw m ->
  MediaService.getThumbnail id caller true (Some vaultPassphrase) s
  = Throw "Invalid vault passphrase for thumbnail decryption".
Proof.
  intros Hfile Hthumb Hown Henc Hpass Hfail.
  unfold MediaService.getThumbnail, Storage.getMediaFile.
  rewrite Hfile, Hthumb, Henc, Hpass.
  replace (String.eqb (MediaFile.uploadedBy mediaFile) caller) with true
    by (symmetry; apply String.eqb_eq; exact Hown).
  cbn [negb andb from_option Datatypes.id]. rewrite Hfail. reflexivity.
Qed.

(** The thumbnail route answers the same failure with 403: its message
    holds the word the [catch] block looks for. *)
Lemma thumbnailError_decrypt_failure :
  Routes.thumbnailError "Invalid vault passphrase for thumbnail decryption"
  = json 403 "Invalid vault passphrase for thumbnail decryption".
Proof. reflexivity. Qed.

Lemma mediaError_decrypt_failure :
  Routes.mediaError "Invalid vault passphrase or corrupted encryption data"
  = json 500 "Failed to serve media file".
Proof. reflexivity. Qed.

End DecryptFailure.

(** C4.  What the code does where the claim asks for a 403: when an
    encrypted object of the caller is read with [decrypt=true] under a valid
    token of the caller and the decrypt chain throws, GET /api/media/:id
    answers 500 "Failed to serve media file". *)
Theorem getMedia_decrypt_failure_is_500 {rt : NodeCrypto}
    (now : Z) (caller id token m : string) (authorization : option string)
    (record : TokenData.t) (mediaFile : MediaFile.t) (s : server) :
  Routes.isValidUUID id = true ->
  Routes.extractVaultToken authorization = Some token ->
  vaultTokenStore s !! token = Some record ->
  now <= TokenData.expiresAt record ->
  TokenData.userId record = caller ->
  Js.truthy (Some (TokenData.passphrase record)) = true ->
  mediaFiles s !! id = Some mediaFile ->
  MediaFile.uploadedBy mediaFile = caller ->
  MediaFile.isEncrypted mediaFile = true ->
  MediaService.unwrapAndDecrypt mediaFile (MediaFile.binaryData mediaFile)
    (TokenData.passphrase record) = Throw m ->
  (Routes.getMedia now caller id (Some "true") authorization s).1
  = json 500 "Failed to serve media file".
Proof.
  intros Hid Htok Hrec Hlive Huser Hpass Hfile Hown Henc Hfail.
  rewrite (getMedia_resolved _ _ _ token) by assumption.
  rewrite (getVaultPassphrase_owner _ _ _ record) by assumption.
  rewrite Hpass.
  rewrite (getMediaContent_decrypt_failure _ _ _ m mediaFile)
    by assumption.
  reflexivity.
Qed.

Lemma getMedia_decrypt_failure_is_500_witness :
  (Routes.getMedia (rt := ToyRuntime.crypto) 6000 Scenario.alice
     Scenario.mediaId (Some "true") Rekeyed.authorization Rekeyed.unlocked).1
  = json 500 "Failed to serve media file".
Proof.
  refine (getMedia_decrypt_failure_is_500 (rt := ToyRuntime.crypto)
            6000 Scenario.alice Scenario.mediaId Rekeyed.token
            "Decryption failed: Invalid passphrase or corrupted data"
            Rekeyed.authorization
            (TokenData.mk Scenario.alice Rekeyed.passphrase 1805000)
            (default
               (MediaFile.mk "" "" "" 0 "" [] None false None None "" false)
               (mediaFiles Rekeyed.unlocked !! Scenario.mediaId))
            Rekeyed.unlocked _ _ _ _ _ _ _ _ _ _); evaluate.
Defined.

(** ** Unlocking and setting up the vault *)

(** C5, as the code has it.  For a submitted, non-empty passphrase,
    POST /api/vault/authenticate answers 404 "No vault configured for this
    user" when the user has no stored verifier and 401 "Invalid vault
    passphrase" when the passphrase does not verify; neither changes the
    state. *)
Theorem unlock_failure_responses {rt : NodeCrypto}
    (now : Z) (accessToken userId passphrase : string) (s : server) :
  Js.truthy (Some passphrase) = true ->
  (Js.truthy (Storage.getUser userId s ≫= User.vaultPassphrase) = false ->
   Routes.vaultAuthenticate now accessToken userId (Some passphrase) s
   = (json 404 "No vault configured for this user", s))
  /\ (forall stored,
        Storage.getUser userId s ≫= User.vaultPassphrase = Some stored ->
        Js.truthy (Some stored) = true ->
        CryptoService.verifyPassword passphrase stored = false ->
        Routes.vaultAuthenticate now accessToken userId (Some passphrase) s
        = (json 401 "Invalid vault passphrase", s)).
Proof.
  intros Hpass. unfold Routes.vaultAuthenticate. rewrite Hpass.
  cbn [negb from_option Datatypes.id]. split.
  - intros Hnone. rewrite Hnone. reflexivity.
  - intros stored Hstored Htruthy Hwrong.
    rewrite Hstored, Htruthy. cbn [negb from_option Datatypes.id].
    rewrite Hwrong. reflexivity.
Qed.

Lemma unlock_failure_responses_witness :
  Routes.vaultAuthenticate (rt := ToyRuntime.crypto) 1000 Scenario.token
    Scenario.alice (Some "wrong") Scenario.noVault
  = (json 404 "No vault configured for this user", Scenario.noVault)
  /\ Routes.vaultAuthenticate (rt := ToyRuntime.crypto) 1000 Scenario.token
       Scenario.alice (Some "wrong") Scenario.configured
     = (json 401 "Invalid vault passphrase", Scenario.configured).
Proof.
  split.
  - refine (proj1 (unlock_failure_responses (rt := ToyRuntime.crypto) 1000
                     Scenario.token Scenario.alice "wrong" Scenario.noVault _)
              _); evaluate.
  - refine (proj2 (unlock_failure_responses (rt := ToyRuntime.crypto) 1000
                     Scenario.token Scenario.alice "wrong"
                     Scenario.configured _)
              Scenario.storedHash _ _ _); evaluate.
Defined.

(** C5 as stated fails: Alice without a vault and Alice with a vault and a
    wrong passphrase receive different statuses and messages. *)
Lemma generic_unlock_failure_counterexample :
  let noVault :=
    (Routes.vaultAuthenticate (rt := ToyRuntime.crypto) 1000 Scenario.token
       Scenario.alice (Some "wrong") Scenario.noVault).1 in
  let wrongPassphrase :=
    (Routes.vaultAuthenticate (rt := ToyRuntime.crypto) 1000 Scenario.token
       Scenario.alice (Some "wrong") Scenario.configured).1 in
  Storage.getUser Scenario.alice Scenario.noVault ≫= User.vaultPassphrase
    = None
  /\ CryptoService.verifyPassword (rt := ToyRuntime.crypto) "wrong"
       Scenario.storedHash = false
  /\ noVault = json 404 "No vault configured for this user"
  /\ wrongPassphrase = json 401 "Invalid vault passphrase"
  /\ status noVault <> status wrongPassphrase
  /\ payload noVault <> payload wrongPassphrase.
Proof. cbv zeta. repeat split; evaluate. Qed.

Lemma upsertUser_lookup (now : Z) (userId other hashed : string)
    (s : server) :
  Storage.getUser other (Storage.upsertUser now userId hashed s)
    ≫= User.vaultPassphrase
  = if decide (userId = other) then Some hashed
    else Storage.getUser other s ≫= User.vaultPassphrase.
Proof.
  unfold Storage.getUser, Storage.upsertUser, setUsers. cbn [users].
  rewrite lookup_insert. destruct (decide (userId = other)); [|reflexivity].
  destruct (users s !! userId); reflexivity.
Qed.

(** C6, as the code has it.  POST /api/vault/setup answers 400 and changes
    nothing when the submitted passphrase is falsy or its [length] is below
    8, which for a string counts UTF-16 code units; a value that passes
    this check without being a string is answered 500 and changes nothing.
    For a string of at least 8 code units it answers success and stores
    the fresh [salt:hash] verifier of the string for the user, whether or
    not the user had one: an existing row keeps its profile, role and
    creation time and gets the verifier and the time of the call as
    [updatedAt], a missing row is created; the other users, the token table
    and the media files stay as they were. *)
Theorem setup_guard {rt : NodeCrypto}
    (now : Z) (salt : bytes) (userId : string)
    (passphrase : Request.submitted) (s : server) :
  (Request.truthy passphrase = false \/ Request.lengthBelow8 passphrase = true ->
   Routes.vaultSetup now salt userId passphrase s
   = (json 400 "Passphrase must be at least 8 characters long", s))
  /\ (forall isTruthy hasLengthBelow8,
        passphrase = Request.NotText isTruthy hasLengthBelow8 ->
        isTruthy = true -> hasLengthBelow8 = false ->
        Routes.vaultSetup now salt userId passphrase s
        = (json 500 "Failed to setup vault", s))
  /\ (forall units,
        passphrase = Request.Text units -> (8 <= length units)%nat ->
        let s' := (Routes.vaultSetup now salt userId passphrase s).2 in
        let verifier :=
          CryptoService.hashPassword salt (Utf16.hashed units) in
        (Routes.vaultSetup now salt userId passphrase s).1
          = mkResponse 200 Success
        /\ Storage.getUser userId s' ≫= User.vaultPassphrase = Some verifier
        /\ (forall existing,
              Storage.getUser userId s = Some existing ->
              Storage.getUser userId s'
              = Some (User.mk (User.profile existing) (User.role existing)
                        (Some verifier) (User.createdAt existing) now))
        /\ (Storage.getUser userId s = None ->
            Storage.getUser userId s'
            = Some (User.mk None (Some "user") (Some verifier) now now))
        /\ (forall other,
              other <> userId ->
              Storage.getUser other s' = Storage.getUser other s)
        /\ vaultTokenStore s' = vaultTokenStore s
        /\ mediaFiles s' = mediaFiles s).
Proof.
  unfold Routes.vaultSetup. split; [|split].
  - intros [Hfalsy|Hshort].
    + rewrite Hfalsy. reflexivity.
    + rewrite Hshort, orb_true_r. reflexivity.
  - intros isTruthy hasLengthBelow8 -> -> ->. reflexivity.
  - intros units -> Hlong. cbv zeta.
    assert (Htruthy : Request.truthy (Request.Text units) = true).
    { destruct units; [cbn in Hlong; lia | reflexivity]. }
    rewrite Htruthy. cbn [negb orb Request.lengthBelow8].
    replace (length units <? 8)%nat with false
      by (symmetry; apply Nat.ltb_ge; exact Hlong).
    cbn [fst snd]. split; [reflexivity|]. split.
    { rewrite upsertUser_lookup. rewrite decide_True by reflexivity.
      reflexivity. }
    unfold Storage.getUser, Storage.upsertUser. cbn [users setUsers].
    split.
    { intros existing Hex. rewrite lookup_insert_eq, Hex. reflexivity. }
    split.
    { intros Hnone. rewrite lookup_insert_eq, Hnone. reflexivity. }
    split.
    { intros other Hne. apply lookup_insert_ne. congruence. }
    split; reflexivity.
Qed.

(** Five ASCII characters are refused; Alice's second setup stores the
    verifier of the new passphrase; and four characters outside the Basic
    Multilingual Plane are eight code units, hence accepted. *)
Lemma setup_guard_witness :
  Routes.vaultSetup (rt := ToyRuntime.crypto) 500 (replicate 16 x11)
    Scenario.alice (Request.Text (Utf16.ofLatin1 "short")) Scenario.noVault
  = (json 400 "Passphrase must be at least 8 characters long",
     Scenario.noVault)
  /\ Storage.getUser Scenario.alice Rekeyed.configured ≫= User.vaultPassphrase
     = Some (CryptoService.hashPassword (rt := ToyRuntime.crypto)
               (replicate 16 x33) Rekeyed.passphrase)
  /\ (Routes.vaultSetup (rt := ToyRuntime.crypto) 500 (replicate 16 x11)
        Scenario.alice (Request.Text Scenario.fourFaces) Scenario.noVault).1
     = mkResponse 200 Success.
Proof.
  split; [|split].
  - refine (proj1 (setup_guard (rt := ToyRuntime.crypto) 500
                     (replicate 16 x11) Scenario.alice
                     (Request.Text (Utf16.ofLatin1 "short"))
                     Scenario.noVault) _).
    right. evaluate.
  - destruct (proj2 (proj2 (setup_guard (rt := ToyRuntime.crypto) 4000
                     (replicate 16 x33) Scenario.alice
                     (Request.Text (Utf16.ofLatin1 Rekeyed.passphrase))
                     Scenario.stored))
                (Utf16.ofLatin1 Rekeyed.passphrase) eq_refl)
      as (_ & Hstored & _).
    + evaluate.
    + exact Hstored.
  - destruct (proj2 (proj2 (setup_guard (rt := ToyRuntime.crypto) 500
                     (replicate 16 x11) Scenario.alice
                     (Request.Text Scenario.fourFaces) Scenario.noVault))
                Scenario.fourFaces eq_refl)
      as (Hanswer & _).
    + evaluate.
    + exact Hanswer.
Defined.

(** C6 as stated fails: Alice, who has a persisted verifier, runs the setup
    again and the verifier is replaced. *)
Lemma setup_replaces_verifier_counterexample :
  let before := Scenario.stored in
  let after :=
    (Routes.vaultSetup (rt := ToyRuntime.crypto) 4000 (replicate 16 x33)
       Scenario.alice (Request.Text (Utf16.ofLatin1 Rekeyed.passphrase))
       before).2 in
  Storage.getUser Scenario.alice before ≫= User.vaultPassphrase
    = Some Scenario.storedHash
  /\ (Routes.vaultSetup (rt := ToyRuntime.crypto) 4000 (replicate 16 x33)
        Scenario.alice (Request.Text (Utf16.ofLatin1 Rekeyed.passphrase))
        before).1
     = mkResponse 200 Success
  /\ Storage.getUser Scenario.alice after ≫= User.vaultPassphrase
     <> Storage.getUser Scenario.alice before ≫= User.vaultPassphrase.
Proof. cbv zeta. repeat split; evaluate. Qed.

(** ** Reads without decryption *)




(** ** Uploads with encryption *)

Section Upload.
Context {rt : NodeCrypto} {img : Sharp}.



End Upload.

(** ** Wrapping and unwrapping the content key *)

Section Wrapping.
Context {rt : NodeCrypto} {laws : NodeCryptoLaws rt}.

Lemma decryptString_encryptString (salt iv : bytes) (text k : string) :
  length salt = 32%nat -> length iv = 16%nat ->
  CryptoService.decryptString (CryptoService.encryptString salt iv text k) k
  = Ok text.
Proof.
  intros Hs Hi. unfold CryptoService.decryptString, CryptoService.encryptString.
  rewrite base64_roundtrip, encryptBuffer_roundtrip by assumption.
  cbn [bind]. rewrite utf8_roundtrip. reflexivity.
Qed.


End Wrapping.






(** ** Comparing the verifier *)

Lemma charCode_nonneg (c : ascii) : 0 <= Js.charCode c.
Proof. unfold Js.charCode. lia. Qed.

Lemma charCode_inj (x y : ascii) : Js.charCode x = Js.charCode y -> x = y.
Proof.
  unfold Js.charCode. intros H. apply N2Z.inj in H.
  rewrite <- (ascii_N_embedding x), <- (ascii_N_embedding y), H. reflexivity.
Qed.

Lemma compareLoop_zero (a b : string) (acc : Z) :
  String.length a = String.length b ->
  CryptoService.compareLoop a b acc = 0 <-> acc = 0 /\ a = b.
Proof.
  revert b acc. induction a as [|x a IH]; intros [|y b] acc Hlen;
    cbn in Hlen; try discriminate; cbn [CryptoService.compareLoop].
  - tauto.
  - rewrite IH by lia. rewrite Z.lor_eq_0_iff. split.
    + intros [[Hacc Hxor] ->]. split; [exact Hacc|].
      apply Z.lxor_eq in Hxor. apply charCode_inj in Hxor. congruence.
    + intros [Hacc Heq]. injection Heq as -> ->.
      rewrite Z.lxor_nilpotent. auto.
Qed.

(** [constantTimeCompare] and [===] give the same answer on every pair of
    strings. *)
Lemma constantTimeCompare_eqb (a b : string) :
  CryptoService.constantTimeCompare a b = String.eqb a b.
Proof.
  unfold CryptoService.constantTimeCompare.
  destruct (String.length a =? String.length b)%nat eqn:Hlen; cbn [negb].
  - apply Nat.eqb_eq in Hlen.
    destruct (String.eqb a b) eqn:Heq.
    + apply String.eqb_eq in Heq. apply Z.eqb_eq.
      apply compareLoop_zero; auto.
    + apply String.eqb_neq in Heq. apply Z.eqb_neq.
      rewrite compareLoop_zero by exact Hlen. tauto.
  - symmetry. apply String.eqb_neq. intros ->.
    rewrite Nat.eqb_refl in Hlen. discriminate.
Qed.

Lemma append_cons (c : ascii) (a b : string) :
  String c a +:+ b = String c (a +:+ b).
Proof. reflexivity. Qed.

Lemma append_nil (b : string) : "" +:+ b = b.
Proof. reflexivity. Qed.

Lemma length_append (a b : string) :
  String.length (a +:+ b) = (String.length a + String.length b)%nat.
Proof.
  induction a as [|x a IH]; [reflexivity|].
  rewrite append_cons. cbn [String.length]. rewrite IH. reflexivity.
Qed.

Lemma scanReads_first_difference (pre t1 t2 : string) (x y : ascii) :
  x <> y ->
  Timing.scanReads (pre +:+ String x t1) (pre +:+ String y t2)
  = S (String.length pre).
Proof.
  intros Hxy. induction pre as [|c pre IH].
  - rewrite !append_nil. cbn [Timing.scanReads String.length].
    replace (Ascii.eqb x y) with false
      by (symmetry; apply Ascii.eqb_neq; exact Hxy).
    reflexivity.
  - rewrite !append_cons. cbn [Timing.scanReads String.length].
    rewrite Ascii.eqb_refl, IH. reflexivity.
Qed.

Lemma compareLoopReads_length (a b : string) :
  String.length a = String.length b ->
  Timing.compareLoopReads a b = String.length a.
Proof.
  revert b. induction a as [|x a IH]; intros [|y b] Hlen; cbn in *;
    try discriminate; [reflexivity|].
  rewrite IH by lia. reflexivity.
Qed.

Lemma eqb_first_difference (pre t1 t2 : string) (x y : ascii) :
  x <> y -> String.eqb (pre +:+ String x t1) (pre +:+ String y t2) = false.
Proof.
  intros Hxy. induction pre as [|c pre IH].
  - rewrite !append_nil. cbn [String.eqb].
    replace (Ascii.eqb x y) with false
      by (symmetry; apply Ascii.eqb_neq; exact Hxy).
    reflexivity.
  - rewrite !append_cons. cbn [String.eqb].
    rewrite Ascii.eqb_refl. exact IH.
Qed.

(** C9.  What the code does where the claim asks for a constant-time
    comparison: [verifyPassword] ends with [===].  On a stored verifier of
    the right length whose first wrong character is at position
    [length pre], that comparison reads [length pre + 1] code units, so the
    work done tells the position; [constantTimeCompare], which gives the
    same answer, reads all of them, and is not called. *)
Theorem verifyPassword_reads_reveal_position {rt : NodeCrypto}
    (password hashedPassword saltHex pre t1 t2 : string) (x y : ascii) :
  Js.splitColon hashedPassword = [saltHex; pre +:+ String y t2] ->
  Buffer.toHex (pbkdf2Sync password (Buffer.fromHex saltHex) 15000 64)
    = pre +:+ String x t1 ->
  String.length t1 = String.length t2 ->
  x <> y ->
  CryptoService.verifyPassword password hashedPassword = false
  /\ Timing.verifyPasswordReads password hashedPassword
     = S (String.length pre)
  /\ CryptoService.constantTimeCompare (pre +:+ String x t1)
       (pre +:+ String y t2) = false
  /\ Timing.constantTimeCompareReads (pre +:+ String x t1)
       (pre +:+ String y t2)
     = String.length (pre +:+ String x t1).
Proof.
  intros Hsplit Hhash Hlen Hxy.
  assert (Hsame : String.length (pre +:+ String x t1)
                  = String.length (pre +:+ String y t2)).
  { rewrite !length_append. cbn [String.length]. lia. }
  unfold CryptoService.verifyPassword, Timing.verifyPasswordReads.
  rewrite Hsplit. cbn [lookup list_lookup from_option Datatypes.id].
  rewrite Hhash.
  unfold CryptoService.strictEquals, Timing.strictEqualsReads,
    Timing.constantTimeCompareReads.
  rewrite constantTimeCompare_eqb, eqb_first_difference by exact Hxy.
  rewrite Hsame, Nat.eqb_refl. cbn [negb].
  rewrite scanReads_first_difference by exact Hxy.
  rewrite compareLoopReads_length by exact Hsame.
  rewrite Hsame. auto.
Qed.

Lemma verifyPassword_reads_reveal_position_witness :
  Timing.verifyPasswordReads (rt := ToyRuntime.crypto) Scenario.passphrase
    (Scenario.wrongVerifierAt 5) = 6%nat
  /\ Timing.verifyPasswordReads (rt := ToyRuntime.crypto) Scenario.passphrase
       (Scenario.wrongVerifierAt 100) = 101%nat.
Proof.
  split.
  - refine (proj1 (proj2 (verifyPassword_reads_reveal_position
              (rt := ToyRuntime.crypto) Scenario.passphrase
              (Scenario.wrongVerifierAt 5) Scenario.saltHex
              (String.substring 0 5 Scenario.verifierHex)
              (String.substring 6 122 Scenario.verifierHex)
              (String.substring 6 122 Scenario.verifierHex)
              (default "0"%char (String.get 5 Scenario.verifierHex))
              "g"%char _ _ _ _))); evaluate.
  - refine (proj1 (proj2 (verifyPassword_reads_reveal_position
              (rt := ToyRuntime.crypto) Scenario.passphrase
              (Scenario.wrongVerifierAt 100) Scenario.saltHex
              (String.substring 0 100 Scenario.verifierHex)
              (String.substring 101 27 Scenario.verifierHex)
              (String.substring 101 27 Scenario.verifierHex)
              (default "0"%char (String.get 100 Scenario.verifierHex))
              "g"%char _ _ _ _))); evaluate.
Defined.

(** * Properties of the rest of the code *)

(** ** cryptoService.ts *)



Lemma hexDigit_not_colon (x : byte) :
  Buffer.hexDigit (Byte.to_N x / 16) <> ":"%char
  /\ Buffer.hexDigit (Byte.to_N x mod 16) <> ":"%char.
Proof. destruct x; vm_compute; split; discriminate. Qed.

Lemma splitColon_toHex (b : bytes) :
  Js.splitColon (Buffer.toHex b) = [Buffer.toHex b].
Proof.
  induction b as [|x b IH]; [reflexivity|].
  destruct (hexDigit_not_colon x) as [Hhi Hlo].
  cbn [Buffer.toHex Js.splitColon].
  apply Ascii.eqb_neq in Hhi, Hlo. rewrite Hhi, Hlo, IH. reflexivity.
Qed.

Lemma splitColon_toHex_append (b : bytes) (rest : string) :
  Js.splitColon (Buffer.toHex b +:+ String ":" rest)
  = Buffer.toHex b :: Js.splitColon rest.
Proof.
  induction b as [|x b IH]; [reflexivity|].
  destruct (hexDigit_not_colon x) as [Hhi Hlo].
  cbn [Buffer.toHex]. rewrite 2!append_cons. cbn [Js.splitColon].
  apply Ascii.eqb_neq in Hhi, Hlo. rewrite Hhi, Hlo, IH. reflexivity.
Qed.

Lemma toHex_inj (a b : bytes) : Buffer.toHex a = Buffer.toHex b -> a = b.
Proof.
  intros H. rewrite <- (fromHex_toHex a), <- (fromHex_toHex b), H.
  reflexivity.
Qed.

(** X2.  [verifyPassword] accepts, against the string that [hashPassword]
    made from a password, exactly the passwords whose PBKDF2 output under
    the stored salt is the same; in particular it accepts the password
    itself, whatever salt was drawn. *)
Theorem verifyPassword_hashPassword {rt : NodeCrypto}
    (salt : bytes) (password candidate : string) :
  (CryptoService.verifyPassword candidate
     (CryptoService.hashPassword salt password) = true
   <-> pbkdf2Sync candidate salt 15000 64 = pbkdf2Sync password salt 15000 64)
  /\ CryptoService.verifyPassword password
       (CryptoService.hashPassword salt password) = true.
Proof.
  assert (Hverify : forall c,
            CryptoService.verifyPassword c
              (CryptoService.hashPassword salt password)
            = String.eqb (Buffer.toHex (pbkdf2Sync c salt 15000 64))
                (Buffer.toHex (pbkdf2Sync password salt 15000 64))).
  { intros c. unfold CryptoService.verifyPassword, CryptoService.hashPassword.
    cbv zeta.
    change (":" +:+ ?x) with (String ":" x).
    rewrite splitColon_toHex_append, splitColon_toHex.
    cbn [lookup list_lookup from_option Datatypes.id].
    rewrite fromHex_toHex. reflexivity. }
  split.
  - rewrite Hverify, String.eqb_eq. split; [apply toHex_inj | congruence].
  - rewrite Hverify. apply String.eqb_refl.
Qed.

Lemma splitColon_no_colon (s : string) :
  hasColon s = false -> Js.splitColon s = [s].
Proof.
  induction s as [|c s IH]; [reflexivity|]. cbn [hasColon Js.splitColon].
  intros H. apply orb_false_elim in H as [Hc Hs].
  rewrite Hc, (IH Hs). reflexivity.
Qed.

(** X3.  [verifyPassword] accepts a stored string only when its second
    colon-separated field is exactly the lowercase hexadecimal text of the
    64 bytes derived under the salt named by its first field; what follows
    a second colon is ignored, and a stored string without a colon never
    verifies, for any password. *)
Theorem verifyPassword_accepts_only {rt : NodeCrypto}
    (password stored : string) :
  (CryptoService.verifyPassword password stored = true
   <-> exists saltHex hashHex rest,
         Js.splitColon stored = saltHex :: hashHex :: rest
         /\ hashHex
            = Buffer.toHex
                (pbkdf2Sync password (Buffer.fromHex saltHex) 15000 64))
  /\ (hasColon stored = false ->
      CryptoService.verifyPassword password stored = false).
Proof.
  split.
  - unfold CryptoService.verifyPassword, CryptoService.strictEquals.
    destruct (Js.splitColon stored) as [|saltHex [|hashHex rest]];
      cbn [lookup list_lookup from_option Datatypes.id].
    + split; [discriminate | intros (? & ? & ? & [=] & _)].
    + split; [discriminate | intros (? & ? & ? & [=] & _)].
    + rewrite String.eqb_eq. split.
      * intros H. exists saltHex, hashHex, rest. auto.
      * intros (a & b & r & [= -> -> ->] & ->). reflexivity.
  - intros H. unfold CryptoService.verifyPassword.
    rewrite (splitColon_no_colon _ H). reflexivity.
Qed.

Lemma verifyPassword_accepts_only_witness :
  CryptoService.verifyPassword (rt := ToyRuntime.crypto) "Tr0ub4dor&3"
    "456321647325757e63372227" = false.
Proof.
  refine (proj2 (verifyPassword_accepts_only (rt := ToyRuntime.crypto) _ _) _).
  reflexivity.
Defined.

(** X4.  [constantTimeCompare] returns [true] exactly when its two
    arguments are the same string. *)
Theorem constantTimeCompare_correct (a b : string) :
  CryptoService.constantTimeCompare a b = true <-> a = b.
Proof. rewrite constantTimeCompare_eqb. apply String.eqb_eq. Qed.

Lemma charAt_charset (i : nat) :
  (i < 70)%nat ->
  exists c,
    SecurePassword.charAt SecurePassword.charset i = String c EmptyString
    /\ In c (list_ascii_of_string SecurePassword.charset).
Proof.
  intros Hi.
  do 70 (destruct i as [|i];
         [eexists; split; [reflexivity | vm_compute; tauto]|]).
  lia.
Qed.

Lemma list_ascii_append (a b : string) :
  list_ascii_of_string (a +:+ b)
  = list_ascii_of_string a ++ list_ascii_of_string b.
Proof.
  induction a as [|x a IH]; [reflexivity|].
  rewrite append_cons. cbn [list_ascii_of_string]. rewrite IH. reflexivity.
Qed.

Lemma loop_spec (randomInt : nat -> nat) (remaining i : nat)
    (password : string) :
  (forall j, (i <= j < i + remaining)%nat -> (randomInt j < 70)%nat) ->
  charsIn SecurePassword.charset password ->
  String.length (SecurePassword.loop randomInt i remaining password)
    = (String.length password + remaining)%nat
  /\ charsIn SecurePassword.charset
       (SecurePassword.loop randomInt i remaining password).
Proof.
  revert i password.
  induction remaining as [|remaining IH]; intros i password Hdraws Hchars.
  - cbn. split; [lia | exact Hchars].
  - cbn [SecurePassword.loop].
    destruct (charAt_charset (randomInt i)) as (c & Hc & Hin);
      [apply Hdraws; lia|].
    rewrite Hc.
    destruct (IH (S i) (password +:+ String c EmptyString)) as [Hlen Hall].
    + intros j Hj. apply Hdraws. lia.
    + intros x Hx. rewrite list_ascii_append in Hx.
      apply in_app_or in Hx as [Hx|Hx]; [exact (Hchars x Hx)|].
      cbn in Hx. destruct Hx as [<-|[]]. exact Hin.
    + split; [|exact Hall].
      rewrite Hlen, length_append. cbn [String.length]. lia.
Qed.

(** X5.  [generateSecurePassword(length)] returns exactly [length]
    characters, each taken from the 70-character charset, whenever
    [crypto.randomInt(0, charset.length)] keeps to its range. *)
Theorem generateSecurePassword_spec (length : nat) (randomInt : nat -> nat) :
  (forall i, (i < length)%nat -> (randomInt i < 70)%nat) ->
  String.length (SecurePassword.generateSecurePassword length randomInt)
    = length
  /\ charsIn SecurePassword.charset
       (SecurePassword.generateSecurePassword length randomInt).
Proof.
  intros Hdraws. unfold SecurePassword.generateSecurePassword.
  destruct (loop_spec randomInt length 0 EmptyString) as [Hlen Hall].
  - intros j Hj. apply Hdraws. lia.
  - intros c [].
  - split; [exact Hlen | exact Hall].
Qed.

Lemma generateSecurePassword_spec_witness :
  String.length
    (SecurePassword.generateSecurePassword 32 (fun i => (7 * i + 3) mod 70)%nat)
  = 32%nat.
Proof.
  refine (proj1 (generateSecurePassword_spec 32
                   (fun i => (7 * i + 3) mod 70)%nat _)).
  intros i _. apply Nat.mod_upper_bound. discriminate.
Defined.

(** ** routes.ts: the helpers *)

Lemma stripPrefix_Some (p s rest : string) :
  Js.stripPrefix p s = Some rest <-> s = p +:+ rest.
Proof.
  revert s. induction p as [|a p IH]; intros s.
  - rewrite append_nil. destruct s; cbn [Js.stripPrefix]; split; congruence.
  - rewrite append_cons. destruct s as [|b s]; cbn [Js.stripPrefix].
    + split; discriminate.
    + destruct (Ascii.eqb a b) eqn:Hab.
      * apply Ascii.eqb_eq in Hab as ->. rewrite IH. split; congruence.
      * apply Ascii.eqb_neq in Hab. split; [discriminate | congruence].
Qed.

(** X6.  [extractVaultToken] returns a token exactly for a header of the
    form [Bearer vault:<token>] whose token is not empty and holds no line
    terminator, and the token it returns is the rest of the header. *)
Theorem extractVaultToken_spec (authHeader : option string) (token : string) :
  Routes.extractVaultToken authHeader = Some token
  <-> authHeader = Some ("Bearer vault:" +:+ token)
      /\ token <> EmptyString
      /\ Routes.hasLineTerminator token = false.
Proof.
  unfold Routes.extractVaultToken. split.
  - destruct authHeader as [[|c h]|]; cbn [Js.truthy negb]; try discriminate.
    cbn [from_option Datatypes.id].
    destruct (Js.stripPrefix "Bearer vault:" (String c h)) as [[|t rest]|]
      eqn:Hstrip; try discriminate.
    destruct (Routes.hasLineTerminator (String t rest)) eqn:Hline;
      [discriminate|].
    intros [= <-]. apply stripPrefix_Some in Hstrip.
    rewrite Hstrip. split; [reflexivity|]. split; [discriminate | exact Hline].
  - intros (-> & Hne & Hline). cbn [Js.truthy negb from_option Datatypes.id].
    rewrite (proj2 (stripPrefix_Some "Bearer vault:" _ token) eq_refl).
    destruct token as [|t rest]; [congruence|]. rewrite Hline. reflexivity.
Qed.

Lemma inClass_safe (c : ascii) (k : Routes.uuidClass) :
  Routes.inClass c k = true ->
  c = "-"%char \/ is_Some (Buffer.hexValue c).
Proof.
  destruct k.
  - cbn. intros H. right. apply bool_decide_eq_true in H. exact H.
  - cbn. intros H. left. apply Ascii.eqb_eq in H. exact H.
  - destruct c as [[] [] [] [] [] [] [] []]; vm_compute;
      first [discriminate | intros _; right; eexists; reflexivity].
  - destruct c as [[] [] [] [] [] [] [] []]; vm_compute;
      first [discriminate | intros _; right; eexists; reflexivity].
Qed.

Lemma matchClasses_spec (s : string) (p : list Routes.uuidClass) :
  Routes.matchClasses s p = true ->
  String.length s = length p
  /\ Forall2 (fun c k => Routes.inClass c k = true) (list_ascii_of_string s) p.
Proof.
  revert p. induction s as [|c s IH]; intros [|k p]; cbn; try discriminate.
  - intros _. split; [reflexivity | constructor].
  - intros H. apply andb_prop in H as [Hc Hs].
    destruct (IH p Hs) as [Hlen Hall]. split; [lia|].
    constructor; assumption.
Qed.

(** X7.  Every string that [isValidUUID] accepts has 36 characters, dashes
    at positions 8, 13, 18 and 23, and hexadecimal digits everywhere else:
    no other character reaches the storage layer as an id. *)
Theorem isValidUUID_shape (str : string) :
  Routes.isValidUUID str = true ->
  String.length str = 36%nat
  /\ Forall (fun c => c = "-"%char \/ is_Some (Buffer.hexValue c))
       (list_ascii_of_string str)
  /\ (forall i, i ∈ [8; 13; 18; 23]%nat -> String.get i str = Some "-"%char)
  /\ (forall i c,
        String.get i str = Some c -> i ∉ [8; 13; 18; 23]%nat ->
        is_Some (Buffer.hexValue c)).
Proof.
  intros H. unfold Routes.isValidUUID in H.
  destruct (matchClasses_spec _ _ H) as [Hlen Hall].
  change (String.length str = 36%nat) in Hlen.
  split; [exact Hlen|]. split.
  - clear Hlen H. induction Hall as [|c k cs ks Hc _ IH]; constructor.
    + exact (inClass_safe c k Hc).
    + exact IH.
  - assert (Hget : forall i c k,
              String.get i str = Some c -> Routes.uuidPattern !! i = Some k ->
              Routes.inClass c k = true).
    { clear Hlen H. generalize dependent Routes.uuidPattern.
      induction str as [|x str IH]; intros p Hall i c k Hc Hk.
      - discriminate.
      - inversion Hall as [|? ? ? p' Hx Hrest]; subst.
        destruct i as [|i]; cbn in Hc, Hk.
        + congruence.
        + exact (IH p' Hrest i c k Hc Hk). }
    assert (Hsome : forall i, (i < 36)%nat -> is_Some (String.get i str)).
    { clear -Hlen. revert Hlen. generalize 36%nat.
      induction str as [|x str IH]; intros n Hn i Hi;
        cbn [String.length] in Hn.
      - lia.
      - destruct i as [|i]; cbn [String.get]; [eauto|].
        destruct n as [|n]; [lia|]. injection Hn as Hn.
        apply (IH n); [exact Hn | lia]. }
    split.
    + intros i Hi.
      assert (Hlt : (i < 36)%nat).
      { repeat (apply elem_of_cons in Hi as [->|Hi]; [lia|]).
        apply not_elem_of_nil in Hi as []. }
      destruct (Hsome i Hlt) as [c Hc]. rewrite Hc. f_equal.
      assert (Hk : Routes.uuidPattern !! i = Some Routes.Dash).
      { repeat (apply elem_of_cons in Hi as [->|Hi]; [reflexivity|]).
        apply not_elem_of_nil in Hi as []. }
      pose proof (Hget i c _ Hc Hk) as Hin. cbn in Hin.
      apply Ascii.eqb_eq in Hin. exact Hin.
    + intros i c Hc Hi.
      destruct (Routes.uuidPattern !! i) as [k|] eqn:Hk.
      * pose proof (Hget i c k Hc Hk) as Hin.
        destruct (inClass_safe c k Hin) as [->|Hhex]; [|exact Hhex].
        exfalso. apply Hi.
        assert (Hlt : (i < 36)%nat)
          by (apply lookup_lt_Some in Hk; exact Hk).
        assert (Hdash : k = Routes.Dash).
        { destruct k; [|reflexivity| |]; vm_compute in Hin; discriminate. }
        subst k. clear -Hk Hlt.
        do 36 (destruct i as [|i];
               [first [discriminate Hk | set_solver]|]).
        lia.
      * exfalso. apply lookup_ge_None in Hk.
        assert (Hlt : (i < String.length str)%nat).
        { clear -Hc. revert i Hc. induction str as [|x str IH]; intros i Hc.
          - discriminate.
          - destruct i as [|i]; cbn in *; [lia|].
            specialize (IH i Hc). lia. }
        rewrite Hlen in Hlt. cbn in Hk. lia.
Qed.

Lemma isValidUUID_shape_witness :
  String.length "123e4567-e89b-42d3-a456-426614174000" = 36%nat.
Proof.
  refine (proj1 (isValidUUID_shape "123e4567-e89b-42d3-a456-426614174000" _)).
  reflexivity.
Defined.

(** ** routes.ts: [sanitizeFilename] *)

Section PathLemmas.
Variable P : ascii -> Prop.

Lemma Forall_takeWhile (p : ascii -> bool) (l : list ascii) :
  Forall P l -> Forall P (Path.takeWhile p l).
Proof.
  induction 1 as [|c l Hc _ IH]; cbn; [constructor|].
  destruct (p c); [constructor; assumption | constructor].
Qed.

Lemma Forall_dropWhile (p : ascii -> bool) (l : list ascii) :
  Forall P l -> Forall P (Path.dropWhile p l).
Proof.
  induction 1 as [|c l Hc Hl IH]; cbn; [constructor|].
  destruct (p c); [exact IH | constructor; assumption].
Qed.

Lemma Forall_basename (l : list ascii) :
  Forall P l -> Forall P (Path.basename l).
Proof.
  intros H. unfold Path.basename.
  apply Forall_rev, Forall_takeWhile, Forall_dropWhile, Forall_rev, H.
Qed.

Lemma Forall_extname (l : list ascii) :
  Forall P l -> Forall P (Path.extname l).
Proof.
  intros H. unfold Path.extname. cbv zeta.
  repeat match goal with
         | |- context [if ?c then _ else _] => destruct c
         end; try constructor.
  apply Forall_drop, Forall_basename, H.
Qed.

Lemma Forall_basenameExt (l ext : list ascii) :
  Forall P l -> Forall P (Path.basenameExt l ext).
Proof.
  intros H. unfold Path.basenameExt. cbv zeta.
  repeat match goal with
         | |- context [if ?c then _ else _] => destruct c
         end; try constructor; try apply Forall_take;
    apply Forall_basename, H.
Qed.

End PathLemmas.

Lemma takeWhile_length (p : ascii -> bool) (l : list ascii) :
  (length (Path.takeWhile p l) <= length l)%nat.
Proof.
  induction l as [|c l IH]; cbn; [lia|]. destruct (p c); cbn; lia.
Qed.

Lemma takeWhile_all (p : ascii -> bool) (l : list ascii) :
  Forall (fun c => p c = true) l -> Path.takeWhile p l = l.
Proof.
  induction 1 as [|c l Hc _ IH]; cbn; [reflexivity|].
  rewrite Hc, IH. reflexivity.
Qed.

Lemma dropWhile_none (p : ascii -> bool) (l : list ascii) :
  Forall (fun c => p c = false) l -> Path.dropWhile p l = l.
Proof. destruct 1 as [|c l Hc _]; cbn; [reflexivity|]. rewrite Hc. reflexivity. Qed.

Lemma dropWhile_head (p : ascii -> bool) (l : list ascii) (c : ascii) :
  head (Path.dropWhile p l) = Some c -> p c = false.
Proof.
  induction l as [|x l IH]; cbn; [discriminate|].
  destruct (p x) eqn:Hx; [exact IH|]. cbn. congruence.
Qed.

Lemma basename_no_slash (l : list ascii) :
  Forall (fun c => Path.isSlash c = false) l -> Path.basename l = l.
Proof.
  intros H. unfold Path.basename.
  rewrite dropWhile_none by (apply Forall_rev; exact H).
  rewrite takeWhile_all.
  - apply rev_involutive.
  - apply Forall_rev. eapply Forall_impl; [exact H|].
    cbn. intros c ->. reflexivity.
Qed.

(** On a name without slashes [extname] is empty or a proper suffix that
    starts after the first character. *)
Lemma extname_no_slash (l : list ascii) :
  Forall (fun c => Path.isSlash c = false) l ->
  Path.extname l = []
  \/ exists i, (1 <= i < length l)%nat /\ Path.extname l = drop i l.
Proof.
  intros H. unfold Path.extname. cbv zeta. rewrite (basename_no_slash l H).
  pose proof (takeWhile_length (fun c => negb (Path.isDot c)) (rev l)) as Hle.
  rewrite length_rev in Hle.
  destruct (_ =? length l)%nat eqn:Hall; [left; reflexivity|].
  apply Nat.eqb_neq in Hall.
  destruct (_ =? 0)%nat eqn:Hzero; [left; reflexivity|].
  apply Nat.eqb_neq in Hzero.
  destruct (bool_decide _); [left; reflexivity|].
  right. eexists. split; [|reflexivity]. lia.
Qed.

Lemma basenameExt_suffix (l : list ascii) (i : nat) :
  Forall (fun c => Path.isSlash c = false) l ->
  (1 <= i < length l)%nat ->
  Path.basenameExt l (drop i l) = take i l.
Proof.
  intros H Hi. unfold Path.basenameExt. cbv zeta.
  assert (Hlen : length (drop i l) = (length l - i)%nat) by apply length_drop.
  rewrite bool_decide_eq_false_2
    by (intros Heq; rewrite Heq in Hlen; cbn in Hlen; lia).
  replace (length l <? length (drop i l))%nat with false
    by (symmetry; apply Nat.ltb_ge; lia).
  cbn [orb].
  rewrite bool_decide_eq_false_2
    by (intros Heq; rewrite Heq in Hlen; lia).
  rewrite (basename_no_slash l H), Hlen.
  replace (length l - (length l - i))%nat with i by lia.
  rewrite bool_decide_eq_true_2 by reflexivity.
  replace (i =? 0)%nat with false by (symmetry; apply Nat.eqb_neq; lia).
  reflexivity.
Qed.

Lemma dangerous_slash (c : ascii) :
  Filenames.dangerous c = false -> Path.isSlash c = false.
Proof.
  intros H. unfold Path.isSlash. apply Ascii.eqb_neq. intros ->.
  discriminate H.
Qed.

Lemma replaceDangerous_safe (l : list ascii) :
  Forall (fun c => Filenames.dangerous c = false)
    (Filenames.replaceDangerous l).
Proof.
  unfold Filenames.replaceDangerous. apply Forall_map, Forall_forall.
  intros c _. cbn. destruct (Filenames.dangerous c) eqn:Hc;
    [reflexivity | exact Hc].
Qed.

(** What the steps before the truncation establish. *)
Lemma clean_spec (originalname : list ascii) :
  Filenames.clean originalname <> []
  /\ Forall (fun c => Filenames.dangerous c = false)
       (Filenames.clean originalname)
  /\ head (Filenames.clean originalname) <> Some "."%char.
Proof.
  unfold Filenames.clean. cbv zeta.
  destruct (Filenames.stripLeadingDots _) as [|c rest] eqn:Hstrip.
  - split; [discriminate|]. split; [|discriminate].
    repeat constructor.
  - split; [discriminate|]. split.
    + rewrite <- Hstrip. apply Forall_dropWhile, replaceDangerous_safe.
    + cbn. intros [= ->].
      assert (Hhead : head (Filenames.stripLeadingDots
                              (Filenames.replaceDangerous
                                 (Path.basename originalname)))
                      = Some "."%char) by (rewrite Hstrip; reflexivity).
      apply dropWhile_head in Hhead. discriminate Hhead.
Qed.

Lemma truncate_safe (filename : list ascii) :
  filename <> [] ->
  Forall (fun c => Filenames.dangerous c = false) filename ->
  Filenames.truncate filename <> []
  /\ Forall (fun c => Filenames.dangerous c = false)
       (Filenames.truncate filename).
Proof.
  intros Hne Hsafe. unfold Filenames.truncate. cbv zeta.
  destruct (100 <? length filename)%nat eqn:Hlong; [|auto].
  apply Nat.ltb_lt in Hlong. split.
  - assert (Hslash : Forall (fun c => Path.isSlash c = false) filename)
      by (eapply Forall_impl; [exact Hsafe | exact dangerous_slash]).
    destruct (extname_no_slash filename Hslash) as [Hext|(i & Hi & Hext)];
      rewrite Hext.
    + unfold Path.basenameExt. rewrite bool_decide_eq_true_2 by reflexivity.
      cbn [orb length]. rewrite (basename_no_slash _ Hslash), app_nil_r.
      destruct filename; [congruence | discriminate].
    + intros Happ. apply app_eq_nil in Happ as [_ Hdrop].
      apply (f_equal length) in Hdrop. rewrite length_drop in Hdrop.
      cbn in Hdrop. lia.
  - apply Forall_app. split.
    + apply Forall_take, Forall_basenameExt, Hsafe.
    + apply Forall_extname, Hsafe.
Qed.

Lemma takeWhile_next (p : ascii -> bool) (l : list ascii) :
  (length (Path.takeWhile p l) < length l)%nat ->
  exists c, l !! length (Path.takeWhile p l) = Some c /\ p c = false.
Proof.
  induction l as [|x l IH]; cbn; [lia|].
  destruct (p x) eqn:Hx; cbn.
  - intros H. apply IH. lia.
  - intros _. exists x. auto.
Qed.

Lemma rev_is_reverse (l : list ascii) : rev l = reverse l.
Proof. apply rev_alt. Qed.

(** On a name without slashes a non-empty [extname] starts with a dot. *)
Lemma extname_head (l : list ascii) :
  Forall (fun c => Path.isSlash c = false) l ->
  Path.extname l <> [] -> head (Path.extname l) = Some "."%char.
Proof.
  intros H. unfold Path.extname. cbv zeta. rewrite (basename_no_slash l H).
  set (afterDot := Path.takeWhile (fun c => negb (Path.isDot c)) (rev l)).
  pose proof (takeWhile_length (fun c => negb (Path.isDot c)) (rev l)) as Hle.
  fold afterDot in Hle. rewrite length_rev in Hle.
  destruct (_ =? length l)%nat eqn:Hall; [congruence|].
  apply Nat.eqb_neq in Hall.
  destruct (_ =? 0)%nat; [congruence|].
  destruct (bool_decide _); [congruence|]. intros _.
  destruct (takeWhile_next (fun c => negb (Path.isDot c)) (rev l))
    as (c & Hc & Hdot).
  { fold afterDot. rewrite length_rev. lia. }
  fold afterDot in Hc. rewrite rev_is_reverse, reverse_lookup in Hc by lia.
  rewrite head_lookup, lookup_drop, Nat.add_0_r.
  replace (length l - length afterDot - 1)%nat
    with (length l - S (length afterDot))%nat by lia.
  rewrite Hc. f_equal. apply negb_false_iff in Hdot.
  apply Ascii.eqb_eq in Hdot. exact Hdot.
Qed.

(** X8.  What [sanitizeFilename] returns is never empty and holds none of
    the characters backslash, slash, colon, star, question mark, double
    quote, angle brackets and bar, whatever name the client sent: it cannot
    name another directory. *)
Theorem sanitizeFilename_safe (originalname : string) :
  Filenames.sanitizeFilename originalname <> EmptyString
  /\ Forall (fun c => Filenames.dangerous c = false)
       (list_ascii_of_string (Filenames.sanitizeFilename originalname)).
Proof.
  unfold Filenames.sanitizeFilename.
  destruct (clean_spec (list_ascii_of_string originalname))
    as (Hne & Hsafe & _).
  destruct (truncate_safe _ Hne Hsafe) as [Hne' Hsafe'].
  rewrite list_ascii_of_string_of_list_ascii. split; [|exact Hsafe'].
  intros Hempty. apply Hne'.
  rewrite <- (list_ascii_of_string_of_list_ascii (Filenames.truncate _)).
  rewrite Hempty. reflexivity.
Qed.

(** X9.  The 100-character limit of [sanitizeFilename] holds, and the
    result does not start with a dot, whenever the extension of the cleaned
    name is shorter than 100 characters; a cleaned name longer than 100
    characters whose extension has 100 characters or more is replaced by
    that extension alone, which starts with a dot and is not shortened. *)
Theorem sanitizeFilename_length (originalname : string) :
  let cleaned := Filenames.clean (list_ascii_of_string originalname) in
  let ext := Path.extname cleaned in
  let result := list_ascii_of_string (Filenames.sanitizeFilename originalname) in
  ((length ext < 100)%nat ->
   (length result <= 100)%nat /\ head result <> Some "."%char)
  /\ ((100 < length cleaned)%nat -> (100 <= length ext)%nat ->
      result = ext /\ head result = Some "."%char).
Proof.
  cbv zeta. unfold Filenames.sanitizeFilename.
  rewrite list_ascii_of_string_of_list_ascii.
  destruct (clean_spec (list_ascii_of_string originalname))
    as (Hne & Hsafe & Hhead).
  set (cleaned := Filenames.clean (list_ascii_of_string originalname)) in *.
  assert (Hslash : Forall (fun c => Path.isSlash c = false) cleaned)
    by (eapply Forall_impl; [exact Hsafe | exact dangerous_slash]).
  unfold Filenames.truncate. cbv zeta.
  destruct (100 <? length cleaned)%nat eqn:Hlong.
  2:{ apply Nat.ltb_ge in Hlong. split; [auto | lia]. }
  apply Nat.ltb_lt in Hlong.
  pose proof (extname_head cleaned Hslash) as Hdot.
  destruct (extname_no_slash cleaned Hslash) as [Hext|(i & Hi & Hext)].
  - rewrite Hext. cbn [length]. split; [|lia]. intros _.
    unfold Path.basenameExt. rewrite bool_decide_eq_true_2 by reflexivity.
    cbn [orb]. rewrite (basename_no_slash _ Hslash), app_nil_r.
    split; [rewrite length_take; lia|].
    destruct cleaned; [congruence | exact Hhead].
  - rewrite Hext in Hdot |- *.
    rewrite (basenameExt_suffix _ _ Hslash Hi), length_drop.
    split.
    + intros Hshort. split.
      * rewrite length_app, !length_take, length_drop. lia.
      * destruct cleaned as [|c rest]; [congruence|].
        destruct (100 - (length (c :: rest) - i))%nat eqn:Hk; [lia|].
        destruct i as [|i]; [lia|]. exact Hhead.
    + intros _ Hbig.
      replace (100 - (length cleaned - i))%nat with 0%nat by lia.
      rewrite take_0. cbn [app]. split; [reflexivity|].
      apply Hdot. intros Hnil. apply (f_equal length) in Hnil.
      rewrite length_drop in Hnil. cbn in Hnil. lia.
Qed.

Example sanitizeFilename_cases :
  Filenames.sanitizeFilename "../../etc/passwd" = "passwd"
  /\ Filenames.sanitizeFilename "..hidden" = "hidden"
  /\ Filenames.sanitizeFilename "a:b*c?.txt" = "a_b_c_.txt"
  /\ Filenames.sanitizeFilename "" = "unnamed_file"
  /\ Filenames.sanitizeFilename "..." = "unnamed_file"
  /\ Filenames.sanitizeFilename "photos/2023/" = "2023".
Proof. repeat split; reflexivity. Qed.

Example extname_cases :
  Path.extname (list_ascii_of_string "index.coffee.md")
    = list_ascii_of_string ".md"
  /\ Path.extname (list_ascii_of_string "index.") = list_ascii_of_string "."
  /\ Path.extname (list_ascii_of_string "index") = []
  /\ Path.extname (list_ascii_of_string ".index") = []
  /\ Path.extname (list_ascii_of_string ".index.md")
     = list_ascii_of_string ".md"
  /\ Path.extname (list_ascii_of_string "..") = []
  /\ Path.extname (list_ascii_of_string "...") = list_ascii_of_string "."
  /\ Path.extname (list_ascii_of_string "dir.d/file") = [].
Proof. repeat split; reflexivity. Qed.

(** ** routes.ts: the token table *)

(** X10.  Unlock, then resolve.  When the passphrase is submitted, a
    verifier is stored for the user and the passphrase verifies, POST
    /api/vault/authenticate answers with the token and the expiry
    [now + 30 min]; from then on the owner resolves the token to the
    submitted passphrase at every time up to and including the expiry,
    leaving the table as it is, and to [null] after it. *)
Theorem unlock_then_resolve {rt : NodeCrypto}
    (unlockedAt now : Z) (accessToken userId passphrase stored : string)
    (s : server) :
  Js.truthy (Some passphrase) = true ->
  Storage.getUser userId s ≫= User.vaultPassphrase = Some stored ->
  Js.truthy (Some stored) = true ->
  CryptoService.verifyPassword passphrase stored = true ->
  let expiry := unlockedAt + 30 * 60 * 1000 in
  let unlocked :=
    (Routes.vaultAuthenticate unlockedAt accessToken userId (Some passphrase)
       s).2 in
  (Routes.vaultAuthenticate unlockedAt accessToken userId (Some passphrase)
     s).1 = mkResponse 200 (AccessGranted accessToken expiry)
  /\ (now <= expiry ->
      Routes.getVaultPassphrase now accessToken userId
        (vaultTokenStore unlocked)
      = (Ok (Some passphrase), vaultTokenStore unlocked))
  /\ (now > expiry ->
      Routes.getVaultPassphrase now accessToken userId
        (vaultTokenStore unlocked)
      = (Ok None, delete accessToken (vaultTokenStore unlocked))).
Proof.
  intros Hpass Hstored Htruthy Hvalid. cbv zeta.
  unfold Routes.vaultAuthenticate.
  rewrite Hpass, Hstored, Htruthy. cbn [negb from_option Datatypes.id].
  rewrite Hvalid. cbn [negb fst snd vaultTokenStore setTokenStore].
  split; [reflexivity|].
  set (record := TokenData.mk userId passphrase (unlockedAt + 30 * 60 * 1000)).
  assert (Hrec : <[accessToken := record]> (vaultTokenStore s) !! accessToken
                 = Some record) by apply lookup_insert_eq.
  split.
  - intros Hlive.
    exact (getVaultPassphrase_owner now accessToken userId record _
             Hrec Hlive eq_refl).
  - intros Hexp.
    exact (getVaultPassphrase_expired now accessToken userId record _
             Hrec Hexp).
Qed.

Lemma unlock_then_resolve_witness :
  Routes.getVaultPassphrase 1801000 Scenario.token Scenario.alice
    (vaultTokenStore Scenario.unlocked)
  = (Ok (Some Scenario.passphrase), vaultTokenStore Scenario.unlocked).
Proof.
  refine (proj1 (proj2 (unlock_then_resolve (rt := ToyRuntime.crypto)
            1000 1801000 Scenario.token Scenario.alice Scenario.passphrase
            Scenario.storedHash Scenario.configured _ _ _ _)) _); evaluate.
Defined.

(** X11.  The sweep keeps exactly the entries that have not expired at
    its time, each with its record; it adds nothing, running it again at
    the same time changes nothing, and two sweeps amount to one at the
    later time. *)
Theorem sweep_keeps_live (now later : Z) (store : gmap string TokenData.t) :
  (forall token record,
     Routes.sweep now store !! token = Some record
     <-> store !! token = Some record /\ now <= TokenData.expiresAt record)
  /\ Routes.sweep now store ⊆ store
  /\ Routes.sweep now (Routes.sweep now store) = Routes.sweep now store
  /\ (now <= later ->
      Routes.sweep later (Routes.sweep now store) = Routes.sweep later store).
Proof.
  assert (Hlookup : forall t token record,
            Routes.sweep t store !! token = Some record
            <-> store !! token = Some record
                /\ t <= TokenData.expiresAt record).
  { intros t token record. rewrite sweep_lookup.
    destruct (store !! token) as [data|]; [|split; [discriminate|tauto]].
    destruct (t >? TokenData.expiresAt data) eqn:Hexp.
    - rewrite Z.gtb_ltb in Hexp. apply Z.ltb_lt in Hexp.
      split; [discriminate|]. intros [[= ->] Hlive]. lia.
    - rewrite Z.gtb_ltb in Hexp. apply Z.ltb_ge in Hexp.
      split; [intros [= ->]; auto | tauto]. }
  assert (Htwice : forall t1 t2,
            t1 <= t2 ->
            Routes.sweep t2 (Routes.sweep t1 store) = Routes.sweep t2 store).
  { intros t1 t2 Hle. apply map_eq. intros token.
    rewrite !sweep_lookup.
    destruct (store !! token) as [data|]; [|reflexivity].
    destruct (t1 >? TokenData.expiresAt data) eqn:H1; [|reflexivity].
    rewrite Z.gtb_ltb in H1. apply Z.ltb_lt in H1.
    rewrite gtb_expired by lia. reflexivity. }
  split; [exact (Hlookup now)|]. split; [|split].
  - apply map_subseteq_spec. intros token record H.
    apply Hlookup in H. tauto.
  - apply Htwice. lia.
  - apply Htwice.
Qed.

Lemma sweep_keeps_live_witness :
  Routes.sweep 1900000 (Routes.sweep 1500000 (vaultTokenStore Scenario.unlocked))
  = Routes.sweep 1900000 (vaultTokenStore Scenario.unlocked).
Proof.
  refine (proj2 (proj2 (proj2 (sweep_keeps_live 1500000 1900000
                                 (vaultTokenStore Scenario.unlocked)))) _).
  lia.
Defined.

Lemma delete_sweep (t : Z) (token : string) (store : gmap string TokenData.t) :
  delete token (Routes.sweep t store) = Routes.sweep t (delete token store).
Proof.
  apply map_eq. intros k. rewrite sweep_lookup.
  destruct (decide (token = k)) as [->|Hne].
  - rewrite !lookup_delete_eq. reflexivity.
  - rewrite !lookup_delete_ne by exact Hne. apply sweep_lookup.
Qed.

(** X12.  A sweep that ran at or before the time of a resolve does not
    change what the resolve returns, for any token and caller, and the
    table the resolve leaves is the sweep of the table it would have left
    without that sweep. *)
Theorem resolve_commutes_with_sweep (swept now : Z) (token caller : string)
    (store : gmap string TokenData.t) :
  swept <= now ->
  (Routes.getVaultPassphrase now token caller (Routes.sweep swept store)).1
    = (Routes.getVaultPassphrase now token caller store).1
  /\ (Routes.getVaultPassphrase now token caller (Routes.sweep swept store)).2
     = Routes.sweep swept
         (Routes.getVaultPassphrase now token caller store).2.
Proof.
  intros Hle. unfold Routes.getVaultPassphrase at 1 3.
  rewrite sweep_lookup. unfold Routes.getVaultPassphrase.
  destruct (store !! token) as [data|] eqn:Hdata; [|auto].
  destruct (swept >? TokenData.expiresAt data) eqn:Hswept.
  - rewrite Z.gtb_ltb in Hswept. apply Z.ltb_lt in Hswept.
    rewrite gtb_expired by lia. cbn [fst snd]. split; [reflexivity|].
    rewrite <- delete_sweep. symmetry. apply delete_id.
    rewrite sweep_lookup, Hdata, gtb_expired by lia. reflexivity.
  - destruct (now >? TokenData.expiresAt data).
    + cbn [fst snd]. split; [reflexivity | apply delete_sweep].
    + destruct (negb _); cbn [fst snd]; auto.
Qed.

Lemma resolve_commutes_with_sweep_witness :
  (Routes.getVaultPassphrase 2000 Scenario.token Scenario.alice
     (Routes.sweep 1500 (vaultTokenStore Scenario.unlocked))).1
  = (Routes.getVaultPassphrase 2000 Scenario.token Scenario.alice
       (vaultTokenStore Scenario.unlocked)).1.
Proof.
  refine (proj1 (resolve_commutes_with_sweep 1500 2000 Scenario.token
                   Scenario.alice (vaultTokenStore Scenario.unlocked) _)).
  lia.
Defined.

(** X13.  POST /api/vault/authenticate never touches the users or the media
    files, and of the token table at most the entry of the token it just
    drew: every other session stays as it was, and a request that is not
    answered with 200 changes nothing at all. *)
Theorem vaultAuthenticate_frame {rt : NodeCrypto}
    (now : Z) (accessToken userId : string) (passphrase : option string)
    (s : server) :
  let answer := Routes.vaultAuthenticate now accessToken userId passphrase s in
  users answer.2 = users s
  /\ mediaFiles answer.2 = mediaFiles s
  /\ (forall other,
        other <> accessToken ->
        vaultTokenStore answer.2 !! other = vaultTokenStore s !! other)
  /\ (status answer.1 <> 200 -> answer.2 = s).
Proof.
  cbv zeta. unfold Routes.vaultAuthenticate.
  destruct (negb (Js.truthy passphrase)); [cbn; auto|].
  destruct (negb (Js.truthy _)); [cbn; auto|].
  destruct (negb (CryptoService.verifyPassword _ _)); [cbn; auto|].
  cbn [fst snd users mediaFiles vaultTokenStore setTokenStore status].
  split; [reflexivity|]. split; [reflexivity|]. split.
  - intros other Hne. apply lookup_insert_ne. congruence.
  - congruence.
Qed.

(** ** mediaService.ts: what an upload stores *)

Section Stored.
Context {rt : NodeCrypto} {img : Sharp}.

(** A successful, non-duplicate [processFile] inserted [storedRow] under a
    fresh id and a fresh (hash, uploader) pair. *)
Lemma processFile_stored (d : MediaService.draws) (buffer : bytes)
    (originalName mimeType uploadedBy : string)
    (options : MediaService.MediaProcessingOptions) (s s' : server)
    (result : MediaService.MediaUploadResult) :
  MediaService.processFile d buffer originalName mimeType uploadedBy options s
    = (Ok result, s') ->
  MediaService.isDuplicate result = false ->
  exists thumbnailData,
    MediaService.processMedia buffer mimeType
      (MediaService.generateThumbnail options)
      (MediaService.thumbnailSize options) = Ok thumbnailData
    /\ result
       = MediaService.mkUploadResult (MediaService.rowId d) (sha256Hex buffer)
           false (bool_decide (is_Some thumbnailData))
    /\ mediaFiles s !! MediaService.rowId d = None
    /\ (forall k row,
          mediaFiles s !! k = Some row ->
          Storage.sameHashAndOwner (sha256Hex buffer) uploadedBy row = false)
    /\ (MediaService.encryptContent options = true ->
        Js.truthy (MediaService.vaultPassphrase options) = true)
    /\ s' = setMediaFiles
              (<[MediaService.rowId d :=
                   storedRow d buffer originalName mimeType uploadedBy options
                     thumbnailData]> (mediaFiles s)) s.
Proof.
  unfold MediaService.processFile.
  destruct (Storage.getMediaFileByHash _ _ s);
    [intros [= <- <-]; discriminate|].
  destruct (MediaService.processMedia _ _ _ _) as [thumbnailData|m];
    [|discriminate].
  match goal with
  | |- context [match ?e with Ok _ => _ | Throw _ => _ end] =>
      destruct e as [[[processed key] thumb]|m] eqn:Hencrypted
  end; [|discriminate].
  unfold Storage.createMediaFile.
  match goal with
  | |- context [if ?c then _ else _] => destruct c eqn:Hclash
  end.
  { destruct (MediaService.isUniqueViolation _); [|discriminate].
    destruct (Storage.getMediaFileByHash _ _ s); [|discriminate].
    intros [= <- <-]. discriminate. }
  cbn [fst snd]. intros [= <- <-] _.
  apply orb_false_elim in Hclash as [Hfresh Hunique].
  apply bool_decide_eq_false in Hfresh.
  exists thumbnailData. split; [reflexivity|].
  assert (Hrow : MediaService.encryptContent options = true ->
                 Js.truthy (MediaService.vaultPassphrase options) = true).
  { intros Henc. rewrite Henc in Hencrypted. cbn [andb] in Hencrypted.
    destruct (Js.truthy (MediaService.vaultPassphrase options));
      [reflexivity|].
    rewrite andb_false_r in Hencrypted. discriminate Hencrypted. }
  assert (Hthumb : thumb
                   = MediaFile.thumbnailData
                       (storedRow d buffer originalName mimeType uploadedBy
                          options thumbnailData)
                   /\ processed
                      = MediaFile.binaryData
                          (storedRow d buffer originalName mimeType uploadedBy
                             options thumbnailData)
                   /\ key
                      = MediaFile.encryptionKey
                          (storedRow d buffer originalName mimeType uploadedBy
                             options thumbnailData)).
  { unfold storedRow. cbv zeta.
    cbn [MediaFile.thumbnailData MediaFile.binaryData MediaFile.encryptionKey].
    destruct (MediaService.encryptContent options
              && Js.truthy (MediaService.encryptionKey options)
              && Js.truthy (MediaService.vaultPassphrase options)).
    - destruct (Storage.getUser uploadedBy s) as [user|];
        [|discriminate Hencrypted].
      destruct (Js.truthy (User.vaultPassphrase user));
        [|discriminate Hencrypted].
      injection Hencrypted as <- <- <-. auto.
    - destruct (MediaService.encryptContent options
                && negb (Js.truthy (MediaService.vaultPassphrase options)));
        [discriminate Hencrypted|].
      injection Hencrypted as <- <- <-. auto. }
  destruct Hthumb as (-> & -> & ->).
  split.
  { cbn [fst]. f_equal. unfold storedRow. cbv zeta.
    cbn [MediaFile.thumbnailData].
    destruct (_ && _ && _), thumbnailData; reflexivity. }
  split.
  { destruct (mediaFiles s !! MediaService.rowId d) eqn:E; [|reflexivity].
    exfalso. apply Hfresh. eauto. }
  split.
  { intros k row Hk.
    destruct (Storage.sameHashAndOwner _ _ row) eqn:Hsame; [|reflexivity].
    assert (Hex : existsb
                    (fun r : string * MediaFile.t =>
                       Storage.sameHashAndOwner (sha256Hex buffer) uploadedBy
                         r.2)
                    (map_to_list (mediaFiles s)) = true).
    { apply existsb_exists. exists (k, row). split; [|exact Hsame].
      apply list_elem_of_In, elem_of_map_to_list. exact Hk. }
    cbn [MediaFile.sha256Hash MediaFile.uploadedBy] in Hunique.
    rewrite Hex in Hunique. discriminate Hunique. }
  split; [exact Hrow|]. reflexivity.
Qed.

(** After such an insert, the lookup by hash and uploader finds exactly the
    inserted row. *)
Lemma getMediaFileByHash_stored (id hash uploadedBy : string)
    (row : MediaFile.t) (s : server) :
  (forall k r,
     mediaFiles s !! k = Some r ->
     Storage.sameHashAndOwner hash uploadedBy r = false) ->
  Storage.sameHashAndOwner hash uploadedBy row = true ->
  MediaFile.isDeleted row = false ->
  Storage.getMediaFileByHash hash uploadedBy
    (setMediaFiles (<[id := row]> (mediaFiles s)) s)
  = Some (id, row).
Proof.
  intros Hunique Hsame Hlive. unfold Storage.getMediaFileByHash.
  cbn [mediaFiles setMediaFiles].
  destruct (find _ _) as [[k r]|] eqn:Hfind.
  - apply find_some in Hfind as [Hin Hp].
    apply list_elem_of_In, elem_of_map_to_list in Hin.
    apply andb_prop in Hp as [Hp _]. cbn [snd] in Hp.
    destruct (decide (id = k)) as [<-|Hne].
    + rewrite lookup_insert_eq in Hin. congruence.
    + rewrite lookup_insert_ne in Hin by exact Hne.
      rewrite (Hunique k r Hin) in Hp. discriminate Hp.
  - exfalso.
    pose proof (find_none _ _ Hfind (id, row)) as Hnone.
    cbn [snd] in Hnone. rewrite Hsame, Hlive in Hnone.
    discriminate Hnone.
    apply list_elem_of_In, elem_of_map_to_list, lookup_insert_eq.
Qed.

Lemma storedRow_same (d : MediaService.draws) (buffer : bytes)
    (originalName mimeType uploadedBy : string)
    (options : MediaService.MediaProcessingOptions)
    (thumbnailData : option bytes) :
  Storage.sameHashAndOwner (sha256Hex buffer) uploadedBy
    (storedRow d buffer originalName mimeType uploadedBy options thumbnailData)
  = true.
Proof.
  unfold Storage.sameHashAndOwner, storedRow.
  cbn [MediaFile.sha256Hash MediaFile.uploadedBy].
  rewrite !String.eqb_refl. reflexivity.
Qed.

End Stored.

Section ReadBack.
Context {rt : NodeCrypto} {laws : NodeCryptoLaws rt} {img : Sharp}.

Lemma encryptBuffer_not_nil (salt iv plain : bytes) (k : string) :
  length salt = 32%nat ->
  CryptoService.encryptBuffer salt iv plain k <> [].
Proof.
  intros Hs Hnil. apply (f_equal length) in Hnil.
  rewrite encryptBuffer_length in Hnil. cbn in Hnil. lia.
Qed.

Lemma encryptString_truthy (salt iv : bytes) (text k : string) :
  base64Decode EmptyString = [] ->
  length salt = 32%nat ->
  Js.truthy (Some (CryptoService.encryptString salt iv text k)) = true.
Proof.
  intros Hempty Hs. unfold CryptoService.encryptString.
  destruct (base64Encode _) eqn:Henc; [|reflexivity].
  exfalso. apply (encryptBuffer_not_nil salt iv (utf8Encode text) k Hs).
  rewrite <- (base64_roundtrip (CryptoService.encryptBuffer _ _ _ _)), Henc.
  exact Hempty.
Qed.

Lemma truthy_default (o : option string) :
  Js.truthy o = true -> o = Some (default EmptyString o).
Proof. destruct o as [[|]|]; cbn; congruence. Qed.




(** X15.  The thumbnail of an upload comes back unchanged from
    [getThumbnail] for its uploader; for an encrypted upload the stored
    thumbnail is the AEAD frame of the thumbnail under the same content key
    as the file, and the one wrapped key serves both. *)
Theorem upload_then_thumbnail (d : MediaService.draws) (buffer : bytes)
    (originalName mimeType uploadedBy : string)
    (options : MediaService.MediaProcessingOptions) (s s' : server)
    (result : MediaService.MediaUploadResult) (thumbnail : bytes) :
  MediaService.processFile d buffer originalName mimeType uploadedBy options s
    = (Ok result, s') ->
  MediaService.isDuplicate result = false ->
  MediaService.processMedia buffer mimeType
    (MediaService.generateThumbnail options)
    (MediaService.thumbnailSize options) = Ok (Some thumbnail) ->
  base64Decode EmptyString = [] ->
  (MediaService.encryptContent options = true ->
   Js.truthy (MediaService.encryptionKey options) = true
   /\ length (MediaService.thumbnailSalt d) = 32%nat
   /\ length (MediaService.thumbnailIv d) = 16%nat
   /\ length (MediaService.keySalt d) = 32%nat
   /\ length (MediaService.keyIv d) = 16%nat) ->
  MediaService.getThumbnail (MediaService.id result) uploadedBy
    (MediaService.encryptContent options)
    (MediaService.vaultPassphrase options) s'
  = Ok (Some thumbnail)
  /\ (MediaService.encryptContent options = true ->
      (Storage.getMediaFile (MediaService.id result) s')
        ≫= MediaFile.thumbnailData
      = Some (CryptoService.encryptBuffer (MediaService.thumbnailSalt d)
                (MediaService.thumbnailIv d) thumbnail
                (default EmptyString (MediaService.encryptionKey options)))).
Proof.
  intros Hrun Hnew Hmedia Hempty Hdraws.
  destruct (processFile_stored _ _ _ _ _ _ _ _ _ Hrun Hnew)
    as (thumbnailData & Hmedia' & -> & _ & _ & Hpass & ->).
  rewrite Hmedia in Hmedia'. injection Hmedia' as <-.
  unfold MediaService.getThumbnail, Storage.getMediaFile.
  cbn [MediaService.id mediaFiles setMediaFiles].
  rewrite lookup_insert_eq. unfold storedRow. cbv zeta.
  cbn [MediaFile.uploadedBy MediaFile.isEncrypted MediaFile.thumbnailData
       option_bind mbind option_map].
  destruct (MediaService.encryptContent options) eqn:Henc.
  - destruct (Hdraws eq_refl) as (Hkey & Hts & Hti & Hks & Hki).
    rewrite (Hpass eq_refl), Hkey. cbn [andb option_map].
    rewrite String.eqb_refl. cbn [negb andb].
    unfold MediaService.unwrapAndDecrypt.
    cbn [MediaFile.encryptionKey].
    rewrite (encryptString_truthy _ _ _ _ Hempty Hks).
    cbn [negb from_option Datatypes.id].
    rewrite decryptString_encryptString by assumption. cbn [bind].
    rewrite encryptBuffer_roundtrip by assumption.
    split; reflexivity.
  - cbn [andb negb]. rewrite String.eqb_refl. cbn [negb].
    split; [reflexivity | discriminate].
Qed.

End ReadBack.

Lemma upload_then_thumbnail_witness :
  MediaService.getThumbnail (rt := ToyRuntime.crypto)
    (img := ToyRuntime.sharp) Scenario.photoId Scenario.alice true
    (Some Scenario.passphrase) Uploads.picture.2
  = Ok (Some [x89; x50; x4e; x47]).
Proof.
  refine (proj1 (upload_then_thumbnail (rt := ToyRuntime.crypto)
            (laws := toy_crypto_laws) (img := ToyRuntime.sharp)
            Scenario.photoDraws (Routes.fileBuffer Scenario.photo) "photo.png"
            "image/png" Scenario.alice Uploads.encrypted Uploads.notes.2
            Uploads.picture.2 (Uploads.resultOf Uploads.picture.1)
            [x89; x50; x4e; x47] _ _ _ _ _)); first [evaluate | intros _; repeat split; reflexivity].
Defined.


Section Duplicates.
Context {rt : NodeCrypto} {img : Sharp}.

(** X16.  Duplicate detection.  Once [processFile] has stored a file as a
    new row, every later [processFile] of the same bytes by the same
    uploader, under whatever name, type and options, answers with that
    row's id and [isDuplicate: true], and stores nothing. *)
Theorem second_upload_is_duplicate (d d2 : MediaService.draws) (buffer : bytes)
    (originalName mimeType uploadedBy originalName2 mimeType2 : string)
    (options options2 : MediaService.MediaProcessingOptions) (s s' : server)
    (result : MediaService.MediaUploadResult) :
  MediaService.processFile d buffer originalName mimeType uploadedBy options s
    = (Ok result, s') ->
  MediaService.isDuplicate result = false ->
  MediaService.processFile d2 buffer originalName2 mimeType2 uploadedBy
    options2 s'
  = (Ok (MediaService.mkUploadResult (MediaService.id result)
           (MediaService.sha256Hash result) true false), s').
Proof.
  intros Hrun Hnew.
  destruct (processFile_stored _ _ _ _ _ _ _ _ _ Hrun Hnew)
    as (thumbnailData & _ & -> & _ & Hunique & _ & ->).
  unfold MediaService.processFile.
  rewrite (getMediaFileByHash_stored _ _ _ _ _ Hunique
             (storedRow_same _ _ _ _ _ _ _) eq_refl).
  reflexivity.
Qed.



(** X17.  A duplicate answer always names a row of the uploader: when
    [processFile] answers [isDuplicate: true], nothing was stored, and the
    id it returns is that of a row with the same hash, owned by the same
    uploader and not deleted; a file of another user is never returned. *)
Theorem duplicate_is_own_row (d : MediaService.draws) (buffer : bytes)
    (originalName mimeType uploadedBy : string)
    (options : MediaService.MediaProcessingOptions) (s s' : server)
    (result : MediaService.MediaUploadResult) :
  MediaService.processFile d buffer originalName mimeType uploadedBy options s
    = (Ok result, s') ->
  MediaService.isDuplicate result = true ->
  s' = s
  /\ exists row,
       mediaFiles s !! MediaService.id result = Some row
       /\ MediaFile.uploadedBy row = uploadedBy
       /\ MediaFile.sha256Hash row = sha256Hex buffer
       /\ MediaFile.isDeleted row = false.
Proof.
  assert (Hfound : forall hit,
            Storage.getMediaFileByHash (sha256Hex buffer) uploadedBy s
              = Some hit ->
            mediaFiles s !! hit.1 = Some hit.2
            /\ MediaFile.uploadedBy hit.2 = uploadedBy
            /\ MediaFile.sha256Hash hit.2 = sha256Hex buffer
            /\ MediaFile.isDeleted hit.2 = false).
  { intros [k row] Hfind. unfold Storage.getMediaFileByHash in Hfind.
    apply find_some in Hfind as [Hin Hp]. cbn [fst snd] in *.
    apply list_elem_of_In, elem_of_map_to_list in Hin.
    apply andb_prop in Hp as [Hsame Hlive].
    apply andb_prop in Hsame as [Hhash Howner].
    apply String.eqb_eq in Hhash, Howner.
    apply negb_true_iff in Hlive. auto. }
  unfold MediaService.processFile.
  destruct (Storage.getMediaFileByHash _ _ s) as [hit|] eqn:Hhit.
  { intros [= <- <-] _. split; [reflexivity|].
    exists hit.2. exact (Hfound hit eq_refl). }
  destruct (MediaService.processMedia _ _ _ _) as [thumbnailData|m];
    [|discriminate].
  match goal with
  | |- context [match ?e with Ok _ => _ | Throw _ => _ end] =>
      destruct e as [[[processed key] thumb]|m]
  end; [|discriminate].
  unfold Storage.createMediaFile.
  match goal with
  | |- context [if ?c then _ else _] => destruct c
  end.
  - rewrite Hhit. destruct (MediaService.isUniqueViolation _); discriminate.
  - cbn [fst snd]. intros [= <- <-]. discriminate.
Qed.



(** X18.  [processFile] stores all or nothing: when it throws, whatever the
    reason (the image library, a missing passphrase, a vault that is not
    set up, the database), the state is the one it started from; a request
    for encryption without a passphrase, and one with key and passphrase
    for a user without a vault, are refused with their own messages. *)
Theorem processFile_throws_store_nothing (d : MediaService.draws)
    (buffer : bytes) (originalName mimeType uploadedBy : string)
    (options : MediaService.MediaProcessingOptions) (s : server) :
  let run :=
    MediaService.processFile d buffer originalName mimeType uploadedBy
      options s in
  (forall m, run.1 = Throw m -> run.2 = s)
  /\ (forall thumbnailData,
        Storage.getMediaFileByHash (sha256Hex buffer) uploadedBy s = None ->
        MediaService.processMedia buffer mimeType
          (MediaService.generateThumbnail options)
          (MediaService.thumbnailSize options) = Ok thumbnailData ->
        MediaService.encryptContent options = true ->
        (Js.truthy (MediaService.vaultPassphrase options) = false ->
         run = (Throw "Vault passphrase is required for encrypted content", s))
        /\ (Js.truthy (MediaService.vaultPassphrase options) = true ->
            Js.truthy (MediaService.encryptionKey options) = true ->
            Js.truthy (Storage.getUser uploadedBy s ≫= User.vaultPassphrase)
              = false ->
            run = (Throw "User vault must be set up before encrypting content",
                   s))).
Proof.
  cbv zeta. split.
  - intros m. unfold MediaService.processFile.
    destruct (Storage.getMediaFileByHash _ _ s) eqn:Hhit; [discriminate|].
    destruct (MediaService.processMedia _ _ _ _); [|reflexivity].
    match goal with
    | |- context [match ?e with Ok _ => _ | Throw _ => _ end] =>
        destruct e as [[[processed key] thumb]|m']
    end; [|reflexivity].
    unfold Storage.createMediaFile.
    match goal with
    | |- context [if ?c then _ else _] => destruct c
    end.
    + rewrite Hhit. destruct (MediaService.isUniqueViolation _); reflexivity.
    + discriminate.
  - intros thumbnailData Hhit Hmedia Henc. unfold MediaService.processFile.
    rewrite Hhit, Hmedia, Henc. split.
    + intros Hpass. rewrite Hpass, andb_false_r. reflexivity.
    + intros Hpass Hkey Hvault. rewrite Hpass, Hkey. cbn [andb].
      unfold Storage.getUser in *.
      destruct (users s !! uploadedBy) as [user|]; [|reflexivity].
      cbn [option_bind mbind] in Hvault. rewrite Hvault. reflexivity.
Qed.

End Duplicates.

Lemma duplicate_is_own_row_witness :
  Uploads.again.2 = Uploads.notes.2.
Proof.
  refine (proj1 (duplicate_is_own_row (rt := ToyRuntime.crypto)
            (img := ToyRuntime.sharp) Scenario.photoDraws Scenario.tenBytes
            "copy.bin" "application/octet-stream" Scenario.alice
            Uploads.asItCame Uploads.notes.2 Uploads.again.2
            (Uploads.resultOf Uploads.again.1) _ _)); evaluate.
Defined.

Lemma second_upload_is_duplicate_witness :
  Uploads.again
  = (Ok (MediaService.mkUploadResult Scenario.mediaId
           (MediaService.sha256Hash (Uploads.resultOf Uploads.notes.1))
           true false), Uploads.notes.2).
Proof.
  refine (second_upload_is_duplicate (rt := ToyRuntime.crypto)
            (img := ToyRuntime.sharp) Scenario.uploadDraws Scenario.photoDraws
            Scenario.tenBytes "notes.bin" "application/octet-stream"
            Scenario.alice "copy.bin" "application/octet-stream"
            Uploads.encrypted Uploads.asItCame Scenario.unlocked
            Uploads.notes.2 (Uploads.resultOf Uploads.notes.1) _ _); evaluate.
Defined.

Section MoreMedia.
Context {rt : NodeCrypto} {img : Sharp}.




(** X20.  [validateHashIntegrity] after an upload: it passes for a file
    stored as it came; for a file stored encrypted it hashes the stored
    AEAD frame and compares with the hash of the plaintext, so it passes
    only if those two hashes coincide. *)
Theorem validateHashIntegrity_after_upload (d : MediaService.draws)
    (buffer : bytes) (originalName mimeType uploadedBy : string)
    (options : MediaService.MediaProcessingOptions) (s s' : server)
    (result : MediaService.MediaUploadResult) :
  MediaService.processFile d buffer originalName mimeType uploadedBy options s
    = (Ok result, s') ->
  MediaService.isDuplicate result = false ->
  (MediaService.encryptContent options = false ->
   MediaAdmin.validateHashIntegrity (MediaService.id result) s' = true)
  /\ (MediaService.encryptContent options = true ->
      Js.truthy (MediaService.encryptionKey options) = true ->
      (MediaAdmin.validateHashIntegrity (MediaService.id result) s' = true
       <-> sha256Hex
             (CryptoService.encryptBuffer (MediaService.contentSalt d)
                (MediaService.contentIv d) buffer
                (default EmptyString (MediaService.encryptionKey options)))
           = sha256Hex buffer)).
Proof.
  intros Hrun Hnew.
  destruct (processFile_stored _ _ _ _ _ _ _ _ _ Hrun Hnew)
    as (thumbnailData & _ & -> & _ & _ & Hpass & ->).
  unfold MediaAdmin.validateHashIntegrity, Storage.getMediaFile.
  cbn [MediaService.id mediaFiles setMediaFiles].
  rewrite lookup_insert_eq. unfold storedRow. cbv zeta.
  cbn [MediaFile.binaryData MediaFile.sha256Hash]. split.
  - intros ->. cbn [andb]. apply String.eqb_refl.
  - intros Henc Hkey. rewrite Henc, Hkey, (Hpass Henc). cbn [andb].
    apply String.eqb_eq.
Qed.



Lemma getMediaContent_markDeleted (id target caller : string) (decrypt : bool)
    (vaultPassphrase : option string) (s : server) :
  MediaService.getMediaContent id caller decrypt vaultPassphrase
    (MediaAdmin.deleteMediaFile target s).2
  = MediaService.getMediaContent id caller decrypt vaultPassphrase s.
Proof.
  unfold MediaAdmin.deleteMediaFile, MediaService.getMediaContent,
    Storage.getMediaFile.
  destruct (mediaFiles s !! target) as [f|] eqn:Hf; [|reflexivity].
  cbn [snd mediaFiles setMediaFiles].
  destruct (decide (target = id)) as [->|Hne].
  - rewrite lookup_insert_eq, Hf. reflexivity.
  - rewrite lookup_insert_ne by exact Hne. reflexivity.
Qed.

Lemma getThumbnail_markDeleted (id target caller : string) (decrypt : bool)
    (vaultPassphrase : option string) (s : server) :
  MediaService.getThumbnail id caller decrypt vaultPassphrase
    (MediaAdmin.deleteMediaFile target s).2
  = MediaService.getThumbnail id caller decrypt vaultPassphrase s.
Proof.
  unfold MediaAdmin.deleteMediaFile, MediaService.getThumbnail,
    Storage.getMediaFile.
  destruct (mediaFiles s !! target) as [f|] eqn:Hf; [|reflexivity].
  cbn [snd mediaFiles setMediaFiles].
  destruct (decide (target = id)) as [->|Hne].
  - rewrite lookup_insert_eq, Hf. reflexivity.
  - rewrite lookup_insert_ne by exact Hne. reflexivity.
Qed.

(** X21.  DELETE /api/media/:id: a caller who neither uploaded the file
    nor has the role [admin] is answered 403 and nothing changes; the
    uploader, and an administrator, are answered [success: true], and the
    only change is that the row is marked deleted: its bytes, its wrapped
    key and every other row, user and token stay as they were. *)
Theorem deleteMedia_spec (userId id : string) (mediaFile : MediaFile.t)
    (s : server) :
  Routes.isValidUUID id = true ->
  mediaFiles s !! id = Some mediaFile ->
  let admin := bool_decide (Storage.getUser userId s ≫= User.role = Some "admin") in
  (MediaFile.uploadedBy mediaFile <> userId -> admin = false ->
   MediaAdmin.deleteMedia userId id s
   = (MediaAdmin.Refused (json 403 "Unauthorized to delete this file"), s))
  /\ (MediaFile.uploadedBy mediaFile = userId \/ admin = true ->
      let s' := (MediaAdmin.deleteMedia userId id s).2 in
      (MediaAdmin.deleteMedia userId id s).1 = MediaAdmin.Deleted true
      /\ mediaFiles s' !! id = Some (MediaAdmin.markDeleted mediaFile)
      /\ MediaFile.binaryData (MediaAdmin.markDeleted mediaFile)
         = MediaFile.binaryData mediaFile
      /\ MediaFile.encryptionKey (MediaAdmin.markDeleted mediaFile)
         = MediaFile.encryptionKey mediaFile
      /\ (forall other, other <> id ->
            mediaFiles s' !! other = mediaFiles s !! other)
      /\ users s' = users s
      /\ vaultTokenStore s' = vaultTokenStore s).
Proof.
  intros Hid Hfile. cbv zeta. unfold MediaAdmin.deleteMedia.
  rewrite Hid. unfold Storage.getMediaFile. rewrite Hfile. cbn [negb].
  split.
  - intros Hne Hadmin. rewrite Hadmin.
    replace (String.eqb (MediaFile.uploadedBy mediaFile) userId) with false
      by (symmetry; apply String.eqb_neq; exact Hne).
    reflexivity.
  - intros Hallowed.
    assert (Hgate : negb (String.eqb (MediaFile.uploadedBy mediaFile) userId)
                    && negb (bool_decide
                               (Storage.getUser userId s ≫= User.role
                                = Some "admin")) = false).
    { destruct Hallowed as [Hown|Hadmin].
      - apply String.eqb_eq in Hown. rewrite Hown. reflexivity.
      - rewrite Hadmin. apply andb_false_r. }
    rewrite Hgate. unfold MediaAdmin.deleteMediaFile. rewrite Hfile.
    cbn [fst snd mediaFiles users vaultTokenStore setMediaFiles].
    split; [reflexivity|]. split; [apply lookup_insert_eq|].
    split; [reflexivity|]. split; [reflexivity|]. split; [|auto].
    intros other Hne. apply lookup_insert_ne. congruence.
Qed.



(** X22.  Deleting is soft, and the reads do not look at the mark: after
    [deleteMediaFile], [getMediaContent] and [getThumbnail] return for
    every id, caller, flag and passphrase what they returned before, the
    deleted file included. *)
Theorem reads_ignore_deletion (target id caller : string) (decrypt : bool)
    (vaultPassphrase : option string) (s : server) :
  MediaService.getMediaContent id caller decrypt vaultPassphrase
    (MediaAdmin.deleteMediaFile target s).2
  = MediaService.getMediaContent id caller decrypt vaultPassphrase s
  /\ MediaService.getThumbnail id caller decrypt vaultPassphrase
       (MediaAdmin.deleteMediaFile target s).2
     = MediaService.getThumbnail id caller decrypt vaultPassphrase s.
Proof.
  split; [apply getMediaContent_markDeleted | apply getThumbnail_markDeleted].
Qed.

(** X23.  Uploading again what was deleted.  When the only row with the
    hash of some bytes for an uploader has been soft-deleted, the duplicate
    lookup no longer finds it but the unique constraint on (hash, uploader)
    still holds it: the lookup returns nothing, every insert of a row with
    this hash and uploader is refused, and so every later [processFile] of
    these bytes by this uploader throws and stores nothing. *)
Theorem upload_after_delete (d : MediaService.draws) (buffer : bytes)
    (originalName mimeType uploadedBy id : string)
    (options : MediaService.MediaProcessingOptions)
    (mediaFile : MediaFile.t) (s : server) :
  mediaFiles s !! id = Some mediaFile ->
  Storage.sameHashAndOwner (sha256Hex buffer) uploadedBy mediaFile = true ->
  (forall other row,
     other <> id -> mediaFiles s !! other = Some row ->
     Storage.sameHashAndOwner (sha256Hex buffer) uploadedBy row = false) ->
  let s1 := (MediaAdmin.deleteMediaFile id s).2 in
  let run :=
    MediaService.processFile d buffer originalName mimeType uploadedBy
      options s1 in
  (exists m, run = (Throw m, s1))
  /\ Storage.getMediaFileByHash (sha256Hex buffer) uploadedBy s1 = None
  /\ (forall newId file,
        Storage.sameHashAndOwner (sha256Hex buffer) uploadedBy file = true ->
        exists m, Storage.createMediaFile newId file s1 = (Throw m, s1)).
Proof.
  intros Hfile Hsame Hothers. cbv zeta.
  unfold MediaAdmin.deleteMediaFile. rewrite Hfile. cbn [snd].
  set (s1 := setMediaFiles _ s).
  assert (Hrow : mediaFiles s1 !! id = Some (MediaAdmin.markDeleted mediaFile))
    by apply lookup_insert_eq.
  assert (Hnone : Storage.getMediaFileByHash (sha256Hex buffer) uploadedBy s1
                  = None).
  { unfold Storage.getMediaFileByHash.
    destruct (find _ _) as [[k r]|] eqn:Hfind; [|reflexivity].
    exfalso. apply find_some in Hfind as [Hin Hp].
    apply list_elem_of_In, elem_of_map_to_list in Hin.
    apply andb_prop in Hp as [Hp Hlive]. cbn [snd] in Hp, Hlive.
    destruct (decide (k = id)) as [->|Hne].
    - rewrite Hrow in Hin. injection Hin as <-. discriminate Hlive.
    - subst s1. cbn [mediaFiles setMediaFiles] in Hin.
      rewrite lookup_insert_ne in Hin by congruence.
      rewrite (Hothers k r Hne Hin) in Hp. discriminate Hp. }
  assert (Hclash : forall newId file,
            MediaFile.sha256Hash file = sha256Hex buffer ->
            MediaFile.uploadedBy file = uploadedBy ->
            Storage.createMediaFile newId file s1
            = (Throw (uniqueViolation
                        (if bool_decide (is_Some (mediaFiles s1 !! newId))
                         then "media_files_pkey"
                         else "unique_media_files_sha256_uploaded_by")),
               s1)).
  { intros newId file Hh Hu. unfold Storage.createMediaFile.
    assert (Hex : existsb
                    (fun row : string * MediaFile.t =>
                       Storage.sameHashAndOwner (MediaFile.sha256Hash file)
                         (MediaFile.uploadedBy file) row.2)
                    (map_to_list (mediaFiles s1)) = true).
    { apply existsb_exists. exists (id, MediaAdmin.markDeleted mediaFile).
      split; [apply list_elem_of_In, elem_of_map_to_list; exact Hrow|].
      rewrite Hh, Hu. exact Hsame. }
    rewrite Hex, orb_true_r. reflexivity. }
  split.
  - unfold MediaService.processFile. rewrite Hnone.
    destruct (MediaService.processMedia _ _ _ _) as [thumbnailData|m];
      [|eauto].
    match goal with
    | |- context [match ?e with Ok _ => _ | Throw _ => _ end] =>
        destruct e as [[[processed key] thumb]|m]
    end; [|eauto].
    rewrite Hclash by reflexivity. rewrite Hnone.
    destruct (MediaService.isUniqueViolation _); eauto.
  - split; [exact Hnone|].
    intros newId file Hfile'. unfold Storage.sameHashAndOwner in Hfile'.
    apply andb_prop in Hfile' as [Hh Hu].
    apply String.eqb_eq in Hh, Hu. eauto.
Qed.



Lemma getMediaThumbnail_resolved (now : Z) (caller id token : string)
    (authorization : option string) (s : server) :
  Routes.isValidUUID id = true ->
  Routes.extractVaultToken authorization = Some token ->
  Routes.getMediaThumbnail now caller id (Some "true") authorization s
  = match Routes.getVaultPassphrase now token caller (vaultTokenStore s) with
    | (Throw m, store) => (Routes.thumbnailError m, setTokenStore store s)
    | (Ok vaultPassphrase, store) =>
        if Js.truthy vaultPassphrase
        then
          match MediaService.getThumbnail id caller true vaultPassphrase
                  (setTokenStore store s) with
          | Throw m => (Routes.thumbnailError m, setTokenStore store s)
          | Ok None => (json 404 "Thumbnail not found", setTokenStore store s)
          | Ok (Some thumbnail) =>
              (mkResponse 200 (ThumbnailImage thumbnail),
               setTokenStore store s)
          end
        else (json 401 "Invalid or expired vault token", setTokenStore store s)
    end.
Proof.
  intros Hid Htok. unfold Routes.getMediaThumbnail, Routes.resolveVaultToken.
  rewrite Hid, Htok. cbn [negb default String.eqb Ascii.eqb Bool.eqb].
  destruct (Routes.getVaultPassphrase now token caller (vaultTokenStore s))
    as [[[[|c p]|]|m] store]; reflexivity.
Qed.

(** X24.  GET /api/media/:id/thumbnail answers a failed decryption with
    403: when an encrypted object of the caller with a thumbnail is read
    with [decrypt=true] under a valid token of the caller and the decrypt
    chain throws, the answer is 403 "Invalid vault passphrase for thumbnail
    decryption", and no bytes. *)
Theorem getMediaThumbnail_decrypt_failure_is_403
    (now : Z) (caller id token m : string) (authorization : option string)
    (record : TokenData.t) (mediaFile : MediaFile.t) (thumbnail : bytes)
    (s : server) :
  Routes.isValidUUID id = true ->
  Routes.extractVaultToken authorization = Some token ->
  vaultTokenStore s !! token = Some record ->
  now <= TokenData.expiresAt record ->
  TokenData.userId record = caller ->
  Js.truthy (Some (TokenData.passphrase record)) = true ->
  mediaFiles s !! id = Some mediaFile ->
  MediaFile.thumbnailData mediaFile = Some thumbnail ->
  MediaFile.uploadedBy mediaFile = caller ->
  MediaFile.isEncrypted mediaFile = true ->
  MediaService.unwrapAndDecrypt mediaFile thumbnail
    (TokenData.passphrase record) = Throw m ->
  (Routes.getMediaThumbnail now caller id (Some "true") authorization s).1
  = json 403 "Invalid vault passphrase for thumbnail decryption".
Proof.
  intros Hid Htok Hrec Hlive Huser Hpass Hfile Hthumb Hown Henc Hfail.
  rewrite (getMediaThumbnail_resolved _ _ _ token) by assumption.
  rewrite (getVaultPassphrase_owner _ _ _ record) by assumption.
  rewrite Hpass.
  rewrite (getThumbnail_decrypt_failure _ _ _ m mediaFile thumbnail)
    by assumption.
  reflexivity.
Qed.



(** X25.  The ownership gate comes before everything else: for a row that
    the caller did not upload, [getMediaContent] throws "Access denied",
    whatever the [decrypt] flag, the passphrase and the encryption state
    of the row, and so does [getThumbnail] when the row has a thumbnail;
    both routes answer 403 with that message. *)
Theorem reads_denied_to_others (now : Z) (id caller : string)
    (mediaFile : MediaFile.t) (s : server) :
  Storage.getMediaFile id s = Some mediaFile ->
  MediaFile.uploadedBy mediaFile <> caller ->
  (forall decrypt vaultPassphrase,
     MediaService.getMediaContent id caller decrypt vaultPassphrase s
     = Throw "Access denied: You do not own this media file"
     /\ (is_Some (MediaFile.thumbnailData mediaFile) ->
         MediaService.getThumbnail id caller decrypt vaultPassphrase s
         = Throw "Access denied: You do not own this media file"))
  /\ (forall decryptQuery authorization,
        Routes.isValidUUID id = true ->
        decryptQuery <> Some "true" ->
        Routes.getMedia now caller id decryptQuery authorization s
        = (json 403 "Access denied: You do not own this media file", s)
        /\ (is_Some (MediaFile.thumbnailData mediaFile) ->
            Routes.getMediaThumbnail now caller id decryptQuery authorization s
            = (json 403 "Access denied: You do not own this media file", s))).
Proof.
  intros Hfile Hne.
  assert (Heqb : String.eqb (MediaFile.uploadedBy mediaFile) caller = false)
    by (apply String.eqb_neq; exact Hne).
  assert (Hcontent : forall decrypt vaultPassphrase,
            MediaService.getMediaContent id caller decrypt vaultPassphrase s
            = Throw "Access denied: You do not own this media file").
  { intros. unfold MediaService.getMediaContent. rewrite Hfile, Heqb.
    reflexivity. }
  assert (Hthumb : forall decrypt vaultPassphrase,
            is_Some (MediaFile.thumbnailData mediaFile) ->
            MediaService.getThumbnail id caller decrypt vaultPassphrase s
            = Throw "Access denied: You do not own this media file").
  { intros decrypt vp [t Ht]. unfold MediaService.getThumbnail.
    rewrite Hfile, Ht, Heqb. reflexivity. }
  assert (Hquery : forall decryptQuery,
             decryptQuery <> Some "true" ->
             String.eqb (default "false" decryptQuery) "true" = false).
  { intros [q|] Hq; [|reflexivity]. apply String.eqb_neq. cbn. congruence. }
  split; [auto|].
  intros decryptQuery authorization Hid Hq. split.
  - unfold Routes.getMedia. rewrite Hid, (Hquery _ Hq). cbn [negb].
    rewrite Hcontent. reflexivity.
  - intros Hsome. unfold Routes.getMediaThumbnail.
    rewrite Hid, (Hquery _ Hq). cbn [negb].
    rewrite (Hthumb _ _ Hsome). reflexivity.
Qed.

End MoreMedia.

Lemma reads_denied_to_others_witness :
  MediaService.getMediaContent (rt := ToyRuntime.crypto) Scenario.mediaId
    Scenario.bob false None Uploads.notes.2
  = Throw "Access denied: You do not own this media file".
Proof.
  refine (proj1 (proj1 (reads_denied_to_others (rt := ToyRuntime.crypto)
            (img := ToyRuntime.sharp) 3000 Scenario.mediaId Scenario.bob
            (Scenario.rowOf Scenario.mediaId Uploads.notes.2)
            Uploads.notes.2 _ _) false None)); evaluate.
Defined.

Lemma getMediaThumbnail_decrypt_failure_is_403_witness :
  (Routes.getMediaThumbnail (rt := ToyRuntime.crypto)
     (img := ToyRuntime.sharp) 6000 Scenario.alice Scenario.photoId
     (Some "true") Rekeyed.authorization Uploads.rekeyed).1
  = json 403 "Invalid vault passphrase for thumbnail decryption".
Proof.
  refine (getMediaThumbnail_decrypt_failure_is_403 (rt := ToyRuntime.crypto)
            (img := ToyRuntime.sharp) 6000 Scenario.alice Scenario.photoId
            Rekeyed.token
            "Decryption failed: Invalid passphrase or corrupted data"
            Rekeyed.authorization
            (TokenData.mk Scenario.alice Rekeyed.passphrase 1805000)
            (Scenario.rowOf Scenario.photoId Uploads.rekeyed)
            (default [] (MediaFile.thumbnailData
                           (Scenario.rowOf Scenario.photoId Uploads.rekeyed)))
            Uploads.rekeyed _ _ _ _ _ _ _ _ _ _ _); evaluate.
Defined.

Lemma upload_after_delete_witness :
  Storage.getMediaFileByHash
    (sha256Hex (NodeCrypto := ToyRuntime.crypto) Scenario.tenBytes)
    Scenario.alice
    (MediaAdmin.deleteMediaFile Scenario.mediaId Uploads.notes.2).2
  = None.
Proof.
  assert (Hone : mediaFiles Uploads.notes.2
                 = {[ Scenario.mediaId
                      := Scenario.rowOf Scenario.mediaId Uploads.notes.2 ]})
    by evaluate.
  destruct (upload_after_delete (rt := ToyRuntime.crypto)
              (img := ToyRuntime.sharp) Scenario.photoDraws Scenario.tenBytes
              "notes.bin" "application/octet-stream" Scenario.alice
              Scenario.mediaId Uploads.asItCame
              (Scenario.rowOf Scenario.mediaId Uploads.notes.2)
              Uploads.notes.2) as (_ & Hlookup & _).
  - evaluate.
  - evaluate.
  - intros other row Hne Hrow. rewrite Hone in Hrow.
    rewrite lookup_singleton_ne in Hrow by congruence. discriminate Hrow.
  - exact Hlookup.
Defined.

Lemma deleteMedia_spec_witness :
  MediaAdmin.deleteMedia Scenario.bob Scenario.mediaId Uploads.notes.2
  = (MediaAdmin.Refused (json 403 "Unauthorized to delete this file"),
     Uploads.notes.2)
  /\ (MediaAdmin.deleteMedia Scenario.alice Scenario.mediaId Uploads.notes.2).1
     = MediaAdmin.Deleted true.
Proof.
  split.
  - refine (proj1 (deleteMedia_spec Scenario.bob Scenario.mediaId
              (Scenario.rowOf Scenario.mediaId Uploads.notes.2)
              Uploads.notes.2 _ _) _ _); evaluate.
  - refine (proj1 (proj2 (deleteMedia_spec Scenario.alice Scenario.mediaId
              (Scenario.rowOf Scenario.mediaId Uploads.notes.2)
              Uploads.notes.2 _ _) _)); try evaluate.
    left. evaluate.
Defined.

Lemma validateHashIntegrity_after_upload_witness :
  MediaAdmin.validateHashIntegrity (rt := ToyRuntime.crypto) Scenario.plainId
    Uploads.readme.2 = true.
Proof.
  refine (proj1 (validateHashIntegrity_after_upload (rt := ToyRuntime.crypto)
            (img := ToyRuntime.sharp) Scenario.plainDraws
            (Routes.fileBuffer Scenario.plain) "readme.txt" "text/plain"
            Scenario.alice Uploads.asItCame Uploads.notes.2 Uploads.readme.2
            (Uploads.resultOf Uploads.readme.1) _ _) _); evaluate.
Defined.


(** * The category tree of storage.ts *)

(** ** The [uuid] type *)

Example uuid_cases :
  Uuid.canon Shelves.berlin = Some Shelves.berlin
  /\ Uuid.canon Shelves.berlinUpper = Some Shelves.berlin
  /\ Uuid.canon Shelves.berlinBraces = Some Shelves.berlin
  /\ Uuid.canon "6f1c2a9e0b5d-4c3a8e21-1a2b3c4d5e03" = Some Shelves.berlin
  /\ Uuid.canon "6f1c2a9e-0b5d-4c3a-8e21-1a2b3c4d5e0" = None
  /\ Uuid.canon "6f1c2a9e-0b5d-4c3a-8e21-1a2b3c4d5e03-" = None
  /\ Uuid.canon "6f1-c2a9e0b5d4c3a8e211a2b3c4d5e03" = None
  /\ Uuid.canon "{6f1c2a9e-0b5d-4c3a-8e21-1a2b3c4d5e03" = None
  /\ Uuid.canon "attic" = None
  /\ Uuid.canon "" = None.
Proof. repeat split; vm_compute; reflexivity. Qed.

Lemma hexDigit_not_hyphen (x : byte) :
  Ascii.eqb (Buffer.hexDigit (Byte.to_N x / 16)) "-"%char = false
  /\ Ascii.eqb (Buffer.hexDigit (Byte.to_N x / 16)) "{"%char = false.
Proof. destruct x; vm_compute; auto. Qed.

Lemma read_write (data : bytes) (i : nat) (tail : list ascii) :
  (i + length data = 16)%nat ->
  Uuid.read (length data) i (Uuid.write i data ++ tail) = Some (data, tail).
Proof.
  revert i. induction data as [|x data IH]; intros i Hlen; [reflexivity|].
  cbn [length] in Hlen. cbn [length Uuid.write Uuid.read app].
  destruct (hex_byte x) as (Hhi & Hlo & Hx). rewrite Hhi, Hlo, Hx.
  destruct ((i =? 3)%nat || (i =? 5)%nat || (i =? 7)%nat || (i =? 9)%nat)
    eqn:Hgroup.
  - assert (Hodd : Nat.odd i = true /\ (i <? 15)%nat = true).
    { repeat (apply orb_prop in Hgroup as [Hgroup|Hgroup]);
        apply Nat.eqb_eq in Hgroup; subst i; split; reflexivity. }
    destruct Hodd as [Hodd Hlt].
    cbn [app]. rewrite Hodd, Hlt. cbn [Ascii.eqb Bool.eqb andb].
    rewrite IH by lia. reflexivity.
  - destruct data as [|y data].
    + cbn [Uuid.write app]. cbn [length] in Hlen.
      assert (i = 15%nat) as -> by lia.
      destruct tail as [|c tail]; [reflexivity|].
      cbn [Nat.odd Nat.even Nat.ltb Nat.leb negb andb].
      rewrite andb_false_r. reflexivity.
    + cbn [Uuid.write app].
      destruct (hexDigit_not_hyphen y) as [-> _]. cbn [andb].
      change (Buffer.hexDigit (Byte.to_N y / 16)
              :: Buffer.hexDigit (Byte.to_N y mod 16)
              :: (if (S i =? 3)%nat || (S i =? 5)%nat || (S i =? 7)%nat
                     || (S i =? 9)%nat
                  then "-"%char :: Uuid.write (S (S i)) data
                  else Uuid.write (S (S i)) data) ++ tail)
        with (Uuid.write (S i) (y :: data) ++ tail).
      rewrite IH by (cbn [length] in *; lia). reflexivity.
Qed.

Lemma read_length (n i : nat) (src rest : list ascii) (data : bytes) :
  Uuid.read n i src = Some (data, rest) -> length data = n.
Proof.
  revert i src rest data.
  induction n as [|n IH]; intros i src rest data H; cbn in H.
  - injection H as <- _. reflexivity.
  - destruct src as [|hi [|lo src]]; try discriminate.
    destruct (Buffer.hexValue hi); [|discriminate].
    destruct (Buffer.hexValue lo); [|discriminate].
    destruct (Byte.of_N _); [|discriminate].
    destruct (Uuid.read n (S i) _) as [[data' rest']|] eqn:Hread;
      [|discriminate].
    injection H as <- _. cbn [length]. f_equal. eapply IH, Hread.
Qed.

(** The database reads back what it has written. *)
Lemma parse_text (data : bytes) :
  length data = 16%nat -> Uuid.parse (Uuid.text data) = Some data.
Proof.
  intros Hlen. unfold Uuid.parse, Uuid.text.
  rewrite list_ascii_of_string_of_list_ascii.
  destruct data as [|x data]; [discriminate Hlen|].
  cbn [Uuid.write]. destruct (hexDigit_not_hyphen x) as [_ ->].
  change (Buffer.hexDigit (Byte.to_N x / 16)
          :: Buffer.hexDigit (Byte.to_N x mod 16)
          :: (if (0 =? 3)%nat || (0 =? 5)%nat || (0 =? 7)%nat || (0 =? 9)%nat
              then "-"%char :: Uuid.write 1 data
              else Uuid.write 1 data))
    with (Uuid.write 0 (x :: data)).
  rewrite <- (app_nil_r (Uuid.write 0 (x :: data))).
  rewrite <- Hlen at 1. rewrite read_write by (rewrite Hlen; reflexivity).
  rewrite bool_decide_eq_true_2 by reflexivity. reflexivity.
Qed.

Lemma parse_length (source : string) (data : bytes) :
  Uuid.parse source = Some data -> length data = 16%nat.
Proof.
  unfold Uuid.parse. cbv zeta.
  destruct (Uuid.read 16 0 _) as [[data' rest]|] eqn:Hread; [|discriminate].
  destruct (bool_decide _); [|discriminate].
  intros [= <-]. eapply read_length, Hread.
Qed.

(** The spelling that the database returns is one that it reads as
    itself. *)
Lemma canon_canonical (source id : string) :
  Uuid.canon source = Some id -> Categories.canonical id.
Proof.
  unfold Categories.canonical, Uuid.canon.
  destruct (Uuid.parse source) as [data|] eqn:Hparse; [|discriminate].
  intros [= <-]. rewrite parse_text by (eapply parse_length, Hparse).
  reflexivity.
Qed.

Lemma canon_truthy (source id : string) :
  Uuid.canon source = Some id -> Js.truthy (Some source) = true.
Proof. destruct source; [discriminate|reflexivity]. Qed.

(** ** The loop of [checkForCycles] *)

Lemma truthyId_Some (x : option string) (y : string) :
  Categories.truthyId x = Some y <-> x = Some y /\ Js.truthy (Some y) = true.
Proof.
  unfold Categories.truthyId. split.
  - destruct (Js.truthy x) eqn:Ht; [|discriminate].
    intros ->. auto.
  - intros [-> Ht]. rewrite Ht. reflexivity.
Qed.

Lemma truthyId_truthy (y : string) :
  Js.truthy (Some y) = true -> Categories.truthyId (Some y) = Some y.
Proof. intros Ht. apply truthyId_Some. auto. Qed.

Lemma canonical_truthy (id : string) :
  Categories.canonical id -> Categories.truthyId (Some id) = Some id.
Proof. intros Hid. eapply truthyId_truthy, canon_truthy, Hid. Qed.

Lemma selectById_canon (categories : Categories.table) (id key : string) :
  Uuid.canon id = Some key ->
  Categories.selectById categories id = Ok (categories !! key).
Proof. unfold Categories.selectById. intros ->. reflexivity. Qed.

Lemma parentOf_truthy (categories : Categories.table) (x p : string) :
  Categories.parentOf categories x = Some p -> Js.truthy (Some p) = true.
Proof. unfold Categories.parentOf. intros H%truthyId_Some. tauto. Qed.

Lemma parentOf_row (categories : Categories.table) (x p : string) :
  Categories.parentOf categories x = Some p ->
  exists row, categories !! x = Some row /\ Category.parentId row = Some p.
Proof.
  unfold Categories.parentOf. intros [H _]%truthyId_Some.
  destruct (categories !! x) as [row|]; [|discriminate].
  exists row. auto.
Qed.

Lemma parentOf_canonical (categories : Categories.table) (x p : string) :
  Categories.canonicalIds categories ->
  Categories.parentOf categories x = Some p -> Categories.canonical p.
Proof.
  intros Hids (row & Hrow & Hp)%parentOf_row.
  destruct (Hids x row Hrow) as [_ Hparent]. apply Hparent, Hp.
Qed.

Lemma messages_differ :
  Categories.cycleMessage <> Categories.descendantMessage.
Proof. discriminate. Qed.

Lemma walk_None (fuel : nat) (categories : Categories.table)
    (categoryId : string) (visited : gset string) :
  Categories.walk fuel categories categoryId visited None = Some (Ok tt).
Proof. destruct fuel; reflexivity. Qed.

Lemma walk_step (fuel : nat) (categories : Categories.table)
    (categoryId : string) (visited : gset string) (currentId : option string) :
  Categories.walk (S fuel) categories categoryId visited currentId
  = match Categories.truthyId currentId with
    | None => Some (Ok tt)
    | Some current =>
        if bool_decide (current ∈ visited)
        then Some (Throw Categories.cycleMessage)
        else if String.eqb current categoryId
        then Some (Throw Categories.descendantMessage)
        else
          match Categories.selectById categories current with
          | Throw message => Some (Throw message)
          | Ok parent =>
              Categories.walk fuel categories categoryId
                ({[current]} ∪ visited) (parent ≫= Category.parentId)
          end
    end.
Proof. reflexivity. Qed.

(** One more iteration allowed changes no result. *)
Lemma walk_S (fuel : nat) (categories : Categories.table) (categoryId : string)
    (visited : gset string) (currentId : option string) (r : result unit) :
  Categories.walk fuel categories categoryId visited currentId = Some r ->
  Categories.walk (S fuel) categories categoryId visited currentId = Some r.
Proof.
  revert visited currentId.
  induction fuel as [|fuel IH]; intros visited currentId.
  - cbn. destruct (Categories.truthyId currentId); [discriminate|auto].
  - intros H. cbn in H. cbn [Categories.walk].
    destruct (Categories.truthyId currentId) as [current|]; [|exact H].
    destruct (bool_decide (current ∈ visited)); [exact H|].
    destruct (String.eqb current categoryId); [exact H|].
    destruct (Categories.selectById categories current); [|exact H].
    apply IH in H. exact H.
Qed.

Lemma walk_le (fuel fuel' : nat) (categories : Categories.table)
    (categoryId : string) (visited : gset string) (currentId : option string)
    (r : result unit) :
  (fuel <= fuel')%nat ->
  Categories.walk fuel categories categoryId visited currentId = Some r ->
  Categories.walk fuel' categories categoryId visited currentId = Some r.
Proof.
  induction 1 as [|fuel' _ IH]; [auto|].
  intros H. apply walk_S, IH, H.
Qed.

(** An iteration that goes on has put the parent of a row into [visited]
    that was not there. *)
Lemma pending_step (visited : gset string) (categories : Categories.table)
    (key x : string) (row : Category.t) :
  categories !! key = Some row -> Category.parentId row = Some x ->
  x ∉ visited ->
  (size (Categories.pending ({[x]} ∪ visited) categories)
   < size (Categories.pending visited categories))%nat.
Proof.
  intros Hrow Hparent Hnew. apply map_subset_size.
  unfold Categories.pending, Categories.table in *. split.
  - apply map_subseteq_spec. intros i v [Hi Hp]%map_lookup_filter_Some.
    apply map_lookup_filter_Some. split; [exact Hi|].
    cbn in *. destruct (Category.parentId v) as [parent|]; [|exact Hp].
    apply negb_prop_intro. apply negb_prop_elim in Hp.
    intros Hin%bool_decide_unpack. apply Hp, bool_decide_pack.
    apply elem_of_union. auto.
  - intros Hsub. rewrite map_subseteq_spec in Hsub.
    assert (Hin : filter
                    (fun entry : string * Category.t =>
                       Is_true
                         match Category.parentId entry.2 with
                         | Some parent => negb (bool_decide (parent ∈ visited))
                         | None => false
                         end) categories !! key = Some row).
    { apply map_lookup_filter_Some. split; [exact Hrow|].
      cbn. rewrite Hparent. apply negb_prop_intro.
      intros Hin%bool_decide_unpack. auto. }
    apply Hsub, map_lookup_filter_Some in Hin as [_ Hp].
    cbn in Hp. rewrite Hparent in Hp. apply negb_prop_elim in Hp.
    apply Hp, bool_decide_pack, elem_of_union. left.
    apply elem_of_singleton. reflexivity.
Qed.

(** The loop ends. *)
Lemma walk_terminates (fuel : nat) (categories : Categories.table)
    (categoryId : string) (visited : gset string) (currentId : option string) :
  (forall x, currentId = Some x ->
     exists key row,
       categories !! key = Some row /\ Category.parentId row = Some x) ->
  (size (Categories.pending visited categories) < fuel)%nat ->
  is_Some (Categories.walk fuel categories categoryId visited currentId).
Proof.
  revert visited currentId.
  induction fuel as [|fuel IH]; intros visited currentId Hcur Hsize; [lia|].
  cbn [Categories.walk].
  destruct (Categories.truthyId currentId) as [current|] eqn:Ht; [|eauto].
  apply truthyId_Some in Ht as [-> _].
  destruct (bool_decide (current ∈ visited)) eqn:Hin; [eauto|].
  apply bool_decide_eq_false in Hin.
  destruct (String.eqb current categoryId); [eauto|].
  destruct (Categories.selectById categories current) as [parent|] eqn:Hsel;
    [|eauto].
  destruct (Hcur current eq_refl) as (key & row & Hrow & Hparent).
  pose proof (pending_step visited categories key current row Hrow Hparent Hin).
  apply IH; [|lia].
  intros x Hx. unfold Categories.selectById in Hsel.
  destruct (Uuid.canon current) as [k|]; [|discriminate].
  injection Hsel as <-.
  destruct (categories !! k) as [r|] eqn:Hk; [|discriminate].
  eauto.
Qed.

Lemma checkForCycles_is_Some (categories : Categories.table)
    (categoryId newParentId : string) :
  is_Some (Categories.checkForCycles categories categoryId newParentId).
Proof.
  unfold Categories.checkForCycles. rewrite walk_step.
  destruct (Categories.truthyId (Some newParentId)) as [current|];
    [|eauto].
  destruct (bool_decide (current ∈ ∅)); [eauto|].
  destruct (String.eqb current categoryId); [eauto|].
  destruct (Categories.selectById categories current) as [parent|] eqn:Hsel;
    [|eauto].
  apply walk_terminates.
  - intros x Hx. unfold Categories.selectById in Hsel.
    destruct (Uuid.canon current) as [k|]; [|discriminate].
    injection Hsel as <-.
    destruct (categories !! k) as [r|] eqn:Hk; [|discriminate].
    eauto.
  - assert (Hle : (size (Categories.pending ({[current]} ∪ ∅) categories)
                   <= size categories)%nat).
    { unfold Categories.pending, Categories.table.
      apply map_subseteq_size, map_filter_subseteq. }
    lia.
Qed.

Lemma validateCategoryData_is_Some (categories : Categories.table)
    (parentId categoryId : option string) :
  is_Some (Categories.validateCategoryData categories parentId categoryId).
Proof.
  unfold Categories.validateCategoryData.
  destruct (Categories.truthyId parentId) as [parent|]; [|eauto].
  destruct (bool_decide _); [eauto|].
  destruct (Categories.selectById categories parent) as [[row|]|]; eauto.
  destruct (Categories.truthyId categoryId); [|eauto].
  apply checkForCycles_is_Some.
Qed.

(** X26.  [checkForCycles] always returns or throws, also on a table that
    already holds a cycle and for ids in any spelling: the loop ends within
    two iterations more than the table has rows, and no larger bound gives
    another result.  So [validateCategoryData], [createCategory] and
    [updateCategory] always return or throw. *)
Theorem checkForCycles_terminates (categories : Categories.table)
    (categoryId newParentId : string) :
  is_Some (Categories.checkForCycles categories categoryId newParentId)
  /\ (forall fuel r,
        Categories.walk fuel categories categoryId ∅ (Some newParentId)
          = Some r ->
        Categories.checkForCycles categories categoryId newParentId = Some r)
  /\ (forall parentId category,
        is_Some (Categories.validateCategoryData categories parentId category))
  /\ (forall newId category,
        is_Some (Categories.createCategory newId category categories))
  /\ (forall id updates,
        is_Some (Categories.updateCategory id updates categories)).
Proof.
  split; [apply checkForCycles_is_Some|].
  split.
  { intros fuel r H.
    destruct (checkForCycles_is_Some categories categoryId newParentId)
      as [r0 H0].
    rewrite H0. f_equal.
    unfold Categories.checkForCycles in H0.
    apply (walk_le _ (Nat.max fuel (S (S (size categories))))) in H; [|lia].
    apply (walk_le _ (Nat.max fuel (S (S (size categories))))) in H0; [|lia].
    congruence. }
  split; [intros; apply validateCategoryData_is_Some|].
  split.
  - intros newId category. unfold Categories.createCategory.
    destruct (validateCategoryData_is_Some categories
                (Category.parentId category) None) as [[?|?] ->]; eauto.
  - intros id updates. unfold Categories.updateCategory.
    destruct (validateCategoryData_is_Some categories
                (mjoin (CategoryUpdate.parentId updates)) (Some id))
      as [[?|?] ->]; eauto.
Qed.

Lemma grounded_link (categories : Categories.table) (x y : string) :
  Categories.grounded categories x -> Categories.link categories x y ->
  Categories.grounded categories y.
Proof.
  unfold Categories.link. intros [Hroot|parent Hp Hg] Hlink; congruence.
Qed.

Lemma grounded_rtc (categories : Categories.table) (x y : string) :
  rtc (Categories.link categories) x y ->
  Categories.grounded categories x -> Categories.grounded categories y.
Proof. induction 1; eauto using grounded_link. Qed.

(** A grounded id is not its own ancestor. *)
Lemma grounded_no_loop (categories : Categories.table) (x : string) :
  Categories.grounded categories x -> ~ tc (Categories.link categories) x x.
Proof.
  induction 1 as [x Hroot|x parent Hp Hg IH]; intros Hloop.
  - inversion Hloop as [? ? Hl|? y ? Hl _]; unfold Categories.link in Hl;
      congruence.
  - apply IH.
    inversion Hloop as [? ? Hl|? y ? Hl Hrest]; unfold Categories.link in Hl;
      subst.
    + assert (parent = x) as -> by congruence. exact Hloop.
    + assert (y = parent) as -> by congruence.
      eapply tc_r; [exact Hrest|exact Hp].
Qed.

Section Walk.
Variable categories : Categories.table.
Hypothesis Hids : Categories.canonicalIds categories.
Variable categoryId : string.

(** The iteration on an id in the spelling of the table. *)
Lemma walk_canonical (fuel : nat) (visited : gset string) (x : string) :
  Categories.canonical x ->
  Categories.walk (S fuel) categories categoryId visited (Some x)
  = if bool_decide (x ∈ visited)
    then Some (Throw Categories.cycleMessage)
    else if String.eqb x categoryId
    then Some (Throw Categories.descendantMessage)
    else Categories.walk fuel categories categoryId ({[x]} ∪ visited)
           (Categories.parentOf categories x).
Proof.
  intros Hx. rewrite walk_step, (canonical_truthy _ Hx).
  rewrite (selectById_canon _ _ _ Hx).
  destruct (bool_decide _); [reflexivity|].
  destruct (String.eqb _ _); [reflexivity|].
  unfold Categories.parentOf.
  destruct (categories !! x ≫= Category.parentId) as [p|] eqn:Hp;
    [|destruct fuel; reflexivity].
  unfold Categories.truthyId.
  destruct (Js.truthy (Some p)) eqn:Ht; [reflexivity|].
  destruct fuel; cbn [Categories.walk]; unfold Categories.truthyId;
    rewrite Ht; reflexivity.
Qed.

(** The loop ends without an error only at the end of the chain, and only
    when it has not met [categoryId] on it. *)
Lemma walk_ok (fuel : nat) (visited : gset string) (x : string) :
  Categories.canonical x ->
  Categories.walk fuel categories categoryId visited (Some x) = Some (Ok tt) ->
  Categories.grounded categories x
  /\ ~ rtc (Categories.link categories) x categoryId.
Proof.
  revert visited x.
  induction fuel as [|fuel IH]; intros visited x Hx H.
  - cbn in H. rewrite (canonical_truthy _ Hx) in H. discriminate.
  - rewrite (walk_canonical _ _ _ Hx) in H.
    destruct (bool_decide (x ∈ visited)); [discriminate|].
    destruct (String.eqb x categoryId) eqn:Heq; [discriminate|].
    apply String.eqb_neq in Heq.
    destruct (Categories.parentOf categories x) as [parent|] eqn:Hp.
    + destruct (IH _ parent (parentOf_canonical _ _ _ Hids Hp) H)
        as [Hg Hnot].
      split; [eapply Categories.grounded_child; eauto|].
      intros Hr. inversion Hr as [|? y ? Hl Hrest]; subst; [congruence|].
      unfold Categories.link in Hl. apply Hnot. congruence.
    + split; [apply Categories.grounded_root; exact Hp|].
      intros Hr. inversion Hr as [|? y ? Hl Hrest]; subst; [congruence|].
      unfold Categories.link in Hl. congruence.
Qed.

Lemma walk_descendant (fuel : nat) (visited : gset string) (x : string) :
  Categories.canonical x ->
  Categories.walk fuel categories categoryId visited (Some x)
    = Some (Throw Categories.descendantMessage) ->
  rtc (Categories.link categories) x categoryId.
Proof.
  revert visited x.
  induction fuel as [|fuel IH]; intros visited x Hx H.
  - cbn in H. rewrite (canonical_truthy _ Hx) in H. discriminate.
  - rewrite (walk_canonical _ _ _ Hx) in H.
    destruct (bool_decide (x ∈ visited)).
    { exfalso. apply messages_differ. congruence. }
    destruct (String.eqb x categoryId) eqn:Heq.
    { apply String.eqb_eq in Heq. subst. apply rtc_refl. }
    destruct (Categories.parentOf categories x) as [parent|] eqn:Hp.
    + eapply rtc_l; [exact Hp|].
      eapply IH; [|exact H]. eapply parentOf_canonical; eauto.
    + rewrite walk_None in H. discriminate.
Qed.

Lemma walk_cycle (fuel : nat) (visited : gset string) (x : string) :
  Categories.canonical x ->
  Categories.walk fuel categories categoryId visited (Some x)
    = Some (Throw Categories.cycleMessage) ->
  (forall u, u ∈ visited -> Categories.canonical u ->
             tc (Categories.link categories) u x) ->
  ~ Categories.grounded categories x.
Proof.
  revert visited x.
  induction fuel as [|fuel IH]; intros visited x Hx H Hvisited.
  - cbn in H. rewrite (canonical_truthy _ Hx) in H. discriminate.
  - rewrite (walk_canonical _ _ _ Hx) in H.
    destruct (bool_decide (x ∈ visited)) eqn:Hin.
    { apply bool_decide_eq_true in Hin. intros Hg.
      eapply grounded_no_loop; eauto. }
    destruct (String.eqb x categoryId).
    { exfalso. apply messages_differ. congruence. }
    destruct (Categories.parentOf categories x) as [parent|] eqn:Hp.
    + intros Hg.
      eapply (IH _ parent (parentOf_canonical _ _ _ Hids Hp) H).
      * intros u [Hu|Hu]%elem_of_union Hcanon.
        -- apply elem_of_singleton in Hu. subst. apply tc_once. exact Hp.
        -- eapply tc_r; [apply Hvisited; assumption|exact Hp].
      * eapply grounded_link; eauto.
    + rewrite walk_None in H. discriminate.
Qed.

Lemma walk_throws (fuel : nat) (visited : gset string) (x : string)
    (m : string) :
  Categories.canonical x ->
  Categories.walk fuel categories categoryId visited (Some x)
    = Some (Throw m) ->
  m = Categories.descendantMessage \/ m = Categories.cycleMessage.
Proof.
  revert visited x.
  induction fuel as [|fuel IH]; intros visited x Hx H.
  - cbn in H. rewrite (canonical_truthy _ Hx) in H. discriminate.
  - rewrite (walk_canonical _ _ _ Hx) in H.
    destruct (bool_decide (x ∈ visited)); [right; congruence|].
    destruct (String.eqb x categoryId); [left; congruence|].
    destruct (Categories.parentOf categories x) as [parent|] eqn:Hp.
    + eapply IH; [|exact H]. eapply parentOf_canonical; eauto.
    + rewrite walk_None in H. discriminate.
Qed.

(** The first iteration, on the proposed parent as the caller spelled
    it. *)
Lemma checkForCycles_first (newParentId parent : string) :
  Uuid.canon newParentId = Some parent ->
  Categories.checkForCycles categories categoryId newParentId
  = if String.eqb newParentId categoryId
    then Some (Throw Categories.descendantMessage)
    else Categories.walk (S (size categories)) categories categoryId
           {[newParentId]} (Categories.parentOf categories parent).
Proof.
  intros Hp. unfold Categories.checkForCycles. rewrite walk_step.
  rewrite (truthyId_truthy _ (canon_truthy _ _ Hp)).
  rewrite bool_decide_eq_false_2 by (intros Hin; apply elem_of_empty in Hin; exact Hin).
  destruct (String.eqb _ _); [reflexivity|].
  rewrite (selectById_canon _ _ _ Hp).
  replace ({[newParentId]} ∪ ∅ : gset string) with ({[newParentId]} : gset string)
    by (symmetry; apply (right_id_L ∅ (∪))).
  unfold Categories.parentOf.
  destruct (categories !! parent ≫= Category.parentId) as [p|] eqn:Hparent;
    [|reflexivity].
  unfold Categories.truthyId.
  destruct (Js.truthy (Some p)) eqn:Ht; [reflexivity|].
  rewrite walk_step. unfold Categories.truthyId. rewrite Ht. reflexivity.
Qed.

End Walk.

(** The checks decide what they are named after. *)
Lemma groundedWithin_sound (fuel : nat) (categories : Categories.table)
    (id : string) :
  Categories.groundedWithin fuel categories id = true ->
  Categories.grounded categories id.
Proof.
  revert id. induction fuel as [|fuel IH]; intros id H; cbn in H;
    destruct (Categories.parentOf categories id) as [parent|] eqn:Hp;
    try discriminate; try (apply Categories.grounded_root; exact Hp).
  apply (Categories.grounded_child _ _ parent); auto.
Qed.

Lemma acyclicWithin_sound (categories : Categories.table) :
  Categories.acyclicWithin categories = true -> Categories.acyclic categories.
Proof.
  unfold Categories.acyclicWithin. intros H id.
  destruct (categories !! id) as [row|] eqn:Hrow.
  - rewrite forallb_forall in H.
    apply (groundedWithin_sound (size categories)).
    apply (H (id, row)). apply list_elem_of_In, elem_of_map_to_list, Hrow.
  - apply Categories.grounded_root. unfold Categories.parentOf.
    rewrite Hrow. reflexivity.
Qed.

Lemma closedCheck_sound (categories : Categories.table) :
  Categories.closedCheck categories = true -> Categories.closed categories.
Proof.
  unfold Categories.closedCheck. rewrite forallb_forall.
  intros H i row Hi. cbn.
  specialize (H (i, row)). cbn in H.
  destruct (Categories.truthyId (Category.parentId row)); [|exact I].
  apply (bool_decide_eq_true_1 _), H.
  apply list_elem_of_In, elem_of_map_to_list, Hi.
Qed.

Lemma canonicalCheck_sound (categories : Categories.table) :
  Categories.canonicalCheck categories = true ->
  Categories.canonicalIds categories.
Proof.
  unfold Categories.canonicalCheck. rewrite forallb_forall.
  intros H i row Hi.
  specialize (H (i, row)). cbn in H.
  apply andb_prop in H as [Hkey Hparent];
    [|apply list_elem_of_In, elem_of_map_to_list, Hi].
  split; [apply (bool_decide_eq_true_1 _), Hkey|].
  intros parent Hp. rewrite Hp in Hparent.
  apply (bool_decide_eq_true_1 _), Hparent.
Qed.

Lemma checkForCycles_parsed (categories : Categories.table)
    (categoryId newParentId parent : string) :
  Categories.canonicalIds categories ->
  Uuid.canon newParentId = Some parent ->
  let answer := Categories.checkForCycles categories categoryId newParentId in
  (answer = Some (Ok tt)
   <-> Categories.grounded categories parent
       /\ newParentId <> categoryId
       /\ ~ tc (Categories.link categories) parent categoryId)
  /\ (answer = Some (Throw Categories.descendantMessage) ->
      newParentId = categoryId
      \/ tc (Categories.link categories) parent categoryId)
  /\ (Categories.grounded categories parent ->
      newParentId = categoryId
      \/ tc (Categories.link categories) parent categoryId ->
      answer = Some (Throw Categories.descendantMessage))
  /\ (answer = Some (Throw Categories.cycleMessage) ->
      ~ Categories.grounded categories parent)
  /\ (forall m,
        answer = Some (Throw m) ->
        m = Categories.descendantMessage \/ m = Categories.cycleMessage).
Proof.
  intros Hids Hp answer.
  pose proof (checkForCycles_first categories categoryId _ _ Hp) as Hfirst.
  fold answer in Hfirst.
  destruct (checkForCycles_is_Some categories categoryId newParentId)
    as [r Hr].
  fold answer in Hr.
  destruct (String.eqb newParentId categoryId) eqn:Heq.
  { apply String.eqb_eq in Heq. rewrite Hfirst.
    split; [split; [discriminate|tauto]|].
    split; [auto|]. split; [auto|].
    split; [intros [=]; exfalso; apply messages_differ; congruence|].
    intros m [= <-]. auto. }
  apply String.eqb_neq in Heq.
  set (next := Categories.parentOf categories parent) in *.
  assert (Hlink : forall q, next = Some q ->
            Categories.canonical q /\ Categories.link categories parent q).
  { intros q Hq. split; [eapply parentOf_canonical; eauto|exact Hq]. }
  assert (Htc : forall q, next = Some q ->
            tc (Categories.link categories) parent categoryId
            <-> rtc (Categories.link categories) q categoryId).
  { intros q Hq. split.
    - intros Htc.
      inversion Htc as [? ? Hl|? y ? Hl Hrest]; unfold Categories.link in Hl;
        subst.
      + assert (q = categoryId) as -> by (subst next; congruence).
        apply rtc_refl.
      + assert (y = q) as -> by (subst next; congruence).
        apply tc_rtc. exact Hrest.
    - intros Hr'. eapply tc_rtc_r; [apply tc_once; exact Hq|exact Hr']. }
  assert (Hok : answer = Some (Ok tt) ->
                Categories.grounded categories parent
                /\ ~ tc (Categories.link categories) parent categoryId).
  { rewrite Hfirst. destruct next as [q|] eqn:Hnext.
    - intros H. destruct (Hlink q eq_refl) as [Hq Hl].
      destruct (walk_ok categories Hids categoryId _ _ q Hq H) as [Hg Hnot].
      split; [eapply Categories.grounded_child; eauto|].
      rewrite (Htc q eq_refl). exact Hnot.
    - intros _. split; [apply Categories.grounded_root; exact Hnext|].
      intros Htc'. inversion Htc' as [? ? Hl|? y ? Hl _];
        unfold Categories.link in Hl; subst next; congruence. }
  assert (Hdesc : answer = Some (Throw Categories.descendantMessage) ->
                  tc (Categories.link categories) parent categoryId).
  { rewrite Hfirst. destruct next as [q|] eqn:Hnext.
    - intros H. destruct (Hlink q eq_refl) as [Hq Hl].
      apply (Htc q eq_refl).
      eapply walk_descendant; eauto.
    - rewrite walk_None. discriminate. }
  assert (Hcyc : answer = Some (Throw Categories.cycleMessage) ->
                 ~ Categories.grounded categories parent).
  { rewrite Hfirst. destruct next as [q|] eqn:Hnext.
    - intros H Hg. destruct (Hlink q eq_refl) as [Hq Hl].
      eapply (walk_cycle categories Hids categoryId _ _ q Hq H).
      + intros u Hu%elem_of_singleton Hcanon. subst u.
        assert (parent = newParentId) as -> by
          (unfold Categories.canonical in Hcanon; congruence).
        apply tc_once. exact Hl.
      + eapply grounded_link; eauto.
    - rewrite walk_None. discriminate. }
  assert (Hm : forall m, answer = Some (Throw m) ->
               m = Categories.descendantMessage \/ m = Categories.cycleMessage).
  { rewrite Hfirst. destruct next as [q|] eqn:Hnext.
    - intros m H. destruct (Hlink q eq_refl) as [Hq Hl].
      eapply walk_throws; eauto.
    - rewrite walk_None. discriminate. }
  split; [split|].
  { intros H. destruct (Hok H). auto. }
  { intros (Hg & _ & Hnot). rewrite Hr in *.
    destruct r as [[]|m]; [reflexivity|].
    destruct (Hm m eq_refl) as [-> | ->]; [tauto|].
    exfalso. apply Hcyc; auto. }
  split; [auto|].
  split; [|split; [exact Hcyc|exact Hm]].
  intros Hg [Hsame|Hreach]; [congruence|]. rewrite Hr in *.
  destruct r as [[]|m]; [exfalso; apply Hok; auto|].
  destruct (Hm m eq_refl) as [-> | ->]; [reflexivity|].
  exfalso. apply Hcyc; auto.
Qed.


(** X27.  What [checkForCycles] answers on a table whose ids are in the
    spelling of the database, for a proposed parent that the database
    reads as the id [parent].  It returns without an error exactly when
    the chain of parents from [parent] ends, the proposed parent is not
    the category as a string, and the category is not an ancestor of
    [parent]; a proposed parent that is the id of the category in another
    spelling passes.  It throws the descendant error only when the two
    strings are equal or the category is an ancestor of [parent], and
    always then if the chain ends; it throws the cycle error only when the
    chain runs into a cycle that was in the table before; it throws
    nothing else.  A proposed parent that the database does not read is
    answered with the descendant error when it is the category as a
    string, and with the syntax error of the database otherwise. *)
Theorem checkForCycles_spec (categories : Categories.table)
    (categoryId newParentId : string) :
  Categories.canonicalIds categories ->
  let answer := Categories.checkForCycles categories categoryId newParentId in
  (forall parent,
     Uuid.canon newParentId = Some parent ->
     (answer = Some (Ok tt)
      <-> Categories.grounded categories parent
          /\ newParentId <> categoryId
          /\ ~ tc (Categories.link categories) parent categoryId)
     /\ (answer = Some (Throw Categories.descendantMessage) ->
         newParentId = categoryId
         \/ tc (Categories.link categories) parent categoryId)
     /\ (Categories.grounded categories parent ->
         newParentId = categoryId
         \/ tc (Categories.link categories) parent categoryId ->
         answer = Some (Throw Categories.descendantMessage))
     /\ (answer = Some (Throw Categories.cycleMessage) ->
         ~ Categories.grounded categories parent)
     /\ (forall m,
           answer = Some (Throw m) ->
           m = Categories.descendantMessage \/ m = Categories.cycleMessage))
  /\ (Uuid.canon newParentId = None ->
      Js.truthy (Some newParentId) = true ->
      answer
      = Some (Throw (if String.eqb newParentId categoryId
                     then Categories.descendantMessage
                     else Uuid.refusal newParentId))).
Proof.
  intros Hids answer. split.
  - intros parent Hp. apply checkForCycles_parsed; assumption.
  - intros Hnone Ht. subst answer. unfold Categories.checkForCycles.
    rewrite walk_step, (truthyId_truthy _ Ht).
    rewrite bool_decide_eq_false_2
      by (intros Hin; apply elem_of_empty in Hin; exact Hin).
    destruct (String.eqb _ _); [reflexivity|].
    unfold Categories.selectById. rewrite Hnone. reflexivity.
Qed.

(** Berlin under another spelling of its own id passes the check, although
    Berlin is grounded and is not its own ancestor. *)
Lemma checkForCycles_spec_witness :
  Categories.grounded Shelves.shelves Shelves.berlin
  /\ Shelves.berlinUpper <> Shelves.berlin
  /\ ~ tc (Categories.link Shelves.shelves) Shelves.berlin Shelves.berlin.
Proof.
  refine (proj1 (proj1 (proj1 (checkForCycles_spec Shelves.shelves
                                 Shelves.berlin Shelves.berlinUpper _)
                          Shelves.berlin _)) _).
  - apply canonicalCheck_sound. evaluate.
  - evaluate.
  - evaluate.
Defined.

(** ** The operations and the shape of the table *)

Lemma grounded_avoid (categories categories' : Categories.table) (id : string) :
  (forall x, x <> id ->
     Categories.parentOf categories' x = Categories.parentOf categories x) ->
  forall y,
    Categories.grounded categories y ->
    ~ rtc (Categories.link categories) y id ->
    Categories.grounded categories' y.
Proof.
  intros Hsame y Hg.
  induction Hg as [y Hroot|y parent Hp Hg IH]; intros Hnot.
  - apply Categories.grounded_root. rewrite Hsame; [exact Hroot|].
    intros ->. apply Hnot, rtc_refl.
  - apply (Categories.grounded_child _ _ parent).
    + rewrite Hsame; [exact Hp|]. intros ->. apply Hnot, rtc_refl.
    + apply IH. intros Hr. apply Hnot. eapply rtc_l; [exact Hp|exact Hr].
Qed.

Lemma reparent_grounded (categories categories' : Categories.table)
    (id : string) :
  (forall x, x <> id ->
     Categories.parentOf categories' x = Categories.parentOf categories x) ->
  Categories.grounded categories' id ->
  forall x, Categories.grounded categories x ->
            Categories.grounded categories' x.
Proof.
  intros Hsame Hid x Hg.
  induction Hg as [x Hroot|x parent Hp Hg IH];
    destruct (decide (x = id)) as [->|Hne]; auto.
  - apply Categories.grounded_root. rewrite Hsame; auto.
  - apply (Categories.grounded_child _ _ parent); [|exact IH].
    rewrite Hsame; auto.
Qed.

Lemma parentOf_insert_ne (categories : Categories.table) (i x : string)
    (row : Category.t) :
  x <> i ->
  Categories.parentOf (<[i := row]> categories) x
  = Categories.parentOf categories x.
Proof.
  intros Hne. unfold Categories.parentOf, Categories.table in *.
  rewrite lookup_insert_ne by congruence. reflexivity.
Qed.

Lemma parentOf_insert_eq (categories : Categories.table) (i : string)
    (row : Category.t) :
  Categories.parentOf (<[i := row]> categories) i
  = Categories.truthyId (Category.parentId row).
Proof.
  unfold Categories.parentOf, Categories.table in *.
  rewrite lookup_insert_eq. reflexivity.
Qed.

Lemma parentOf_delete_ne (categories : Categories.table) (i x : string) :
  x <> i ->
  Categories.parentOf (delete i categories) x
  = Categories.parentOf categories x.
Proof.
  intros Hne. unfold Categories.parentOf, Categories.table in *.
  rewrite lookup_delete_ne by congruence. reflexivity.
Qed.

Lemma parentOf_delete_eq (categories : Categories.table) (i : string) :
  Categories.parentOf (delete i categories) i = None.
Proof.
  unfold Categories.parentOf, Categories.table in *.
  rewrite lookup_delete_eq. reflexivity.
Qed.

Lemma closed_lookup (categories : Categories.table) (i parent : string)
    (row : Category.t) :
  Categories.closed categories ->
  categories !! i = Some row ->
  Categories.truthyId (Category.parentId row) = Some parent ->
  is_Some (categories !! parent).
Proof.
  intros Hc Hi Hp. specialize (Hc i row Hi). cbn in Hc.
  rewrite Hp in Hc. exact Hc.
Qed.

(** A self link is a cycle. *)
Lemma self_parent_not_grounded (categories : Categories.table) (key : string) :
  Categories.parentOf categories key = Some key ->
  ~ Categories.acyclic categories.
Proof.
  intros Hself Hacyclic.
  apply (grounded_no_loop categories key (Hacyclic key)).
  apply tc_once. exact Hself.
Qed.

(** What a validation that passed has checked. *)
Lemma validateCategoryData_ok (categories : Categories.table)
    (parentId categoryId : option string) (u : unit) (parent : string) :
  Categories.validateCategoryData categories parentId categoryId
    = Some (Ok u) ->
  Categories.truthyId parentId = Some parent ->
  categoryId <> Some parent
  /\ (exists key row,
        Uuid.canon parent = Some key /\ categories !! key = Some row)
  /\ (forall category,
        Categories.truthyId categoryId = Some category ->
        Categories.checkForCycles categories category parent = Some (Ok tt)).
Proof.
  unfold Categories.validateCategoryData. intros H Hp. rewrite Hp in H.
  destruct (bool_decide (categoryId = Some parent)) eqn:Hself;
    [discriminate|].
  apply bool_decide_eq_false in Hself.
  unfold Categories.selectById in H.
  destruct (Uuid.canon parent) as [key|]; [|discriminate].
  destruct (categories !! key) as [row|] eqn:Hrow; [|discriminate].
  split; [exact Hself|]. split; [eauto|].
  intros category Hc. rewrite Hc in H. destruct u. exact H.
Qed.

Lemma bindUuid_Ok (value stored : option string) :
  Categories.bindUuid value = Ok stored ->
  (value = None /\ stored = None)
  \/ exists source key,
       value = Some source /\ stored = Some key
       /\ Uuid.canon source = Some key.
Proof.
  unfold Categories.bindUuid. destruct value as [source|]; [|intros [= <-]; auto].
  destruct (Uuid.canon source) as [key|] eqn:Hc; [|discriminate].
  intros [= <-]. right. eauto.
Qed.

(** What [updateRow] does when it does not leave the table as it is:
    the row of the id, as the database reads it, gets the new values. *)
Lemma updateRow_cases (id : string) (updates : CategoryUpdate.t)
    (categories categories' : Categories.table)
    (answer : result (option (string * Category.t))) :
  CategoryUpdate.id updates = None ->
  Categories.updateRow id updates categories = (answer, categories') ->
  (categories' = categories /\ (forall row, answer <> Ok (Some row)))
  \/ exists key row name slug stored,
       Uuid.canon id = Some key
       /\ categories !! key = Some row
       /\ Categories.fitSet 255 (CategoryUpdate.name updates) = Ok name
       /\ Categories.fitSet 255 (CategoryUpdate.slug updates) = Ok slug
       /\ match CategoryUpdate.parentId updates with
          | Some value => Categories.bindUuid value = Ok stored
          | None => stored = Category.parentId row
          end
       /\ let newRow :=
            Category.mk (default (Category.name row) name)
              (default (Category.slug row) slug) stored in
          answer = Ok (Some (key, newRow))
          /\ categories' = <[key := newRow]> categories.
Proof.
  intros Hid. unfold Categories.updateRow. rewrite Hid. cbn [Categories.bindUuid bind].
  destruct (Categories.bindText (CategoryUpdate.name updates)) as [[]|m];
    cbn [bind]; [|intros [= <- <-]; left; split; [auto|discriminate]].
  destruct (Categories.bindText (CategoryUpdate.slug updates)) as [[]|m];
    cbn [bind]; [|intros [= <- <-]; left; split; [auto|discriminate]].
  assert (Hparent :
    forall bound : result (option (option string)),
      bound = match CategoryUpdate.parentId updates with
              | Some value =>
                  let* stored := Categories.bindUuid value in Ok (Some stored)
              | None => Ok None
              end ->
      forall parent, bound = Ok parent ->
      forall row,
        match CategoryUpdate.parentId updates with
        | Some value =>
            Categories.bindUuid value = Ok (default (Category.parentId row) parent)
        | None => default (Category.parentId row) parent = Category.parentId row
        end).
  { intros bound -> parent Hb row.
    destruct (CategoryUpdate.parentId updates) as [value|].
    - destruct (Categories.bindUuid value) as [stored|]; [|discriminate].
      cbn [bind] in Hb. injection Hb as <-. reflexivity.
    - injection Hb as <-. reflexivity. }
  specialize (Hparent _ eq_refl).
  destruct (match CategoryUpdate.parentId updates with
            | Some value => _
            | None => _
            end) as [parent|m];
    cbn [bind]; [|intros [= <- <-]; left; split; [auto|discriminate]].
  specialize (Hparent parent eq_refl).
  destruct (Uuid.canon id) as [key|]; cbn [bind];
    [|intros [= <- <-]; left; split; [auto|discriminate]].
  destruct (Categories.fitSet 255 (CategoryUpdate.name updates))
    as [name|m]; cbn [bind];
    [|intros [= <- <-]; left; split; [auto|discriminate]].
  destruct (Categories.fitSet 255 (CategoryUpdate.slug updates))
    as [slug|m]; cbn [bind];
    [|intros [= <- <-]; left; split; [auto|discriminate]].
  destruct (categories !! key) as [row|] eqn:Hrow;
    [|intros [= <- <-]; left; split; [auto|discriminate]].
  cbn [from_option Datatypes.id]. unfold Categories.table in *.
  rewrite lookup_delete_eq.
  rewrite bool_decide_eq_false_2 by (intros [? ?]; discriminate).
  cbn [orb].
  destruct (match slug with
            | Some taken => _
            | None => false
            end);
    [intros [= <- <-]; left; split; [auto|discriminate]|].
  rewrite insert_delete_eq. intros [= <- <-]. right.
  exists key, row, name, slug, (default (Category.parentId row) parent).
  split; [reflexivity|]. split; [exact Hrow|].
  split; [reflexivity|]. split; [reflexivity|].
  split; [apply Hparent|]. split; reflexivity.
Qed.

Lemma rtc_tc_or {A : Type} (R : relation A) (x y : A) :
  rtc R x y -> x = y \/ tc R x y.
Proof.
  intros H. apply rtc_inv in H as [->|(z & Hxz & Hzy)]; [auto|].
  right. eapply tc_rtc_r; [apply tc_once; exact Hxz|exact Hzy].
Qed.

(** Two spellings of one id: the checks pass and the row becomes its own
    parent. *)
Lemma updateCategory_spellings (categories : Categories.table)
    (id parent key : string) (row : Category.t) :
  Categories.canonicalIds categories ->
  id <> parent ->
  Uuid.canon id = Some key -> Uuid.canon parent = Some key ->
  categories !! key = Some row ->
  Categories.grounded categories key ->
  Categories.updateCategory id
    (CategoryUpdate.mk None None None (Some (Some parent))) categories
  = Some (Ok (Some (key, Category.mk (Category.name row) (Category.slug row)
                           (Some key))),
          <[key := Category.mk (Category.name row) (Category.slug row)
                     (Some key)]> categories).
Proof.
  intros Hids Hne Hid Hparent Hrow Hg.
  assert (Hcheck : Categories.checkForCycles categories id parent
                   = Some (Ok tt)).
  { apply (checkForCycles_parsed categories id parent key Hids Hparent).
    split; [exact Hg|]. split; [congruence|].
    intros Htc.
    destruct (decide (id = key)) as [->|Hother].
    - eapply grounded_no_loop; eauto.
    - apply tc_rtc in Htc.
      apply rtc_inv_r in Htc as [->|(z & _ & Hl)]; [congruence|].
      apply (parentOf_canonical _ _ _ Hids) in Hl.
      unfold Categories.canonical in Hl. congruence. }
  unfold Categories.updateCategory, Categories.validateCategoryData.
  cbn [CategoryUpdate.parentId mjoin option_join mbind option_bind
       Datatypes.id].
  change (mjoin (Some (Some parent))) with (Some parent).
  rewrite (truthyId_truthy _ (canon_truthy _ _ Hparent)).
  rewrite bool_decide_eq_false_2 by congruence.
  rewrite (selectById_canon _ _ _ Hparent), Hrow.
  rewrite (truthyId_truthy _ (canon_truthy _ _ Hid)), Hcheck.
  unfold Categories.updateRow.
  cbn [CategoryUpdate.id CategoryUpdate.name CategoryUpdate.slug
       CategoryUpdate.parentId Categories.bindUuid Categories.bindText
       Categories.fitSet bind].
  rewrite Hparent, Hid. cbn [bind]. unfold Categories.table in *.
  rewrite Hrow. cbn [from_option Datatypes.id].
  rewrite lookup_delete_eq.
  rewrite bool_decide_eq_false_2 by (intros [? ?]; discriminate).
  cbn [orb]. rewrite insert_delete_eq. reflexivity.
Qed.

(** X28.  [updateCategory] and the shape of the table, for updates that
    leave the id column alone, on a table whose ids are in the spelling of
    the database.  The call returns or throws; when it throws nothing
    changes; afterwards the ids are still in that spelling and, if every
    parent named by a row was a row, this still holds.  When the id and
    the new parent are given in that spelling, a table without a cycle is
    left without a cycle.  That condition is needed: when the id and the
    new parent are two different spellings of the id of one row, the call
    returns and leaves that row as its own parent. *)
Theorem updateCategory_keeps_forest (id : string) (updates : CategoryUpdate.t)
    (categories : Categories.table) :
  CategoryUpdate.id updates = None ->
  Categories.canonicalIds categories ->
  exists answer categories',
    Categories.updateCategory id updates categories
      = Some (answer, categories')
    /\ Categories.canonicalIds categories'
    /\ (forall m, answer = Throw m -> categories' = categories)
    /\ (Categories.closed categories -> Categories.closed categories')
    /\ (Categories.canonical id ->
        (forall parent,
           Categories.truthyId (mjoin (CategoryUpdate.parentId updates))
             = Some parent ->
           Categories.canonical parent) ->
        Categories.acyclic categories -> Categories.acyclic categories')
    /\ (forall parent key row,
          updates = CategoryUpdate.mk None None None (Some (Some parent)) ->
          id <> parent ->
          Uuid.canon id = Some key -> Uuid.canon parent = Some key ->
          categories !! key = Some row ->
          Categories.grounded categories key ->
          answer
          = Ok (Some (key, Category.mk (Category.name row)
                             (Category.slug row) (Some key)))
          /\ Categories.parentOf categories' key = Some key
          /\ ~ Categories.acyclic categories').
Proof.
  intros Hnoid Hids.
  assert (Hspell : forall answer categories',
            Categories.updateCategory id updates categories
              = Some (answer, categories') ->
            forall parent key row,
              updates = CategoryUpdate.mk None None None (Some (Some parent)) ->
              id <> parent ->
              Uuid.canon id = Some key -> Uuid.canon parent = Some key ->
              categories !! key = Some row ->
              Categories.grounded categories key ->
              answer
              = Ok (Some (key, Category.mk (Category.name row)
                                 (Category.slug row) (Some key)))
              /\ Categories.parentOf categories' key = Some key
              /\ ~ Categories.acyclic categories').
  { intros answer categories' Hrun parent key row -> Hne Hid Hparent Hrow Hg.
    rewrite (updateCategory_spellings categories id parent key row Hids Hne
               Hid Hparent Hrow Hg) in Hrun.
    injection Hrun as <- <-. split; [reflexivity|].
    assert (Hself : Categories.parentOf
                      (<[key := Category.mk (Category.name row)
                                  (Category.slug row) (Some key)]> categories)
                      key = Some key).
    { rewrite parentOf_insert_eq. cbn [Category.parentId].
      apply canonical_truthy. eapply canon_canonical, Hid. }
    split; [exact Hself|]. eapply self_parent_not_grounded, Hself. }
  unfold Categories.updateCategory in *.
  destruct (validateCategoryData_is_Some categories
              (mjoin (CategoryUpdate.parentId updates)) (Some id))
    as [[u|m] Hv]; rewrite Hv in *.
  2: { exists (Throw m), categories. split; [reflexivity|].
       split; [exact Hids|]. split; [reflexivity|]. split; [auto|].
       split; [auto|]. apply (Hspell _ _ eq_refl). }
  destruct (Categories.updateRow id updates categories)
    as [answer categories'] eqn:Hrow.
  exists answer, categories'. split; [reflexivity|].
  specialize (Hspell answer categories' eq_refl).
  destruct (updateRow_cases _ _ _ _ _ Hnoid Hrow)
    as [[-> Hanswer]
       |(key & row & name & slug & stored & Hkey & Hold & _ & _ & Hstored
         & Hnew)].
  { split; [exact Hids|]. split; [reflexivity|]. split; [auto|].
    split; [auto|]. exact Hspell. }
  cbv zeta in Hnew. destruct Hnew as [-> ->].
  set (newRow := Category.mk _ _ stored) in *.
  assert (Hkeys : forall x, is_Some (categories !! x) ->
                            is_Some (<[key := newRow]> categories !! x)).
  { intros x Hx. unfold Categories.table in *.
    apply lookup_insert_is_Some. destruct (decide (key = x)); auto. }
  assert (Hsame : forall x, x <> key ->
            Categories.parentOf (<[key := newRow]> categories) x
            = Categories.parentOf categories x)
    by (intros; apply parentOf_insert_ne; assumption).
  (* the parent that the row now names *)
  assert (Hparent : forall c,
            stored = Some c ->
            Categories.canonical c
            /\ (Categories.closed categories -> is_Some (categories !! c))
            /\ (Categories.canonical id ->
                (forall parent,
                   Categories.truthyId (mjoin (CategoryUpdate.parentId updates))
                     = Some parent ->
                   Categories.canonical parent) ->
                Categories.acyclic categories ->
                Categories.grounded categories c
                /\ ~ rtc (Categories.link categories) c key)).
  { intros c ->.
    destruct (CategoryUpdate.parentId updates) as [value|] eqn:Hupd.
    - apply bindUuid_Ok in Hstored
        as [[_ [=]]|(source & c' & -> & [= <-] & Hcanon)].
      cbn [mjoin option_join mbind option_bind Datatypes.id] in Hv.
      change (mjoin (Some (Some source))) with (Some source) in *.
      pose proof (truthyId_truthy _ (canon_truthy _ _ Hcanon)) as Hsource.
      destruct (validateCategoryData_ok _ _ _ _ _ Hv Hsource)
        as (_ & (key' & row' & Hkey' & Hrow') & Hcheck).
      assert (key' = c) as -> by congruence.
      split; [eapply canon_canonical, Hcanon|].
      split; [eauto|].
      intros Hid Hspelled Hacyclic.
      assert (key = id) as ->
        by (unfold Categories.canonical in Hid; congruence).
      pose proof (Hspelled source Hsource) as Hsrc.
      assert (source = c) as ->
        by (unfold Categories.canonical in Hsrc; congruence).
      specialize (Hcheck id (canonical_truthy _ Hid)).
      apply (checkForCycles_parsed categories id c c Hids Hcanon) in Hcheck
        as (Hg & Hne & Hnot).
      split; [exact Hg|].
      intros [->|Htc]%rtc_tc_or; [congruence|auto].
    - symmetry in Hstored.
      destruct (Hids key row Hold) as [_ Hp].
      pose proof (Hp c Hstored) as Hc.
      split; [exact Hc|]. split.
      { intros Hclosed. eapply closed_lookup; eauto.
        rewrite Hstored. apply canonical_truthy, Hc. }
      intros _ _ Hacyclic. split; [apply Hacyclic|].
      intros Hr. apply (grounded_no_loop categories key (Hacyclic key)).
      eapply tc_rtc_r; [apply tc_once|exact Hr].
      unfold Categories.link, Categories.parentOf, Categories.table in *.
      rewrite Hold. cbn. rewrite Hstored. apply canonical_truthy, Hc. }
  split.
  { intros i r Hi. unfold Categories.table in *.
    destruct (decide (i = key)) as [->|Hne].
    - rewrite lookup_insert_eq in Hi. injection Hi as <-.
      split; [exact (proj1 (Hids key row Hold))|].
      intros parent Hp. apply (Hparent parent Hp).
    - rewrite lookup_insert_ne in Hi by congruence.
      apply (Hids i r Hi). }
  split; [discriminate|].
  split.
  { intros Hclosed i r Hi. cbn. unfold Categories.table in *.
    destruct (Categories.truthyId (Category.parentId r)) as [parent|] eqn:Hp;
      [|exact I].
    apply Hkeys.
    destruct (decide (i = key)) as [->|Hne].
    - rewrite lookup_insert_eq in Hi. injection Hi as <-.
      apply truthyId_Some in Hp as [Hp _]. apply (Hparent parent Hp), Hclosed.
    - rewrite lookup_insert_ne in Hi by congruence.
      eapply closed_lookup; eauto. }
  split; [|exact Hspell].
  intros Hid Hspelled Hacyclic x.
  apply (reparent_grounded categories _ key Hsame); [|apply Hacyclic].
  destruct (Categories.truthyId stored) as [c|] eqn:Hc.
  - apply (Categories.grounded_child _ _ c);
      [rewrite parentOf_insert_eq; exact Hc|].
    apply truthyId_Some in Hc as [Hc _].
    destruct (Hparent c Hc) as (_ & _ & Hgood).
    destruct (Hgood Hid Hspelled Hacyclic) as [Hg Hnot].
    apply (grounded_avoid categories _ key Hsame); assumption.
  - apply Categories.grounded_root. rewrite parentOf_insert_eq. exact Hc.
Qed.

(** Berlin moves from Germany to Travel; and Berlin is put under another
    spelling of its own id. *)
Lemma updateCategory_keeps_forest_witness :
  Categories.acyclic (<[ Shelves.berlin := Shelves.berlinMoved ]> Shelves.shelves)
  /\ ~ Categories.acyclic
         (<[ Shelves.berlin := Shelves.berlinKnotted ]> Shelves.shelves).
Proof.
  assert (Hids : Categories.canonicalIds Shelves.shelves)
    by (apply canonicalCheck_sound; evaluate).
  split.
  - destruct (updateCategory_keeps_forest Shelves.berlin
                (Shelves.moveTo (Some Shelves.travel)) Shelves.shelves
                eq_refl Hids)
      as (answer & categories' & Hrun & _ & _ & _ & Hacyclic & _).
    assert (Hmoved : Categories.updateCategory Shelves.berlin
                       (Shelves.moveTo (Some Shelves.travel)) Shelves.shelves
                     = Some (Ok (Some (Shelves.berlin, Shelves.berlinMoved)),
                             <[ Shelves.berlin := Shelves.berlinMoved ]>
                               Shelves.shelves))
      by evaluate.
    rewrite Hmoved in Hrun. injection Hrun as <- <-.
    apply Hacyclic.
    + evaluate.
    + intros parent Hp. injection Hp as <-. evaluate.
    + apply acyclicWithin_sound. evaluate.
  - destruct (updateCategory_keeps_forest Shelves.berlin
                (Shelves.moveTo (Some Shelves.berlinUpper)) Shelves.shelves
                eq_refl Hids)
      as (answer & categories' & Hrun & _ & _ & _ & _ & Hknot).
    assert (Hknotted : Categories.updateCategory Shelves.berlin
                         (Shelves.moveTo (Some Shelves.berlinUpper))
                         Shelves.shelves
                       = Some (Ok (Some (Shelves.berlin,
                                         Shelves.berlinKnotted)),
                               <[ Shelves.berlin := Shelves.berlinKnotted ]>
                                 Shelves.shelves))
      by evaluate.
    rewrite Hknotted in Hrun. injection Hrun as <- <-.
    refine (proj2 (proj2 (Hknot Shelves.berlinUpper Shelves.berlin
                            (Category.mk "Berlin" "travel-germany-berlin"
                               (Some Shelves.germany))
                            eq_refl _ _ _ _ _))).
    + discriminate.
    + evaluate.
    + evaluate.
    + evaluate.
    + apply groundedWithin_sound with (fuel := 3%nat). evaluate.
Defined.

(** What [insertCategory] does when it does not leave the table as it is. *)
Lemma insertCategory_cases (newId : string) (category : Category.t)
    (categories categories' : Categories.table)
    (answer : result (string * Category.t)) :
  Categories.insertCategory newId category categories
    = (answer, categories') ->
  (categories' = categories /\ exists m, answer = Throw m)
  \/ exists name slug stored,
       Varchar.fit 255 (Category.name category) = Ok name
       /\ Varchar.fit 255 (Category.slug category) = Ok slug
       /\ Categories.bindUuid (Category.parentId category) = Ok stored
       /\ categories !! newId = None
       /\ let row := Category.mk name slug stored in
          answer = Ok (newId, row)
          /\ categories' = <[newId := row]> categories.
Proof.
  unfold Categories.insertCategory.
  destruct (Categories.bindText (Some (Category.name category))) as [[]|m];
    cbn [bind]; [|intros [= <- <-]; eauto].
  destruct (Categories.bindText (Some (Category.slug category))) as [[]|m];
    cbn [bind]; [|intros [= <- <-]; eauto].
  destruct (Categories.bindUuid (Category.parentId category)) as [stored|m];
    cbn [bind]; [|intros [= <- <-]; eauto].
  destruct (Varchar.fit 255 (Category.name category)) as [name|m];
    cbn [bind]; [|intros [= <- <-]; eauto].
  destruct (Varchar.fit 255 (Category.slug category)) as [slug|m];
    cbn [bind]; [|intros [= <- <-]; eauto].
  destruct (bool_decide (is_Some (categories !! newId))) eqn:Hnew;
    cbn [orb]; [intros [= <- <-]; eauto|].
  apply bool_decide_eq_false in Hnew.
  destruct (Categories.slugTaken _ _); [intros [= <- <-]; eauto|].
  intros [= <- <-]. right. exists name, slug, stored.
  split; [reflexivity|]. split; [reflexivity|]. split; [reflexivity|].
  split; [|split; reflexivity].
  destruct (categories !! newId); [exfalso; eauto|reflexivity].
Qed.

(** X29.  [createCategory] keeps the table a forest.  On a table whose ids
    are in the spelling of the database and in which every parent named by
    a row is a row, for a new id in that spelling: the call returns or
    throws; both properties still hold afterwards, and a table without a
    cycle is left without a cycle.  When it returns, the row is new under
    the id that the database drew, it holds the name and the slug as their
    columns store them, it names its parent in the spelling of the
    database, whatever spelling the caller used, that parent is a row, and
    nothing else changed; when it throws, nothing changed. *)
Theorem createCategory_keeps_forest (newId : string) (category : Category.t)
    (categories : Categories.table) :
  Categories.canonicalIds categories ->
  Categories.closed categories ->
  Categories.canonical newId ->
  exists answer categories',
    Categories.createCategory newId category categories
      = Some (answer, categories')
    /\ Categories.canonicalIds categories'
    /\ Categories.closed categories'
    /\ (Categories.acyclic categories -> Categories.acyclic categories')
    /\ (forall m, answer = Throw m -> categories' = categories)
    /\ (forall created,
          answer = Ok created ->
          exists name slug stored,
            Varchar.fit 255 (Category.name category) = Ok name
            /\ Varchar.fit 255 (Category.slug category) = Ok slug
            /\ Categories.bindUuid (Category.parentId category) = Ok stored
            /\ created = (newId, Category.mk name slug stored)
            /\ categories !! newId = None
            /\ categories' = <[newId := created.2]> categories
            /\ (forall parent,
                  stored = Some parent -> is_Some (categories !! parent))).
Proof.
  intros Hids Hclosed Hnew. unfold Categories.createCategory.
  destruct (validateCategoryData_is_Some categories
              (Category.parentId category) None) as [[u|m] Hv]; rewrite Hv.
  2: { exists (Throw m), categories. split; [reflexivity|].
       split; [exact Hids|]. split; [exact Hclosed|]. split; [auto|].
       split; [reflexivity|discriminate]. }
  destruct (Categories.insertCategory newId category categories)
    as [answer categories'] eqn:Hinsert.
  exists answer, categories'. split; [reflexivity|].
  destruct (insertCategory_cases _ _ _ _ _ Hinsert)
    as [[-> [m ->]]
       |(name & slug & stored & Hname & Hslug & Hstored & Hfresh & Hrow)].
  { split; [exact Hids|]. split; [exact Hclosed|]. split; [auto|].
    split; [reflexivity|discriminate]. }
  cbv zeta in Hrow. destruct Hrow as [-> ->].
  set (row := Category.mk _ _ stored) in *.
  assert (Hparent : forall parent,
            stored = Some parent ->
            Categories.canonical parent /\ is_Some (categories !! parent)).
  { intros parent ->.
    apply bindUuid_Ok in Hstored
      as [[_ [=]]|(source & c & Hsource & [= <-] & Hcanon)].
    pose proof (truthyId_truthy _ (canon_truthy _ _ Hcanon)) as Ht.
    rewrite Hsource in Hv.
    destruct (validateCategoryData_ok _ _ _ _ _ Hv Ht)
      as (_ & (key & found & Hkey & Hfound) & _).
    assert (key = parent) as -> by congruence.
    split; [eapply canon_canonical, Hcanon|eauto]. }
  assert (Hkeys : forall x, is_Some (categories !! x) ->
                            is_Some (<[newId := row]> categories !! x)).
  { intros x Hx. unfold Categories.table in *.
    apply lookup_insert_is_Some. destruct (decide (newId = x)); auto. }
  assert (Hsame : forall x, x <> newId ->
            Categories.parentOf (<[newId := row]> categories) x
            = Categories.parentOf categories x)
    by (intros; apply parentOf_insert_ne; assumption).
  assert (Hold : forall y,
            y <> newId -> Categories.grounded categories y ->
            Categories.grounded (<[newId := row]> categories) y).
  { intros y Hne Hg. apply (grounded_avoid categories _ newId Hsame y Hg).
    intros [->|(z & _ & Hl)]%rtc_inv_r; [congruence|].
    pose proof (parentOf_truthy _ _ _ Hl) as Ht.
    apply parentOf_row in Hl as (r & Hr & Hp).
    assert (is_Some (categories !! newId)) as [? ?]; [|congruence].
    eapply closed_lookup; [exact Hclosed|exact Hr|].
    apply truthyId_Some. auto. }
  split.
  { intros i r Hi. unfold Categories.table in *.
    destruct (decide (i = newId)) as [->|Hne].
    - rewrite lookup_insert_eq in Hi. injection Hi as <-.
      split; [exact Hnew|]. intros parent Hp. apply (Hparent parent Hp).
    - rewrite lookup_insert_ne in Hi by congruence.
      apply (Hids i r Hi). }
  split.
  { intros i r Hi. cbn. unfold Categories.table in *.
    destruct (Categories.truthyId (Category.parentId r)) as [parent|] eqn:Hp;
      [|exact I].
    apply Hkeys.
    destruct (decide (i = newId)) as [->|Hne].
    - rewrite lookup_insert_eq in Hi. injection Hi as <-.
      apply truthyId_Some in Hp as [Hp _]. apply (Hparent parent Hp).
    - rewrite lookup_insert_ne in Hi by congruence.
      eapply closed_lookup; eauto. }
  split.
  { intros Hacyclic x.
    destruct (decide (x = newId)) as [->|Hne]; [|apply Hold; auto].
    destruct (Categories.truthyId stored) as [parent|] eqn:Hp.
    + apply (Categories.grounded_child _ _ parent);
        [rewrite parentOf_insert_eq; exact Hp|].
      apply Hold; [|apply Hacyclic].
      apply truthyId_Some in Hp as [Hp _].
      intros ->. destruct (Hparent _ Hp) as [_ [? ?]]. congruence.
    + apply Categories.grounded_root. rewrite parentOf_insert_eq. exact Hp. }
  split; [discriminate|].
  intros created [= <-]. exists name, slug, stored.
  split; [exact Hname|]. split; [exact Hslug|].
  split; [exact Hstored|]. split; [reflexivity|]. split; [exact Hfresh|].
  split; [reflexivity|]. intros parent Hp. apply (Hparent parent Hp).
Qed.

(** A shelf for the family, under Travel written in capitals. *)
Lemma createCategory_keeps_forest_witness :
  Categories.closed (<[ Shelves.family := Shelves.familyRow ]> Shelves.shelves)
  /\ Categories.acyclic
       (<[ Shelves.family := Shelves.familyRow ]> Shelves.shelves).
Proof.
  destruct (createCategory_keeps_forest Shelves.family
              (Category.mk "Family" "travel-family"
                 (Some "6F1C2A9E-0B5D-4C3A-8E21-1A2B3C4D5E01"))
              Shelves.shelves)
    as (answer & categories' & Hrun & _ & Hclosed & Hacyclic & _).
  - apply canonicalCheck_sound. evaluate.
  - apply closedCheck_sound. evaluate.
  - evaluate.
  - assert (Hmade : Categories.createCategory Shelves.family
                      (Category.mk "Family" "travel-family"
                         (Some "6F1C2A9E-0B5D-4C3A-8E21-1A2B3C4D5E01"))
                      Shelves.shelves
                    = Some (Ok (Shelves.family, Shelves.familyRow),
                            <[ Shelves.family := Shelves.familyRow ]>
                              Shelves.shelves))
      by evaluate.
    rewrite Hmade in Hrun. injection Hrun as <- <-.
    split; [exact Hclosed|].
    apply Hacyclic, acyclicWithin_sound. evaluate.
Defined.

Lemma filter_none {A : Type} (f : A -> bool) (l : list A) (x : A) :
  (0 <? length (List.filter f l))%nat = false -> In x l -> f x = false.
Proof.
  intros Hlen Hin. apply Nat.ltb_ge in Hlen.
  destruct (f x) eqn:Hfx; [|reflexivity].
  assert (In x (List.filter f l)) as Hx by (apply filter_In; auto).
  destruct (List.filter f l); [destruct Hx|cbn in Hlen; lia].
Qed.

(** X30.  [deleteCategory] keeps the table a forest and leaves nothing
    behind, on a table whose ids are in the spelling of the database.  An
    id that the database does not read is answered with its error and
    nothing changes.  For an id that it reads as [key], in whatever
    spelling: the row of [key] is deleted, and [true] returned exactly
    when there was one, only when no row names [key] as its parent and no
    media file that is not deleted is filed under [key]; otherwise the
    call throws and nothing changes.  Whether it returns or throws, the
    ids stay in the spelling of the database, a table in which every
    parent named by a row is a row is left so, and a table without a
    cycle is left without a cycle. *)
Theorem deleteCategory_keeps_forest (id : string)
    (media : gmap string MediaFile.t) (categories : Categories.table) :
  Categories.canonicalIds categories ->
  let run := Categories.deleteCategory id media categories in
  Categories.canonicalIds run.2
  /\ (Categories.closed categories -> Categories.closed run.2)
  /\ (Categories.acyclic categories -> Categories.acyclic run.2)
  /\ (forall m, run.1 = Throw m -> run.2 = categories)
  /\ (Uuid.canon id = None -> run = (Throw (Uuid.refusal id), categories))
  /\ (forall deleted,
        run.1 = Ok deleted ->
        exists key,
          Uuid.canon id = Some key
          /\ run.2 = delete key categories
          /\ deleted = bool_decide (is_Some (categories !! key))
          /\ (forall child row,
                categories !! child = Some row ->
                Category.parentId row <> Some key)
          /\ (forall fileId file,
                media !! fileId = Some file ->
                MediaFile.categoryId file ≫= Uuid.canon = Some key ->
                MediaFile.isDeleted file = true)).
Proof.
  intros Hids. unfold Categories.deleteCategory. cbv zeta.
  destruct (Uuid.canon id) as [key|] eqn:Hkey; cbn [fst snd].
  2: { split; [exact Hids|]. split; [auto|]. split; [auto|]. split; [auto|].
       split; [reflexivity|]. intros deleted Hrun. discriminate Hrun. }
  destruct (0 <? length (Categories.childrenOf key categories))%nat
    eqn:Hchildren; cbn [fst snd].
  { split; [exact Hids|]. split; [auto|]. split; [auto|]. split; [auto|].
    split; intros; discriminate. }
  destruct (0 <? length (Categories.liveMediaIn key media))%nat eqn:Hmedia;
    cbn [fst snd].
  { split; [exact Hids|]. split; [auto|]. split; [auto|]. split; [auto|].
    split; intros; discriminate. }
  assert (Hnone : forall child row,
            categories !! child = Some row ->
            Category.parentId row <> Some key).
  { intros child row Hrow Hp.
    pose proof (filter_none _ _ (child, row) Hchildren) as Hf.
    cbn in Hf. rewrite bool_decide_eq_true_2 in Hf by exact Hp.
    discriminate Hf. apply list_elem_of_In, elem_of_map_to_list, Hrow. }
  unfold Categories.table in *.
  split; [|split; [|split; [|split; [|split]]]].
  - intros i r Hi. unfold Categories.table in *.
    apply lookup_delete_Some in Hi as [_ Hi]. apply (Hids i r Hi).
  - intros Hclosed i r Hi. cbn. unfold Categories.table in *.
    apply lookup_delete_Some in Hi as [Hne Hi].
    destruct (Categories.truthyId (Category.parentId r)) as [parent|] eqn:Hp;
      [|exact I].
    rewrite lookup_delete_ne.
    + eapply closed_lookup; eauto.
    + intros ->. apply (Hnone i r Hi). apply truthyId_Some in Hp. tauto.
  - intros Hacyclic x. apply (reparent_grounded categories _ key).
    + intros y Hne. apply parentOf_delete_ne, Hne.
    + apply Categories.grounded_root, parentOf_delete_eq.
    + apply Hacyclic.
  - discriminate.
  - discriminate.
  - intros deleted [= <-]. exists key. repeat split; auto.
    intros fileId file Hfile Hcat.
    pose proof (filter_none _ _ (fileId, file) Hmedia) as Hf.
    cbn in Hf. rewrite bool_decide_eq_true_2 in Hf by exact Hcat.
    cbn in Hf. apply negb_false_iff, Hf.
    apply list_elem_of_In, elem_of_map_to_list, Hfile.
Qed.

(** Berlin, asked for in capitals, is taken off the shelves. *)
Lemma deleteCategory_keeps_forest_witness :
  Categories.canonicalIds (delete Shelves.berlin Shelves.shelves)
  /\ Categories.acyclic (delete Shelves.berlin Shelves.shelves).
Proof.
  destruct (deleteCategory_keeps_forest Shelves.berlinUpper ∅ Shelves.shelves)
    as (Hids & _ & Hacyclic & _).
  - apply canonicalCheck_sound. evaluate.
  - assert (Hrun : (Categories.deleteCategory Shelves.berlinUpper ∅
                      Shelves.shelves).2
                   = delete Shelves.berlin Shelves.shelves)
      by evaluate.
    rewrite Hrun in Hids, Hacyclic.
    split; [exact Hids|]. apply Hacyclic, acyclicWithin_sound. evaluate.
Defined.

(** The answers on the shelves. *)
Example category_cases :
  Categories.checkForCycles Shelves.shelves Shelves.berlin Shelves.travel
    = Some (Ok tt)
  /\ Categories.checkForCycles Shelves.shelves Shelves.travel Shelves.berlin
     = Some (Throw Categories.descendantMessage)
  /\ Categories.checkForCycles Shelves.shelves Shelves.travel
       Shelves.berlinUpper
     = Some (Throw Categories.descendantMessage)
  /\ Categories.checkForCycles Shelves.shelves Shelves.berlin
       Shelves.berlinUpper
     = Some (Ok tt)
  /\ Categories.checkForCycles Shelves.knotted Shelves.family Shelves.berlin
     = Some (Throw Categories.cycleMessage)
  /\ Categories.checkForCycles Shelves.knotted Shelves.family
       Shelves.berlinUpper
     = Some (Throw Categories.cycleMessage)
  /\ Categories.validateCategoryData Shelves.shelves (Some "attic") None
     = Some (Throw (Uuid.refusal "attic"))
  /\ Categories.validateCategoryData Shelves.shelves (Some Shelves.family) None
     = Some (Throw ("Parent category with id " +:+ doubleQuote
                    +:+ Shelves.family +:+ doubleQuote +:+ " does not exist"))
  /\ Categories.validateCategoryData Shelves.shelves (Some Shelves.berlin)
       (Some Shelves.berlin)
     = Some (Throw "A category cannot be its own parent")
  /\ (Categories.createCategory Shelves.family
        (Category.mk "Family" "travel-family" (Some "")) Shelves.shelves)
     = Some (Throw (Uuid.refusal ""), Shelves.shelves)
  /\ (Categories.createCategory Shelves.family
        (Category.mk "Family" "travel" None) Shelves.shelves)
     = Some (Throw (uniqueViolation "categories_slug_unique"),
             Shelves.shelves)
  /\ Varchar.fit 3 "Köln" = Throw (Varchar.lengthError 3)
  /\ Varchar.fit 4 "Köln" = Ok "Köln"
  /\ Varchar.fit 4 "Köln  " = Ok "Köln"
  /\ (Categories.deleteCategory Shelves.travel ∅ Shelves.shelves).1
     = Throw "Cannot delete category: it has 1 child categories. Please move or delete child categories first."
  /\ (Categories.deleteCategory Shelves.berlinBraces
        (Shelves.media Scenario.noVault) Shelves.shelves).1
     = Throw "Cannot delete category: it contains 1 media files. Please move or delete the files first."
  /\ Categories.deleteCategory Shelves.berlinUpper ∅ Shelves.shelves
     = (Ok true, delete Shelves.berlin Shelves.shelves).
Proof. repeat split; vm_compute; reflexivity. Qed.
